(** * IntervalMap.js: an AVL interval tree keyed by closed intervals

    A shallow embedding of [intervalmap.js] (the augmented node, the balance
    helpers, [set], [get], [delete], the overlap and point queries, [clear],
    [clone] and the bulk builder [fromArray]) together with the properties
    its documentation states.

    Conventions of the embedding.
    - JavaScript numbers that the program uses (interval endpoints, heights,
      sizes, array indices) are modelled by [Z]; the one place where the
      program leaves exact arithmetic, the 32-bit shift [(lo + hi) >> 1] of
      the builder, has its wrap-around written out ([toInt32]).
    - A node object is a constructor [Node i v m h l r] carrying the six
      fields of [IntervalMapNode]; [null] is the absent child.  The tree owns
      its nodes exclusively, so in-place field updates are modelled by
      rebuilding the node.
    - Dereferencing [null] raises a [TypeError] in JavaScript; the helpers
      therefore live in the error monad [exc].
    - The interval type comes from the external package [@rawify/interval];
      only its fields [a], [b], its [compareTo] and its [clone] are used.
    - The point [x] of [getAt] is the one number the map takes from the
      caller as it comes, with no guard in front of it: it is a [number],
      an integer or [NaN], and a comparison with [NaN] is false. *)

From Stdlib Require Import ZArith List Bool Lia String Sorting.Sorted
  Sorting.Permutation.
Import ListNotations.
Local Open Scope Z_scope.

Set Implicit Arguments.

(** ** Errors *)

Inductive error : Type :=
| TypeError                        (* property access on null / undefined *)
| RangeError.                      (* call stack exhausted *)

Inductive exc (A : Type) : Type :=
| Ok (x : A)
| Throw (e : error).

Arguments Ok {A} x.
Arguments Throw {A} e.

Definition bind {A B : Type} (c : exc A) (k : A -> exc B) : exc B :=
  match c with
  | Ok x => k x
  | Throw e => Throw e
  end.

Declare Scope exc_scope.
Delimit Scope exc_scope with exc.
Notation "x <- c ;; k" := (bind c (fun x => k))
  (at level 61, c at next level, right associativity) : exc_scope.
Notation "' pat <- c ;; k" := (bind c (fun x => match x with pat => k end))
  (at level 61, pat pattern, c at next level, right associativity) : exc_scope.
Local Open Scope exc_scope.

(** ** Proof automation *)

(** Case analysis on every integer comparison in sight. *)
Ltac zbool :=
  repeat match goal with
  | |- context [?x >? ?y] => destruct (Z.gtb_spec x y)
  | |- context [?x <? ?y] => destruct (Z.ltb_spec x y)
  | |- context [?x <=? ?y] => destruct (Z.leb_spec x y)
  | |- context [?x >=? ?y] => destruct (Z.geb_spec x y)
  | |- context [?x =? ?y] => destruct (Z.eqb_spec x y)
  | H : context [?x >? ?y] |- _ => destruct (Z.gtb_spec x y)
  | H : context [?x <? ?y] |- _ => destruct (Z.ltb_spec x y)
  | H : context [?x <=? ?y] |- _ => destruct (Z.leb_spec x y)
  | H : context [?x >=? ?y] |- _ => destruct (Z.geb_spec x y)
  | H : context [?x =? ?y] |- _ => destruct (Z.eqb_spec x y)
  end.

(** Equality of two appends up to re-association. *)
Ltac app_norm :=
  simpl; repeat (rewrite <- app_assoc; simpl); reflexivity.

(** ** Intervals (external collaborator) *)

Record Interval : Type := mkInterval { a : Z; b : Z }.

(** Modelled from the spec: the external interval type supplies "a total
    order consistent with lexicographic (a,b) comparison"; [compareTo] is
    negative, zero or positive accordingly. *)
Definition compareTo (x y : Interval) : Z :=
  if negb (a x =? a y) then a x - a y else b x - b y.

(** Modelled from the spec: the external interval type is "cloneable"; the
    copy has the same bounds. *)
Definition cloneInterval (x : Interval) : Interval := mkInterval (a x) (b x).

(** The values a caller may pass where an interval is expected. *)
Inductive jsvalue : Type :=
| VInterval (it : Interval)      (* an instance of Interval *)
| VUndefined
| VNull
| VNumber (x : Z)
| VPlain (xa xb : Z).            (* a look-alike object { a, b } *)

Definition instanceofInterval (x : jsvalue) : bool :=
  match x with VInterval _ => true | _ => false end.

(** ** Numbers as a caller may pass them *)

(** A number handed to [getAt]: an ordinary number, or [NaN].  A missing
    argument ([undefined]) is converted to [NaN] by each comparison, so it
    is the same case. *)
Inductive number : Type :=
| Num (x : Z)
| NaN.

(** [x < y], [x > y] and [x <= y] for a number [x] and a stored bound [y];
    [y <= x] and [y >= x] for a stored bound [y] and a number [x].  Every
    comparison with [NaN] is false. *)
Definition ltNum (x : number) (y : Z) : bool :=
  match x with Num x => x <? y | NaN => false end.

Definition gtNum (x : number) (y : Z) : bool :=
  match x with Num x => x >? y | NaN => false end.

Definition leNum (x : number) (y : Z) : bool :=
  match x with Num x => x <=? y | NaN => false end.

Definition leqNum (y : Z) (x : number) : bool :=
  match x with Num x => y <=? x | NaN => false end.

Definition geqNum (y : Z) (x : number) : bool :=
  match x with Num x => y >=? x | NaN => false end.

(** ** 32-bit arithmetic of the shift operator *)

Definition toInt32 (x : Z) : Z := (x + 2 ^ 31) mod 2 ^ 32 - 2 ^ 31.

(** [x >> n] *)
Definition sar (x n : Z) : Z := Z.shiftr (toInt32 x) (n mod 32).

Section Model.

Variable V : Type.

(** ** Nodes *)

Inductive tree : Type :=
| null
| Node (i : Interval) (v : V) (m : Z) (h : Z) (l r : tree).

Definition IntervalMapNode (i : Interval) (v : V) : tree :=
  Node i v (b i) 1 null null.

Definition height (n : tree) : Z :=
  match n with
  | null => 0
  | Node _ _ _ h _ _ => h
  end.

(** [if (c && c.m > m) m = c.m] *)
Definition raiseMax (c : tree) (m : Z) : Z :=
  match c with
  | null => m
  | Node _ _ cm _ _ _ => if cm >? m then cm else m
  end.

Definition update (n : tree) : exc tree :=
  match n with
  | null => Throw TypeError
  | Node i v _ _ l r =>
      let hl := height l in
      let hr := height r in
      let h := (if hl >? hr then hl else hr) + 1 in
      let m := b i in
      let m := raiseMax l m in
      let m := raiseMax r m in
      Ok (Node i v m h l r)
  end.

Definition bf (n : tree) : exc Z :=
  match n with
  | null => Throw TypeError
  | Node _ _ _ _ l r => Ok (height l - height r)
  end.

Definition rotL (x : tree) : exc tree :=
  match x with
  | Node xi xv xm xh xl (Node yi yv ym yh T2 yr) =>
      x' <- update (Node xi xv xm xh xl T2) ;;
      update (Node yi yv ym yh x' yr)
  | _ => Throw TypeError
  end.

Definition rotR (y : tree) : exc tree :=
  match y with
  | Node yi yv ym yh (Node xi xv xm xh xl T2) yr =>
      y' <- update (Node yi yv ym yh T2 yr) ;;
      update (Node xi xv xm xh xl y')
  | _ => Throw TypeError
  end.

Definition rebalance (n : tree) : exc tree :=
  match n with
  | null => Throw TypeError
  | Node i v m h l r =>
      let bal := height l - height r in
      if bal >? 1 then
        bl <- bf l ;;
        l' <- (if bl <? 0 then rotL l else Ok l) ;;
        rotR (Node i v m h l' r)
      else if bal <? -1 then
        br <- bf r ;;
        r' <- (if br >? 0 then rotR r else Ok r) ;;
        rotL (Node i v m h l r')
      else Ok n
  end.

(** ** The map object *)

Record IntervalMap : Type := mkMap { root : tree; size : Z }.

(** [new IntervalMap()] *)
Definition newMap : IntervalMap := mkMap null 0.

(** How a method call on a map ends.  [Returns x m'] is a normal return and
    [Rejects msg m'] is the [throw new Error(msg)] of a guard; both carry
    the map as the call leaves it.  [Faults] is an exception escaping from
    below the guard, out of the balance helpers; the nodes are then left
    half-relinked and that heap is not described. *)
Inductive completion (A : Type) : Type :=
| Returns (x : A) (m' : IntervalMap)
| Rejects (msg : string) (m' : IntervalMap)
| Faults (e : error).

Arguments Returns {A} x m'.
Arguments Rejects {A} msg m'.
Arguments Faults {A} e.

(** *** set *)

(** The closure [ins] of [set]; the counter [self.size] is threaded. *)
Fixpoint ins (it : Interval) (val : V) (n : tree) (sz : Z) : exc (tree * Z) :=
  match n with
  | null => Ok (IntervalMapNode it val, sz + 1)
  | Node i v m h l r =>
      let c := compareTo it i in
      if c <? 0 then
        '(l', sz') <- ins it val l sz ;;
        n1 <- update (Node i v m h l' r) ;;
        n2 <- rebalance n1 ;;
        Ok (n2, sz')
      else if c >? 0 then
        '(r', sz') <- ins it val r sz ;;
        n1 <- update (Node i v m h l r') ;;
        n2 <- rebalance n1 ;;
        Ok (n2, sz')
      else Ok (Node i val m h l r, sz)
  end.

Definition set (this : IntervalMap) (it : jsvalue) (val : V) : completion unit :=
  match it with
  | VInterval it =>
      match ins it val (root this) (size this) with
      | Ok (n, sz) => Returns tt (mkMap n sz)
      | Throw e => Faults e
      end
  | _ => Rejects "IntervalMap.set expects Interval" this
  end.

(** *** get *)

Fixpoint getLoop (qa qb : Z) (n : tree) : option V :=
  match n with
  | null => None
  | Node ni v _ _ l r =>
      if qa <? a ni then getLoop qa qb l
      else if qa >? a ni then getLoop qa qb r
      else if qb =? b ni then Some v
      else if qb <? b ni then getLoop qa qb l else getLoop qa qb r
  end.

Definition get (this : IntervalMap) (it : jsvalue) : completion (option V) :=
  match it with
  | VInterval it => Returns (getLoop (a it) (b it) (root this)) this
  | _ => Rejects "IntervalMap.get expects Interval" this
  end.

(** *** delete *)

(** The inner function [delMin]: it walks the left spine of the right
    subtree until it meets [s = minNode(n.r)], the node without a left
    child, and splices it out. *)
Fixpoint minNode (n : tree) : tree :=
  match n with
  | null => null
  | Node _ _ _ _ l _ =>
      match l with
      | null => n
      | Node _ _ _ _ _ _ => minNode l
      end
  end.

Fixpoint delMin (n2 : tree) : exc tree :=
  match n2 with
  | null => Ok null
  | Node i v m h l r =>
      match l with
      | null => Ok r                      (* n2 === s *)
      | Node _ _ _ _ _ _ =>
          l' <- delMin l ;;
          n1 <- update (Node i v m h l' r) ;;
          rebalance n1
      end
  end.

(** The closure [del]; the flag [removed] is returned with the subtree. *)
Fixpoint del (it : Interval) (n : tree) (removed : bool) : exc (tree * bool) :=
  match n with
  | null => Ok (null, removed)
  | Node i v m h l r =>
      let c := compareTo it i in
      if c <? 0 then
        '(l', removed') <- del it l removed ;;
        n1 <- update (Node i v m h l' r) ;;
        n2 <- rebalance n1 ;;
        Ok (n2, removed')
      else if c >? 0 then
        '(r', removed') <- del it r removed ;;
        n1 <- update (Node i v m h l r') ;;
        n2 <- rebalance n1 ;;
        Ok (n2, removed')
      else
        match l, r with
        | Node _ _ _ _ _ _, Node _ _ _ _ _ _ =>
            match minNode r with
            | null => Throw TypeError
            | Node si sv _ _ _ _ =>
                r' <- delMin r ;;
                n1 <- update (Node si sv m h l r') ;;
                n2 <- rebalance n1 ;;
                Ok (n2, true)
            end
        | _, _ =>
            let tmp := match l with null => r | Node _ _ _ _ _ _ => l end in
            match tmp with
            | null => Ok (null, true)
            | Node _ _ _ _ _ _ =>
                n1 <- update tmp ;;
                n2 <- rebalance n1 ;;
                Ok (n2, true)
            end
        end
  end.

Definition delete (this : IntervalMap) (it : jsvalue) : completion bool :=
  match it with
  | VInterval it =>
      match del it (root this) false with
      | Ok (n, removed) =>
          Returns removed (mkMap n (if removed then size this - 1 else size this))
      | Throw e => Faults e
      end
  | _ => Rejects "IntervalMap.delete expects Interval" this
  end.

(** *** Queries *)

Record entry : Type := mkEntry { interval : Interval; value : V }.

Definition leftReaches (l : tree) (qa : Z) : bool :=
  match l with
  | null => false
  | Node _ _ lm _ _ _ => lm >=? qa
  end.

Fixpoint hasOverlapLoop (qa qb : Z) (n : tree) : bool :=
  match n with
  | null => false
  | Node ni _ _ _ l r =>
      if (a ni <=? qb) && (qa <=? b ni) then true
      else if leftReaches l qa then hasOverlapLoop qa qb l
      else hasOverlapLoop qa qb r
  end.

Definition hasOverlap (this : IntervalMap) (q : jsvalue) : completion bool :=
  match q with
  | VInterval q => Returns (hasOverlapLoop (a q) (b q) (root this)) this
  | _ => Rejects "IntervalMap.hasOverlap expects Interval" this
  end.

(** The closure [dfs] of [getOverlapping]; [out] is the array being filled. *)
Fixpoint dfs (qa qb : Z) (n : tree) (out : list entry) : list entry :=
  match n with
  | null => out
  | Node ni v _ _ l r =>
      let out := if leftReaches l qa then dfs qa qb l out else out in
      let out := if (a ni <=? qb) && (qa <=? b ni)
                 then out ++ [mkEntry ni v] else out in
      match r with
      | null => out
      | Node _ _ _ _ _ _ => if a ni <=? qb then dfs qa qb r out else out
      end
  end.

Definition getOverlapping (this : IntervalMap) (q : jsvalue)
  : completion (list entry) :=
  match q with
  | VInterval q => Returns (dfs (a q) (b q) (root this) []) this
  | _ => Rejects "IntervalMap.getOverlapping expects Interval" this
  end.

(** [n.l && n.l.m >= x] for the point of [getAt]. *)
Definition leftReachesAt (l : tree) (x : number) : bool :=
  match l with
  | null => false
  | Node _ _ lm _ _ _ => geqNum lm x
  end.

(** The closure [dfs] of [getAt(x, true)]. *)
Fixpoint dfsAt (x : number) (n : tree) (out : list entry) : list entry :=
  match n with
  | null => out
  | Node ni v _ _ l r =>
      let out := if leftReachesAt l x then dfsAt x l out else out in
      let out := if leqNum (a ni) x && leNum x (b ni)
                 then out ++ [mkEntry ni v] else out in
      match r with
      | null => out
      | Node _ _ _ _ _ _ => if leqNum (a ni) x then dfsAt x r out else out
      end
  end.

(** The loop of [getAt(x)], the fast path. *)
Fixpoint getAtLoop (x : number) (n : tree) : option V :=
  match n with
  | null => None
  | Node ni v _ _ l r =>
      let ia := a ni in
      let ib := b ni in
      if ltNum x ia then getAtLoop x l
      else if gtNum x ib then getAtLoop x r
      else Some v
  end.

Inductive getAtResult : Type :=
| Single (v : option V)
| Every (out : list entry).

Definition getAt (this : IntervalMap) (x : number) (getAll : bool)
  : getAtResult :=
  if getAll then Every (dfsAt x (root this) [])
  else Single (getAtLoop x (root this)).

(** *** Maintenance *)

Definition getSize (this : IntervalMap) : Z := size this.

Definition isEmpty (this : IntervalMap) : bool := size this =? 0.

Definition clear (this : IntervalMap) : IntervalMap := mkMap null 0.

Fixpoint cpy (n : tree) : tree :=
  match n with
  | null => null
  | Node i v m h l r => Node (mkInterval (a i) (b i)) v m h (cpy l) (cpy r)
  end.

Definition clone (this : IntervalMap) : IntervalMap :=
  mkMap (cpy (root this)) (size this).

(** *** forEach and toArray *)

(** The inner loop of [forEach]: push [n] and its left spine.  The top of
    the stack is the head of the list. *)
Fixpoint pushLeft (n : tree) (st : list tree) : list tree :=
  match n with
  | null => st
  | Node _ _ _ _ l _ => pushLeft l (n :: st)
  end.

(** The outer loop of [forEach], run with the callback of [toArray], which
    pushes each entry onto [res].  [turns] bounds the number of turns of
    the loop; [None] is a loop that has not finished within them. *)
Fixpoint forEachLoop (turns : nat) (st : list tree) (n : tree)
    (res : list entry) : option (exc (list entry)) :=
  match turns with
  | O => None
  | S turns' =>
      match st, n with
      | [], null => Some (Ok res)
      | _, _ =>
          match pushLeft n st with
          | Node i v _ _ _ r :: st' =>
              forEachLoop turns' st' r (res ++ [mkEntry i v])
          | _ => Some (Throw TypeError)
          end
      end
  end.

Definition toArray (turns : nat) (this : IntervalMap)
  : option (exc (list entry)) :=
  forEachLoop turns [] (root this) [].

(** *** fromArray *)

(** [===] and [<] on the caller's values. *)
Variable veq : V -> V -> bool.
Variable vlt : V -> V -> bool.

(** The comparator given to [arr.sort]; [x > y] is [y < x]. *)
Definition comparePairs (mergeSame : bool) (x y : entry) : Z :=
  let ix := interval x in
  let iy := interval y in
  if negb (a ix =? a iy) then a ix - a iy
  else if negb (b ix =? b iy) then b ix - b iy
  else if mergeSame
       then (if vlt (value x) (value y) then -1
             else if vlt (value y) (value x) then 1 else 0)
       else 0.

(** [Array.prototype.sort] is a stable sort; with a consistent comparator
    every stable sort returns the same array, here computed by insertion. *)
Fixpoint insertSorted (cmp : entry -> entry -> Z) (x : entry) (l : list entry)
  : list entry :=
  match l with
  | [] => [x]
  | y :: l' => if cmp x y <=? 0 then x :: l else y :: insertSorted cmp x l'
  end.

Fixpoint sort (cmp : entry -> entry -> Z) (l : list entry) : list entry :=
  match l with
  | [] => []
  | x :: l' => insertSorted cmp x (sort cmp l')
  end.

(** One turn of the coalescing loop.  [merged] is kept most recent entry
    first, so that [merged[merged.length - 1]] is its head. *)
Definition mergeStep (merged : list entry) (e : entry) : list entry :=
  let iv := interval e in
  let val := value e in
  match merged with
  | [] => [mkEntry (cloneInterval iv) val]
  | last :: before =>
      let li := interval last in
      if veq (value last) val && (a iv <=? b li) then
        if b iv >? b li
        then mkEntry (mkInterval (a li) (b iv)) (value last) :: before
        else merged
      else mkEntry (cloneInterval iv) val :: merged
  end.

Definition coalesce (arr : list entry) : list entry :=
  rev (fold_left mergeStep arr []).

(** [arr[k]]: [undefined] outside of the array. *)
Definition at_index (arr : list entry) (k : Z) : option entry :=
  if k <? 0 then None else nth_error arr (Z.to_nat k).

(** The closure [build]; [depth] bounds the call stack. *)
Fixpoint build (depth : nat) (arr : list entry) (lo hi : Z) : exc tree :=
  match depth with
  | O => Throw RangeError
  | S depth' =>
      if lo >? hi then Ok null
      else
        let mid := sar (lo + hi) 1 in
        match at_index arr mid with
        | None => Throw TypeError
        | Some pr =>
            l <- build depth' arr lo (mid - 1) ;;
            r <- build depth' arr (mid + 1) hi ;;
            let lh := match l with null => 0 | Node _ _ _ lh _ _ => lh end in
            let rh := match r with null => 0 | Node _ _ _ rh _ _ => rh end in
            let h := (if lh >? rh then lh else rh) + 1 in
            let m := b (interval pr) in
            let m := raiseMax l m in
            let m := raiseMax r m in
            Ok (Node (interval pr) (value pr) m h l r)
        end
  end.

(** Frames available to [build]; it needs about [log2 (length arr)]. *)
Definition stackDepth (arr : list entry) : nat := S (List.length arr).

(** [pairs] is [None] for [null] / [undefined]. *)
Definition fromArray (pairs : option (list entry)) (mergeSame : bool)
  : exc IntervalMap :=
  match pairs with
  | None => Ok newMap
  | Some [] => Ok newMap
  | Some pairs =>
      let arr := sort (comparePairs mergeSame) pairs in
      let arr := if mergeSame then coalesce arr else arr in
      n <- build (stackDepth arr) arr 0 (Z.of_nat (List.length arr) - 1) ;;
      Ok (mkMap n (Z.of_nat (List.length arr)))
  end.

End Model.

Arguments null {V}.
Arguments newMap {V}.
Arguments Returns {V A} x m'.
Arguments Rejects {V A} msg m'.
Arguments Faults {V A} e.

(** ** The abstract view of a tree and the data-model invariants *)

Section Invariants.

Variable V : Type.

(** The stored entries, in in-order sequence. *)
Fixpoint entries (t : tree V) : list (entry V) :=
  match t with
  | null => []
  | Node i v _ _ l r => entries l ++ mkEntry i v :: entries r
  end.

Definition keys (t : tree V) : list Interval := map (@interval V) (entries t).

(** Number of nodes. *)
Definition count (t : tree V) : Z := Z.of_nat (List.length (entries t)).

(** [P] holds of every key stored in [t]. *)
Fixpoint All (P : Interval -> Prop) (t : tree V) : Prop :=
  match t with
  | null => True
  | Node i _ _ _ l r => P i /\ All P l /\ All P r
  end.

(** Lexicographic order on [(a, b)]: strict when [strict] is set,
    reflexive otherwise. *)
Definition lexR (strict : bool) (x y : Interval) : Prop :=
  a x < a y \/ (a x = a y /\ if strict then b x < b y else b x <= b y).

Definition lexLt : Interval -> Interval -> Prop := lexR true.
Definition lexLe : Interval -> Interval -> Prop := lexR false.

(** Invariant 1, for a given order [R]: at every node the keys of the left
    subtree are [R]-below the node's key and those of the right subtree are
    [R]-above. *)
Fixpoint ordered (R : Interval -> Interval -> Prop) (t : tree V) : Prop :=
  match t with
  | null => True
  | Node i _ _ _ l r =>
      All (fun j => R j i) l /\ All (fun j => R i j) r /\
      ordered R l /\ ordered R r
  end.

Definition bstOrder : tree V -> Prop := ordered lexLt.

(** Invariant 2: [|height(left) - height(right)| <= 1] at every node. *)
Fixpoint balanced (t : tree V) : Prop :=
  match t with
  | null => True
  | Node _ _ _ _ l r =>
      Z.abs (height l - height r) <= 1 /\ balanced l /\ balanced r
  end.

(** The cached subtree maximum of a child, [d] when the child is absent. *)
Definition subtreeMax (c : tree V) (d : Z) : Z :=
  match c with
  | null => d
  | Node _ _ cm _ _ _ => cm
  end.

(** Invariant 3: the cached height is one more than the larger child height
    and the cached maximum is the largest of the node's own [b] and the
    children's cached maxima. *)
Fixpoint augmented (t : tree V) : Prop :=
  match t with
  | null => True
  | Node i _ m h l r =>
      h = Z.max (height l) (height r) + 1 /\
      m = Z.max (b i) (Z.max (subtreeMax l (b i)) (subtreeMax r (b i))) /\
      augmented l /\ augmented r
  end.

(** The part of invariant 3 that concerns the maximum alone. *)
Fixpoint maxCached (t : tree V) : Prop :=
  match t with
  | null => True
  | Node i _ m _ l r =>
      m = Z.max (b i) (Z.max (subtreeMax l (b i)) (subtreeMax r (b i))) /\
      maxCached l /\ maxCached r
  end.

(** Invariants 2 and 3 in the form the program maintains them: what
    [update] computes, one node at a time. *)
Fixpoint avl (t : tree V) : Prop :=
  match t with
  | null => True
  | Node i _ m h l r =>
      avl l /\ avl r /\
      h = Z.max (height l) (height r) + 1 /\
      m = raiseMax r (raiseMax l (b i)) /\
      -1 <= height l - height r <= 1
  end.

(** Invariant 4. *)
Definition sizeOk (m : IntervalMap V) : Prop := size m = count (root m).

(** The four invariants together; [strict] selects the order of
    invariant 1. *)
Definition invariants (strict : bool) (m : IntervalMap V) : Prop :=
  ordered (lexR strict) (root m) /\ balanced (root m) /\
  augmented (root m) /\ sizeOk m.

(** What the nodes waiting on the stack of [forEach] still have to
    deliver: each its own entry, then its right subtree. *)
Definition pending (st : list (tree V)) : list (entry V) :=
  flat_map (fun t => match t with
                     | null => []
                     | Node i v _ _ _ r => mkEntry i v :: entries r
                     end) st.

(** The recursive definitions behind the two caches. *)
Fixpoint realHeight (t : tree V) : Z :=
  match t with
  | null => 0
  | Node _ _ _ _ l r => Z.max (realHeight l) (realHeight r) + 1
  end.

Fixpoint maxEnd (t : tree V) (d : Z) : Z :=
  match t with
  | null => d
  | Node i _ _ _ l r => Z.max (b i) (Z.max (maxEnd l (b i)) (maxEnd r (b i)))
  end.

(** Every cache equals its recursive definition. *)
Fixpoint cachesExact (t : tree V) : Prop :=
  match t with
  | null => True
  | Node i _ m h l r =>
      h = realHeight t /\ m = maxEnd t (b i) /\
      cachesExact l /\ cachesExact r
  end.

(** Closed-interval tests. *)
Definition overlaps (qa qb : Z) (i : Interval) : bool :=
  (a i <=? qb) && (qa <=? b i).

Definition contains (x : Z) (i : Interval) : bool :=
  (a i <=? x) && (x <=? b i).

(** Does the descent by [compareTo] meet a node whose key equals [it]? *)
Fixpoint present (it : Interval) (t : tree V) : bool :=
  match t with
  | null => false
  | Node i _ _ _ l r =>
      let c := compareTo it i in
      if c <? 0 then present it l
      else if c >? 0 then present it r
      else true
  end.

(** The tree with the value of that node overwritten and nothing else
    touched. *)
Fixpoint overwrite (it : Interval) (val : V) (t : tree V) : tree V :=
  match t with
  | null => null
  | Node i v m h l r =>
      let c := compareTo it i in
      if c <? 0 then Node i v m h (overwrite it val l) r
      else if c >? 0 then Node i v m h l (overwrite it val r)
      else Node i val m h l r
  end.

(** The shape of a tree: everything but the values. *)
Fixpoint shape (t : tree V) : tree unit :=
  match t with
  | null => null
  | Node i _ m h l r => Node i tt m h (shape l) (shape r)
  end.

End Invariants.

(** ** Vocabulary for the bulk builder and for reachable maps *)

Section BuilderSpec.

Variable V : Type.
Variable veq : V -> V -> bool.
Variable vlt : V -> V -> bool.




(** The order of the keys, on entries. *)
Definition keyR (s : bool) (x y : entry V) : Prop :=
  lexR s (interval x) (interval y).

(** The array [fromArray] hands to [build]: sorted, and coalesced when
    [mergeSame] is set. *)
Definition prepared (mergeSame : bool) (pairs : list (entry V))
  : list (entry V) :=
  let arr := sort (comparePairs vlt mergeSame) pairs in
  if mergeSame then coalesce veq arr else arr.

(** Arrays whose indices stay where [(lo + hi) >> 1] is exact. *)
Definition arrayFits (pairs : list (entry V)) : Prop :=
  Z.of_nat (List.length pairs) <= 2 ^ 30.

(** [arr[lo .. lo + n - 1]] *)
Definition slice (arr : list (entry V)) (lo n : nat) : list (entry V) :=
  firstn n (skipn lo arr).

(** The retained entry [cur] after [e] has been merged into it. *)
Definition extend (cur e : entry V) : entry V :=
  mkEntry (mkInterval (a (interval cur))
             (Z.max (b (interval cur)) (b (interval e))))
          (value cur).

(** [e] merges into the retained entry [cur]: equal values, and [e] starts
    no later than [cur] ends. *)
Definition merges (cur e : entry V) : bool :=
  veq (value cur) (value e) && (a (interval e) <=? b (interval cur)).

(** The coalescing sweep as the documentation words it: each entry merges
    into the immediately preceding retained entry when [merges] holds,
    extending its end to the larger of the two ends; otherwise it starts a
    new retained run. *)
Fixpoint sweepFrom (cur : entry V) (rest : list (entry V)) : list (entry V) :=
  match rest with
  | [] => [cur]
  | e :: rest' =>
      if merges cur e then sweepFrom (extend cur e) rest'
      else cur :: sweepFrom e rest'
  end.

Definition coalesceSpec (arr : list (entry V)) : list (entry V) :=
  match arr with
  | [] => []
  | e :: rest => sweepFrom e rest
  end.



(** The maps a program can hold: built by the constructor or by
    [fromArray], then changed through the methods. *)
Inductive reachable : IntervalMap V -> Prop :=
| reach_new : reachable newMap
| reach_fromArray pairs mergeSame m :
    arrayFits pairs ->
    fromArray veq vlt (Some pairs) mergeSame = Ok m -> reachable m
| reach_set m it val m' :
    reachable m -> set m it val = Returns tt m' -> reachable m'
| reach_delete m it removed m' :
    reachable m -> delete m it = Returns removed m' -> reachable m'
| reach_clear m : reachable m -> reachable (clear m)
| reach_clone m : reachable m -> reachable (clone m).

End BuilderSpec.

(** ** The scenarios of the test suite *)

Module Scenarios.
Local Open Scope string_scope.
Local Open Scope Z_scope.

Definition I (x y : Z) : jsvalue := VInterval (mkInterval x y).

Definition after {A} (c : completion string A) : IntervalMap string :=
  match c with
  | Returns _ m => m
  | Rejects _ m => m
  | Faults _ => newMap
  end.

Definition m5 : IntervalMap string :=
  let m := newMap in
  let m := after (set m (I 10 20) "A") in
  let m := after (set m (I 5 8) "L") in
  let m := after (set m (I 2 3) "LL") in
  let m := after (set m (I 12 18) "B") in
  after (set m (I 25 30) "C").

Definition m1 : IntervalMap string := after (set newMap (I 1 5) "A").

(** [set] of each triple in turn, starting from the empty map. *)
Definition setAll (kvs : list (Z * Z * string)) : IntervalMap string :=
  fold_left (fun m '(x, y, v) => after (set m (I x y) v)) kvs newMap.

(** The values of a result array. *)
Definition values (out : completion string (list (entry string)))
  : list string :=
  match out with
  | Returns es _ => map (@value string) es
  | _ => []
  end.

Definition E (x y : Z) (v : string) : entry string :=
  mkEntry (mkInterval x y) v.

Definition abc : list (entry string) :=
  [mkEntry (mkInterval 0 5) "A"; mkEntry (mkInterval 3 6) "B";
   mkEntry (mkInterval 10 12) "C"].

(** The pairs of the coalescing test, with the values X, Y, Z numbered. *)
Definition xy : list (entry Z) :=
  [mkEntry (mkInterval 0 2) 1; mkEntry (mkInterval 2 5) 1;
   mkEntry (mkInterval 6 7) 2; mkEntry (mkInterval 6 9) 2;
   mkEntry (mkInterval 4 6) 3].


(** The two disjoint intervals of the point-query test. *)
Definition ab : IntervalMap string := setAll [(0, 10, "A"); (20, 30, "B")].

(** The right subtree of [m5]; under a node with no left subtree it is
    the right-heavy case of [rebalance]. *)
Definition right5 : tree string :=
  Node (mkInterval 12 18) "B" 30 2
    (Node (mkInterval 10 20) "A" 20 1 null null)
    (Node (mkInterval 25 30) "C" 30 1 null null).

End Scenarios.

(** ** Sequences of calls *)

Section Sequences.

Variable V : Type.

(** [for (const e of pairs) m.set(e.interval, e.value)] *)
Fixpoint setEach (m : IntervalMap V) (pairs : list (entry V))
  : completion V unit :=
  match pairs with
  | [] => Returns tt m
  | e :: rest =>
      match set m (VInterval (interval e)) (value e) with
      | Returns _ m' => setEach m' rest
      | Rejects msg m' => Rejects msg m'
      | Faults err => Faults err
      end
  end.

(** [for (const k of ks) m.delete(k)] *)
Fixpoint deleteEach (m : IntervalMap V) (ks : list Interval)
  : completion V unit :=
  match ks with
  | [] => Returns tt m
  | k :: rest =>
      match delete m (VInterval k) with
      | Returns _ m' => deleteEach m' rest
      | Rejects msg m' => Rejects msg m'
      | Faults err => Faults err
      end
  end.

(** No two neighbours of a retained array would merge. *)
Fixpoint settled (veq : V -> V -> bool) (arr : list (entry V)) : Prop :=
  match arr with
  | [] => True
  | x :: rest =>
      match rest with
      | [] => True
      | y :: _ => merges veq x y = false /\ settled veq rest
      end
  end.

(** [r] accounts for [e] after coalescing: it carries the value of the
    run that [e] joined and spans the interval of [e]. *)
Definition covers (veq : V -> V -> bool) (r e : entry V) : Prop :=
  (value r = value e \/ veq (value r) (value e) = true) /\
  a (interval r) <= a (interval e) /\ b (interval e) <= b (interval r).

End Sequences.

(** ** Basic facts *)

Section Balance.

Variable V : Type.
Implicit Types t l r n : tree V.

Lemma raiseMax_max l r x :
  raiseMax r (raiseMax l x) = Z.max x (Z.max (subtreeMax l x) (subtreeMax r x)).
Proof. destruct l, r; simpl; zbool; lia. Qed.

Lemma avl_iff t : avl t <-> balanced t /\ augmented t.
Proof.
  induction t as [|i v m h l IHl r IHr]; simpl; [tauto|].
  rewrite IHl, IHr, raiseMax_max.
  intuition lia.
Qed.

Lemma avl_height_nonneg t : avl t -> 0 <= height t.
Proof.
  induction t as [|i v m h l IHl r IHr]; simpl; [lia|].
  intros (Hl & Hr & -> & _ & _). specialize (IHl Hl). lia.
Qed.

Lemma avl_height_node i v m h l r : avl (Node i v m h l r) -> 1 <= h.
Proof.
  simpl. intros (Hl & Hr & -> & _ & _).
  apply avl_height_nonneg in Hl. lia.
Qed.

Lemma avl_height_zero t : avl t -> height t <= 0 -> t = null.
Proof.
  destruct t; [reflexivity|]. intros H Hh.
  apply avl_height_node in H. simpl in Hh. lia.
Qed.

(** The cached height of a well-formed tree is its real height, and the
    cached maximum is the largest right endpoint stored below. *)
Lemma avl_realHeight t : avl t -> height t = realHeight t.
Proof.
  induction t as [|i v m h l IHl r IHr]; simpl; [reflexivity|].
  intros (Hl & Hr & -> & _ & _). rewrite <- IHl, <- IHr by assumption. lia.
Qed.

Lemma avl_maxEnd t d : avl t -> subtreeMax t d = maxEnd t d.
Proof.
  revert d. induction t as [|i v m h l IHl r IHr]; simpl; [reflexivity|].
  intros d (Hl & Hr & _ & -> & _).
  rewrite raiseMax_max, IHl, IHr by assumption. reflexivity.
Qed.

Lemma avl_cachesExact t : avl t -> cachesExact t.
Proof.
  induction t as [|i v m h l IHl r IHr]; [trivial|].
  intros Hav. pose proof (avl_realHeight _ Hav) as Hh.
  pose proof (avl_maxEnd _ (b i) Hav) as Hm.
  destruct Hav as (Hl & Hr & _). cbn [cachesExact]. auto.
Qed.

(** [rebalance(update(n))] on a node whose children are well formed and
    whose heights differ by at most two. *)
Lemma fixup_spec i v m h l r :
  avl l -> avl r -> -2 <= height l - height r <= 2 ->
  exists n1 n',
    update (Node i v m h l r) = Ok n1 /\ rebalance n1 = Ok n' /\
    avl n' /\
    entries n' = entries l ++ mkEntry i v :: entries r /\
    Z.max (height l) (height r) <= height n' <= Z.max (height l) (height r) + 1 /\
    (-1 <= height l - height r <= 1 ->
     n' = Node i v (raiseMax r (raiseMax l (b i)))
            (Z.max (height l) (height r) + 1) l r).
Proof.
  intros Hl Hr Hd.
  pose proof (avl_height_nonneg _ Hl) as Hnl.
  pose proof (avl_height_nonneg _ Hr) as Hnr.
  exists (Node i v (raiseMax r (raiseMax l (b i)))
            ((if height l >? height r then height l else height r) + 1) l r).
  unfold update, rebalance, bind.
  cbn [height].
  replace ((if height l >? height r then height l else height r) + 1)
    with (Z.max (height l) (height r) + 1) by (zbool; lia).
  destruct (Z.gtb_spec (height l - height r) 1) as [Hgt|Hgt].
  - (* left heavy *)
    destruct l as [|li lv lm lh ll lr]; [simpl in *; lia|].
    simpl in Hl. destruct Hl as (Hll & Hlr & Hlh & Hlm & Hlb).
    pose proof (avl_height_nonneg _ Hll) as Hnll.
    pose proof (avl_height_nonneg _ Hlr) as Hnlr.
    simpl in Hd, Hgt, Hnl |- *.
    destruct (Z.ltb_spec (height ll - height lr) 0) as [Hlt|Hlt].
    + destruct lr as [|ri rv rm rh rl rr]; [simpl in *; lia|].
      simpl in Hlr. destruct Hlr as (Hrl & Hrr & Hrh & Hrm & Hrb).
      pose proof (avl_height_nonneg _ Hrl) as Hnrl.
      pose proof (avl_height_nonneg _ Hrr) as Hnrr.
      simpl in *.
      eexists. split; [reflexivity|]. split; [reflexivity|].
      simpl.
      repeat split; auto; try (zbool; lia); try app_norm.
    + simpl.
      eexists. split; [reflexivity|]. split; [reflexivity|].
      simpl.
      repeat split; auto; try (zbool; lia); try app_norm.
  - destruct (Z.ltb_spec (height l - height r) (-1)) as [Hlt|Hlt].
    + (* right heavy *)
      destruct r as [|ri rv rm rh rl rr]; [simpl in *; lia|].
      simpl in Hr. destruct Hr as (Hrl & Hrr & Hrh & Hrm & Hrb).
      pose proof (avl_height_nonneg _ Hrl) as Hnrl.
      pose proof (avl_height_nonneg _ Hrr) as Hnrr.
      simpl in Hd, Hgt, Hlt, Hnr |- *.
      destruct (Z.gtb_spec (height rl - height rr) 0) as [Hg|Hg].
      * destruct rl as [|li lv lm lh ll lr]; [simpl in *; lia|].
        simpl in Hrl. destruct Hrl as (Hll & Hlr & Hlh & Hlm & Hlb).
        pose proof (avl_height_nonneg _ Hll) as Hnll.
        pose proof (avl_height_nonneg _ Hlr) as Hnlr.
        simpl in *.
        eexists. split; [reflexivity|]. split; [reflexivity|].
        simpl.
        repeat split; auto; try (zbool; lia); try app_norm.
      * simpl.
        eexists. split; [reflexivity|]. split; [reflexivity|].
        simpl.
        repeat split; auto; try (zbool; lia); try app_norm.
    + eexists. split; [reflexivity|]. split; [reflexivity|].
      simpl.
      repeat split; auto; try (zbool; lia).
Qed.

End Balance.

(** ** Order: the structural invariant and the sorted in-order sequence *)

Lemma lexR_trans s x y z : lexR s x y -> lexR s y z -> lexR s x z.
Proof. unfold lexR. destruct s; lia. Qed.

Lemma lexLt_lexR s x y : lexLt x y -> lexR s x y.
Proof. unfold lexLt, lexR. destruct s; lia. Qed.

Lemma compareTo_lt x y : compareTo x y < 0 <-> lexLt x y.
Proof. unfold compareTo, lexLt, lexR. destruct (Z.eqb_spec (a x) (a y)); simpl; lia. Qed.

Lemma compareTo_gt x y : compareTo x y > 0 <-> lexLt y x.
Proof. unfold compareTo, lexLt, lexR. destruct (Z.eqb_spec (a x) (a y)); simpl; lia. Qed.

Lemma compareTo_eq x y : compareTo x y = 0 <-> x = y.
Proof.
  unfold compareTo. destruct x as [xa xb], y as [ya yb]; simpl.
  destruct (Z.eqb_spec xa ya); simpl; split; intros H;
    try (inversion H; subst); try lia; f_equal; lia.
Qed.

Lemma lexLt_irrefl x : ~ lexLt x x.
Proof. unfold lexLt, lexR. lia. Qed.

Lemma lexLe_antisym x y : lexLe x y -> lexLe y x -> x = y.
Proof.
  unfold lexLe, lexR. destruct x, y; simpl. intros. f_equal; lia.
Qed.

Lemma lexLe_cases x y : lexLe x y <-> lexLt x y \/ x = y.
Proof.
  unfold lexLe, lexLt, lexR. destruct x as [xa xb], y as [ya yb]; simpl.
  split.
  - intros [H|[H1 H2]]; [lia|].
    destruct (Z.eq_dec xb yb); [right; f_equal; lia | lia].
  - intros [H|H]; [lia|]. inversion H; subst. lia.
Qed.

Section Sorted.

Variable A : Type.
Variable R : A -> A -> Prop.

Lemma sorted_app_iff (l1 l2 : list A) :
  StronglySorted R (l1 ++ l2) <->
  StronglySorted R l1 /\ StronglySorted R l2 /\
  Forall (fun x => Forall (R x) l2) l1.
Proof.
  induction l1 as [|x l1 IH]; simpl.
  - split; [intros H; repeat split; auto; constructor | tauto].
  - split.
    + intros H. inversion H as [|? ? Hs Hf]; subst.
      apply IH in Hs. destruct Hs as (H1 & H2 & H3).
      apply Forall_app in Hf. destruct Hf as [Hf1 Hf2].
      repeat split; auto; constructor; auto.
    + intros (H1 & H2 & H3).
      inversion H1 as [|? ? Hs Hf]; subst.
      inversion H3 as [|? ? Hx Hr]; subst.
      constructor; [apply IH; auto | apply Forall_app; auto].
Qed.

Lemma sorted_remove (l1 l2 : list A) x :
  StronglySorted R (l1 ++ x :: l2) -> StronglySorted R (l1 ++ l2).
Proof.
  rewrite !sorted_app_iff. intros (H1 & H2 & H3).
  inversion H2; subst. repeat split; auto.
  eapply Forall_impl; [|exact H3]. simpl. intros y Hy.
  inversion Hy; auto.
Qed.

End Sorted.

Section Order.

Variable V : Type.
Implicit Types t l r n : tree V.

Lemma All_Forall P t : All P t <-> Forall P (keys t).
Proof.
  unfold keys. induction t as [|i v m h l IHl r IHr]; simpl.
  - split; auto.
  - rewrite map_app, Forall_app. simpl. rewrite Forall_cons_iff.
    fold (keys l) (keys r). tauto.
Qed.

Lemma All_impl (P Q : Interval -> Prop) t :
  (forall x, P x -> Q x) -> All P t -> All Q t.
Proof. rewrite !All_Forall. intros H. apply Forall_impl. exact H. Qed.

Lemma keys_node i v m h l r :
  keys (Node i v m h l r) = keys l ++ i :: keys r.
Proof. unfold keys. simpl. rewrite map_app. reflexivity. Qed.

Lemma ordered_sorted R t :
  (forall x y z, R x y -> R y z -> R x z) ->
  (ordered R t <-> StronglySorted R (keys t)).
Proof.
  intros Htr. induction t as [|i v m h l IHl r IHr].
  - simpl. split; [constructor | trivial].
  - rewrite keys_node. cbn [ordered].
    rewrite sorted_app_iff, IHl, IHr, !All_Forall.
    split.
    + intros (H1 & H2 & H3 & H4). repeat split; auto.
      * constructor; auto.
      * rewrite Forall_forall in *. intros x Hx. constructor; [auto|].
        rewrite Forall_forall. intros y Hy. eauto.
    + intros (H1 & H2 & H3). inversion H2; subst.
      repeat split; auto.
      eapply Forall_impl; [|exact H3]. simpl. intros x Hx.
      inversion Hx; auto.
Qed.

Lemma ordered_keys_eq R t t' :
  (forall x y z, R x y -> R y z -> R x z) ->
  keys t' = keys t -> ordered R t -> ordered R t'.
Proof.
  intros Htr Hk. rewrite !ordered_sorted by assumption. rewrite Hk. trivial.
Qed.

Lemma ordered_weaken t : ordered lexLt t -> ordered lexLe t.
Proof.
  induction t as [|i v m h l IHl r IHr]; simpl; [trivial|].
  intros (H1 & H2 & H3 & H4). repeat split; auto.
  - eapply All_impl; [|exact H1]. intros x. apply lexLt_lexR.
  - eapply All_impl; [|exact H2]. intros x. apply lexLt_lexR.
Qed.

Lemma count_node i v m h l r :
  count (Node i v m h l r) = count l + count r + 1.
Proof. unfold count. simpl. rewrite length_app. simpl. lia. Qed.

End Order.

(** ** set *)

Section Insert.

Variable V : Type.
Implicit Types t l r n : tree V.

Lemma overwrite_height it val t : height (overwrite it val t) = height t.
Proof.
  destruct t as [|i v m h l r]; simpl; [reflexivity|].
  destruct (compareTo it i <? 0), (compareTo it i >? 0); reflexivity.
Qed.

Lemma overwrite_raiseMax it val t x :
  raiseMax (overwrite it val t) x = raiseMax t x.
Proof.
  destruct t as [|i v m h l r]; simpl; [reflexivity|].
  destruct (compareTo it i <? 0), (compareTo it i >? 0); reflexivity.
Qed.

Lemma overwrite_keys it val t : keys (overwrite it val t) = keys t.
Proof.
  induction t as [|i v m h l IHl r IHr]; simpl; [reflexivity|].
  zbool; rewrite !keys_node; congruence.
Qed.

Lemma overwrite_shape it val t : shape (overwrite it val t) = shape t.
Proof.
  induction t as [|i v m h l IHl r IHr]; simpl; [reflexivity|].
  zbool; simpl; congruence.
Qed.

Lemma overwrite_avl it val t : avl t -> avl (overwrite it val t).
Proof.
  induction t as [|i v m h l IHl r IHr]; simpl; [trivial|].
  intros (Hl & Hr & Hh & Hm & Hb).
  zbool; simpl; rewrite ?overwrite_height, ?overwrite_raiseMax; auto 10.
Qed.

(** What the closure [ins] returns on a well-formed tree. *)
Lemma ins_spec it val t sz :
  avl t ->
  exists t',
    ins it val t sz = Ok (t', if present it t then sz else sz + 1) /\
    avl t' /\
    height t <= height t' <= height t + 1 /\
    (present it t = true -> t' = overwrite it val t) /\
    (present it t = false ->
     exists pre post, entries t = pre ++ post /\
                      entries t' = pre ++ mkEntry it val :: post).
Proof.
  induction t as [|i v m h l IHl r IHr]; intros Hav.
  - exists (IntervalMapNode it val). simpl.
    repeat split; auto; try lia; try discriminate.
    intros _. exists [], []. auto.
  - simpl in Hav. destruct Hav as (Hl & Hr & Hh & Hm & Hb).
    cbn [ins present overwrite].
    destruct (Z.ltb_spec (compareTo it i) 0) as [Hc|Hc].
    + destruct (IHl Hl) as (l' & Hins & Hl' & Hhl & Hpres & Habs).
      destruct (@fixup_spec V i v m h l' r Hl' Hr ltac:(lia))
        as (n1 & n' & Hu & Hre & Hn' & Hen & Hhn & Hsame).
      exists n'. rewrite Hins. cbn [bind]. rewrite Hu. cbn [bind].
      rewrite Hre. cbn [bind height].
      split; [reflexivity|]. split; [assumption|].
      split.
      * destruct (Z.eq_dec (height l') (height l)) as [E|E].
        -- rewrite Hsame by lia. simpl. lia.
        -- destruct (Z_le_gt_dec (height l' - height r) 1) as [E1|E1].
           ++ rewrite Hsame by lia. simpl. lia.
           ++ lia.
      * split.
        -- intros Hp. specialize (Hpres Hp). subst l'.
           rewrite overwrite_height in Hsame. rewrite Hsame by lia.
           rewrite overwrite_raiseMax. congruence.
        -- intros Hp. destruct (Habs Hp) as (l1 & l2 & E1 & E2).
           exists l1, (l2 ++ mkEntry i v :: entries r).
           rewrite Hen, E2. simpl. rewrite E1, <- !app_assoc. auto.
    + destruct (Z.gtb_spec (compareTo it i) 0) as [Hc'|Hc'].
      * destruct (IHr Hr) as (r' & Hins & Hr' & Hhr & Hpres & Habs).
        destruct (@fixup_spec V i v m h l r' Hl Hr' ltac:(lia))
          as (n1 & n' & Hu & Hre & Hn' & Hen & Hhn & Hsame).
        exists n'. rewrite Hins. cbn [bind]. rewrite Hu. cbn [bind].
        rewrite Hre. cbn [bind height].
        split; [reflexivity|]. split; [assumption|].
        split.
        -- destruct (Z.eq_dec (height r') (height r)) as [E|E].
           ++ rewrite Hsame by lia. simpl. lia.
           ++ destruct (Z_le_gt_dec (height r' - height l) 1) as [E1|E1].
              ** rewrite Hsame by lia. simpl. lia.
              ** lia.
        -- split.
           ++ intros Hp. specialize (Hpres Hp). subst r'.
              rewrite overwrite_height in Hsame. rewrite Hsame by lia.
              rewrite overwrite_raiseMax. congruence.
           ++ intros Hp. destruct (Habs Hp) as (l1 & l2 & E1 & E2).
              exists (entries l ++ mkEntry i v :: l1), l2.
              rewrite Hen, E2. simpl. rewrite E1, <- !app_assoc. auto.
      * exists (Node i val m h l r). simpl.
        repeat split; auto; try lia; try discriminate.
Qed.

Lemma ins_keys it val t sz t' sz' :
  avl t -> ins it val t sz = Ok (t', sz') ->
  forall k, In k (keys t') -> k = it \/ In k (keys t).
Proof.
  intros Hav Hins k Hk.
  destruct (@ins_spec it val t sz Hav) as (t2 & E & _ & _ & Hp & Ha).
  rewrite Hins in E. inversion E; subst t2.
  destruct (present it t) eqn:Hpr.
  - rewrite (Hp eq_refl), overwrite_keys in Hk. auto.
  - destruct (Ha eq_refl) as (l1 & l2 & E1 & E2).
    unfold keys in *. rewrite E2 in Hk. rewrite E1.
    rewrite map_app in *. simpl in Hk.
    apply in_app_or in Hk. destruct Hk as [Hk|[Hk|Hk]]; auto.
    + right. apply in_or_app. auto.
    + right. apply in_or_app. auto.
Qed.

Lemma ins_All it val t sz t' sz' (P : Interval -> Prop) :
  avl t -> ins it val t sz = Ok (t', sz') -> P it -> All P t -> All P t'.
Proof.
  intros Hav Hins Hit. rewrite !All_Forall, !Forall_forall.
  intros H k Hk. destruct (ins_keys _ _ _ _ Hav Hins _ Hk); subst; auto.
Qed.

Lemma ins_ordered s it val t sz t' sz' :
  avl t -> ins it val t sz = Ok (t', sz') ->
  ordered (lexR s) t -> ordered (lexR s) t'.
Proof.
  revert sz t' sz'.
  induction t as [|i v m h l IHl r IHr]; intros sz t' sz' Hav Hins Hord.
  - simpl in Hins. inversion Hins; subst. simpl. auto.
  - simpl in Hav. destruct Hav as (Hl & Hr & Hh & Hm & Hb).
    simpl in Hord. destruct Hord as (Ho1 & Ho2 & Ho3 & Ho4).
    cbn [ins] in Hins.
    destruct (Z.ltb_spec (compareTo it i) 0) as [Hc|Hc].
    + destruct (@ins_spec it val l sz Hl) as (l' & E & Hl' & Hhl & _).
      rewrite E in Hins. cbn [bind] in Hins.
      destruct (@fixup_spec V i v m h l' r Hl' Hr ltac:(lia))
        as (n1 & n' & Hu & Hre & Hn' & Hen & _).
      rewrite Hu in Hins. cbn [bind] in Hins. rewrite Hre in Hins.
      cbn [bind] in Hins. inversion Hins; subst n' sz'.
      apply ordered_keys_eq with (t := Node i v m h l' r).
      * apply lexR_trans.
      * unfold keys. rewrite Hen. reflexivity.
      * simpl. repeat split; auto.
        -- eapply ins_All; [exact Hl | exact E | | exact Ho1]. simpl.
           apply lexLt_lexR, compareTo_lt. assumption.
        -- eapply IHl; eauto.
    + destruct (Z.gtb_spec (compareTo it i) 0) as [Hc'|Hc'].
      * destruct (@ins_spec it val r sz Hr) as (r' & E & Hr' & Hhr & _).
        rewrite E in Hins. cbn [bind] in Hins.
        destruct (@fixup_spec V i v m h l r' Hl Hr' ltac:(lia))
          as (n1 & n' & Hu & Hre & Hn' & Hen & _).
        rewrite Hu in Hins. cbn [bind] in Hins. rewrite Hre in Hins.
        cbn [bind] in Hins. inversion Hins; subst n' sz'.
        apply ordered_keys_eq with (t := Node i v m h l r').
        -- apply lexR_trans.
        -- unfold keys. rewrite Hen. reflexivity.
        -- simpl. repeat split; auto.
           ++ eapply ins_All; [exact Hr | exact E | | exact Ho2]. simpl.
              apply lexLt_lexR, compareTo_gt. lia.
           ++ eapply IHr; eauto.
      * inversion Hins; subst. simpl. auto.
Qed.

Lemma overwrite_count it val t : count (overwrite it val t) = count t.
Proof.
  unfold count. f_equal.
  rewrite <- (length_map (@interval V) (entries (overwrite it val t))).
  rewrite <- (length_map (@interval V) (entries t)).
  fold (keys (overwrite it val t)) (keys t). rewrite overwrite_keys. reflexivity.
Qed.

Lemma ins_count it val t sz t' sz' :
  avl t -> ins it val t sz = Ok (t', sz') ->
  sz' - sz = count t' - count t.
Proof.
  intros Hav Hins.
  destruct (@ins_spec it val t sz Hav) as (t2 & E & _ & _ & Hp & Ha).
  rewrite Hins in E. inversion E; subst t2.
  destruct (present it t) eqn:Hpr.
  - rewrite (Hp eq_refl), overwrite_count. lia.
  - destruct (Ha eq_refl) as (l1 & l2 & E1 & E2).
    unfold count. rewrite E1, E2, !length_app. simpl. lia.
Qed.

End Insert.

(** ** delete *)

Section Delete.

Variable V : Type.
Implicit Types t l r n : tree V.

Lemma avl_fixup_same i v m h l r :
  avl (Node i v m h l r) ->
  exists n1, update (Node i v m h l r) = Ok n1 /\
             rebalance n1 = Ok (Node i v m h l r).
Proof.
  intros Hav. pose proof Hav as Hav'.
  simpl in Hav'. destruct Hav' as (Hl & Hr & Hh & Hm & Hb).
  destruct (@fixup_spec V i v m h l r Hl Hr ltac:(lia))
    as (n1 & n' & Hu & Hre & _ & _ & _ & Hsame).
  exists n1. split; [assumption|].
  rewrite Hre, (Hsame Hb). congruence.
Qed.

(** [minNode] and [delMin] on a non-empty well-formed tree: the leftmost
    entry is the first of the in-order sequence and [delMin] drops it. *)
Lemma delMin_spec t :
  avl t -> t <> null ->
  exists si sv sm sh sl sr t',
    minNode t = Node si sv sm sh sl sr /\
    delMin t = Ok t' /\
    avl t' /\
    height t - 1 <= height t' <= height t /\
    entries t = mkEntry si sv :: entries t'.
Proof.
  induction t as [|i v m h l IHl r IHr]; intros Hav Hnn; [congruence|].
  simpl in Hav. destruct Hav as (Hl & Hr & Hh & Hm & Hb).
  destruct l as [|li lv lm lh ll lr].
  - exists i, v, m, h, null, r, r. simpl in *.
    pose proof (avl_height_nonneg _ Hr).
    repeat split; auto; lia.
  - destruct (IHl Hl ltac:(discriminate))
      as (si & sv & sm & sh & sl & sr & l' & Hmin & Hdel & Hl' & Hhl & Hen).
    destruct (@fixup_spec V i v m h l' r Hl' Hr ltac:(lia))
      as (n1 & n' & Hu & Hre & Hn' & Hen' & Hhn & Hsame).
    exists si, sv, sm, sh, sl, sr, n'.
    split; [exact Hmin|].
    split.
    { change (delMin (Node i v m h (Node li lv lm lh ll lr) r))
        with (bind (delMin (Node li lv lm lh ll lr))
                (fun l' => bind (update (Node i v m h l' r))
                             (fun n1 => rebalance n1))).
      rewrite Hdel. cbn [bind]. rewrite Hu. cbn [bind]. exact Hre. }
    split; [assumption|].
    split.
    + clear IHl IHr.
      destruct (Z.eq_dec (height l') (height (Node li lv lm lh ll lr))) as [E|E].
      * rewrite Hsame by lia. cbn [height] in *. lia.
      * destruct (Z_le_gt_dec (height r - height l') 1) as [E1|E1].
        -- rewrite Hsame by lia. cbn [height] in *. lia.
        -- cbn [height] in *. lia.
    + rewrite Hen'. cbn [entries] in Hen |- *. rewrite Hen. reflexivity.
Qed.

(** What the closure [del] returns on a well-formed tree. *)
Lemma del_spec it t rm :
  avl t ->
  exists t',
    del it t rm = Ok (t', if present it t then true else rm) /\
    avl t' /\
    height t - 1 <= height t' <= height t /\
    (present it t = false -> t' = t) /\
    (present it t = true ->
     exists pre e post, entries t = pre ++ e :: post /\ interval e = it /\
                        entries t' = pre ++ post).
Proof.
  induction t as [|i v m h l IHl r IHr]; intros Hav.
  - exists null. simpl. repeat split; auto; try lia; discriminate.
  - pose proof Hav as Hav0.
    simpl in Hav. destruct Hav as (Hl & Hr & Hh & Hm & Hb).
    cbn [del present].
    destruct (Z.ltb_spec (compareTo it i) 0) as [Hc|Hc].
    + destruct (IHl Hl) as (l' & Hdel & Hl' & Hhl & Habs & Hpres).
      destruct (@fixup_spec V i v m h l' r Hl' Hr ltac:(lia))
        as (n1 & n' & Hu & Hre & Hn' & Hen & Hhn & Hsame).
      exists n'. rewrite Hdel. cbn [bind]. rewrite Hu. cbn [bind].
      rewrite Hre. cbn [bind height].
      split; [reflexivity|]. split; [assumption|].
      split.
      * destruct (Z.eq_dec (height l') (height l)) as [E|E].
        -- rewrite Hsame by lia. simpl. lia.
        -- destruct (Z_le_gt_dec (height r - height l') 1) as [E1|E1].
           ++ rewrite Hsame by lia. simpl. lia.
           ++ lia.
      * split.
        -- intros Hp. specialize (Habs Hp). subst l'.
           rewrite Hsame by lia. congruence.
        -- intros Hp. destruct (Hpres Hp) as (pre & e & post & E1 & E2 & E3).
           exists pre, e, (post ++ mkEntry i v :: entries r).
           rewrite Hen, E3. simpl. rewrite E1, <- !app_assoc. auto.
    + destruct (Z.gtb_spec (compareTo it i) 0) as [Hc'|Hc'].
      * destruct (IHr Hr) as (r' & Hdel & Hr' & Hhr & Habs & Hpres).
        destruct (@fixup_spec V i v m h l r' Hl Hr' ltac:(lia))
          as (n1 & n' & Hu & Hre & Hn' & Hen & Hhn & Hsame).
        exists n'. rewrite Hdel. cbn [bind]. rewrite Hu. cbn [bind].
        rewrite Hre. cbn [bind height].
        split; [reflexivity|]. split; [assumption|].
        split.
        -- destruct (Z.eq_dec (height r') (height r)) as [E|E].
           ++ rewrite Hsame by lia. simpl. lia.
           ++ destruct (Z_le_gt_dec (height l - height r') 1) as [E1|E1].
              ** rewrite Hsame by lia. simpl. lia.
              ** lia.
        -- split.
           ++ intros Hp. specialize (Habs Hp). subst r'.
              rewrite Hsame by lia. congruence.
           ++ intros Hp. destruct (Hpres Hp) as (pre & e & post & E1 & E2 & E3).
              exists (entries l ++ mkEntry i v :: pre), e, post.
              rewrite Hen, E3. simpl. rewrite E1, <- !app_assoc. auto.
      * assert (Hit : i = it) by (symmetry; apply compareTo_eq; lia).
        destruct l as [|li lv lm lh ll lr]; [|destruct r as [|ri rv rm' rh rl rr]].
        -- (* no left child *)
           destruct r as [|ri rv rm' rh rl rr].
           ++ exists null. simpl in *.
              split; [reflexivity|]. split; [trivial|]. split; [lia|].
              split; [discriminate|].
              intros _. exists [], (mkEntry i v), []. auto.
           ++ destruct (avl_fixup_same Hr) as (n1 & Hu & Hre).
              exists (Node ri rv rm' rh rl rr).
              rewrite Hu. cbn [bind]. rewrite Hre. cbn [bind].
              pose proof (avl_height_nonneg _ Hr).
              split; [reflexivity|]. split; [assumption|].
              split; [simpl in *; lia|].
              split; [discriminate|].
              intros _. exists [], (mkEntry i v), (entries (Node ri rv rm' rh rl rr)).
              auto.
        -- (* no right child *)
           destruct (avl_fixup_same Hl) as (n1 & Hu & Hre).
           exists (Node li lv lm lh ll lr).
           rewrite Hu. cbn [bind]. rewrite Hre. cbn [bind].
           pose proof (avl_height_nonneg _ Hl).
           split; [reflexivity|]. split; [assumption|].
           split; [simpl in *; lia|].
           split; [discriminate|].
           intros _. exists (entries (Node li lv lm lh ll lr)), (mkEntry i v), [].
           rewrite app_nil_r. auto.
        -- (* two children *)
           destruct (@delMin_spec (Node ri rv rm' rh rl rr) Hr ltac:(discriminate))
             as (si & sv & sm & sh & sl & sr & r' & Hmin & Hdel & Hr' & Hhr & Hen).
           assert (Hd : -2 <= height (Node li lv lm lh ll lr) - height r' <= 2)
             by lia.
           destruct (@fixup_spec V si sv m h (Node li lv lm lh ll lr) r' Hl Hr' Hd)
             as (n1 & n' & Hu & Hre & Hn' & Hen' & Hhn & Hsame).
           exists n'. rewrite Hmin, Hdel. cbn [bind]. rewrite Hu. cbn [bind].
           rewrite Hre. cbn [bind].
           split; [reflexivity|]. split; [assumption|].
           split.
           ++ clear IHl IHr.
              destruct (Z.eq_dec (height r') (height (Node ri rv rm' rh rl rr)))
                as [E|E].
              ** rewrite Hsame by lia. cbn [height] in *. lia.
              ** destruct (Z_le_gt_dec (height (Node li lv lm lh ll lr) - height r') 1)
                   as [E1|E1].
                 --- rewrite Hsame by lia. cbn [height] in *. lia.
                 --- cbn [height] in *. lia.
           ++ split; [discriminate|].
              intros _.
              exists (entries (Node li lv lm lh ll lr)), (mkEntry i v),
                     (entries (Node ri rv rm' rh rl rr)).
              split; [reflexivity|]. split; [assumption|].
              rewrite Hen', Hen. reflexivity.
Qed.

Lemma del_ordered R it t rm t' rm' :
  (forall x y z, R x y -> R y z -> R x z) ->
  avl t -> del it t rm = Ok (t', rm') -> ordered R t -> ordered R t'.
Proof.
  intros Htr Hav Hdel.
  destruct (@del_spec it t rm Hav) as (t2 & E & _ & _ & Ha & Hp).
  rewrite Hdel in E. inversion E; subst t2.
  destruct (present it t) eqn:Hpr.
  - destruct (Hp eq_refl) as (pre & e & post & E1 & _ & E2).
    rewrite !ordered_sorted by assumption. unfold keys.
    rewrite E1, E2, !map_app. simpl. apply sorted_remove.
  - rewrite (Ha eq_refl). trivial.
Qed.

Lemma del_count it t rm t' rm' :
  avl t -> del it t rm = Ok (t', rm') ->
  count t' = if present it t then count t - 1 else count t.
Proof.
  intros Hav Hdel.
  destruct (@del_spec it t rm Hav) as (t2 & E & _ & _ & Ha & Hp).
  rewrite Hdel in E. inversion E; subst t2.
  destruct (present it t) eqn:Hpr.
  - destruct (Hp eq_refl) as (pre & e & post & E1 & _ & E2).
    unfold count. rewrite E1, E2, !length_app. simpl. lia.
  - rewrite (Ha eq_refl). reflexivity.
Qed.

End Delete.

(** ** Queries *)

Section Queries.

Variable V : Type.
Implicit Types t l r n : tree V.

Lemma augmented_maxCached t : augmented t -> maxCached t.
Proof.
  induction t as [|i v m h l IHl r IHr]; simpl; [trivial|]. tauto.
Qed.

(** The cache bounds every right endpoint below it ... *)
Lemma maxCached_bound t d :
  maxCached t -> All (fun j => b j <= subtreeMax t d) t.
Proof.
  revert d. induction t as [|i v m h l IHl r IHr]; intros d; simpl; [trivial|].
  intros (Hm & Hl & Hr).
  specialize (IHl (b i) Hl). specialize (IHr (b i) Hr).
  repeat split.
  - lia.
  - eapply All_impl; [|exact IHl]. simpl. intros x Hx. lia.
  - eapply All_impl; [|exact IHr]. simpl. intros x Hx. lia.
Qed.

(** ... and is the right endpoint of some stored interval. *)
Lemma maxCached_attained t d :
  maxCached t -> t <> null ->
  exists j, In j (keys t) /\ b j = subtreeMax t d.
Proof.
  revert d. induction t as [|i v m h l IHl r IHr]; intros d Hm Hnn; [congruence|].
  simpl in Hm. destruct Hm as (Hm & Hl & Hr). simpl. rewrite keys_node.
  assert (Hcase : m = b i \/ (l <> null /\ m = subtreeMax l (b i)) \/
                  (r <> null /\ m = subtreeMax r (b i))).
  { destruct l, r; simpl in *;
      try (left; lia);
      try (destruct (Z.eq_dec m (b i)); [left; assumption | right]).
    - right. split; [discriminate | lia].
    - left. split; [discriminate | lia].
    - destruct (Z.eq_dec m m0); [left | right]; split; try discriminate; lia. }
  destruct Hcase as [E | [[Hn E] | [Hn E]]].
  - exists i. split; [apply in_or_app; right; left; reflexivity | lia].
  - destruct (IHl (b i) Hl Hn) as (j & Hj & Hbj).
    exists j. split; [apply in_or_app; left; assumption | lia].
  - destruct (IHr (b i) Hr Hn) as (j & Hj & Hbj).
    exists j. split; [apply in_or_app; right; right; assumption | lia].
Qed.

Lemma lexR_a s x y : lexR s x y -> a x <= a y.
Proof. unfold lexR. lia. Qed.

Lemma entries_keys P t :
  All P t -> forall e, In e (entries t) -> P (interval e).
Proof.
  rewrite All_Forall, Forall_forall. intros H e He. apply H.
  unfold keys. apply in_map. exact He.
Qed.

(** Nothing in a left subtree that [leftReaches] rules out overlaps. *)
Lemma left_unreachable qa qb l :
  maxCached l -> leftReaches l qa = false ->
  forall e, In e (entries l) -> overlaps qa qb (interval e) = false.
Proof.
  intros Hm Hl e He. destruct l as [|li lv lm lh ll lr]; [contradiction|].
  pose proof (entries_keys _ _ (@maxCached_bound _ 0 Hm) e He) as Hb.
  simpl in Hb, Hl. unfold overlaps.
  apply andb_false_iff. right. zbool; lia.
Qed.

(** Nothing to the right of a node that starts after [qb] overlaps. *)
Lemma right_unreachable s qa qb i r :
  All (fun j => lexR s i j) r -> qb < a i ->
  forall e, In e (entries r) -> overlaps qa qb (interval e) = false.
Proof.
  intros Ho Hlt e He.
  pose proof (entries_keys _ _ Ho e He) as Hle. simpl in Hle.
  apply lexR_a in Hle. unfold overlaps.
  apply andb_false_iff. left. zbool; lia.
Qed.

Lemma filter_none (A : Type) (f : A -> bool) (xs : list A) :
  (forall x, In x xs -> f x = false) -> filter f xs = [].
Proof.
  induction xs as [|x xs IH]; simpl; [reflexivity|].
  intros H. rewrite (H x) by auto. apply IH. auto.
Qed.

Lemma existsb_none (A : Type) (f : A -> bool) (xs : list A) :
  (forall x, In x xs -> f x = false) -> existsb f xs = false.
Proof.
  induction xs as [|x xs IH]; simpl; [reflexivity|].
  intros H. rewrite (H x) by auto. apply IH. auto.
Qed.

Lemma dfs_eq qa qb ni v m h l r out :
  dfs qa qb (Node ni v m h l r) out =
  let out1 := if leftReaches l qa then dfs qa qb l out else out in
  let out2 := if overlaps qa qb ni then out1 ++ [mkEntry ni v] else out1 in
  if a ni <=? qb then dfs qa qb r out2 else out2.
Proof.
  unfold overlaps. simpl. destruct r; simpl; destruct (a ni <=? qb); reflexivity.
Qed.

Lemma dfs_out qa qb t out : dfs qa qb t out = out ++ dfs qa qb t [].
Proof.
  revert out. induction t as [|i v m h l IHl r IHr]; intros out.
  - simpl. rewrite app_nil_r. reflexivity.
  - rewrite !dfs_eq. cbv zeta.
    destruct (leftReaches l qa), (overlaps qa qb i), (a i <=? qb);
      repeat match goal with
      | |- context [dfs qa qb r ?X] =>
          lazymatch X with [] => fail | _ => rewrite (IHr X) end
      | |- context [dfs qa qb l ?X] =>
          lazymatch X with [] => fail | _ => rewrite (IHl X) end
      end;
      rewrite ?app_nil_r, <- ?app_assoc; simpl; reflexivity.
Qed.

(** The pruned traversal collects exactly the overlapping entries, in
    in-order sequence. *)
Lemma dfs_filter s qa qb t :
  ordered (lexR s) t -> maxCached t ->
  dfs qa qb t [] = filter (fun e => overlaps qa qb (interval e)) (entries t).
Proof.
  induction t as [|i v m h l IHl r IHr]; intros Ho Hm; [reflexivity|].
  simpl in Ho, Hm. destruct Ho as (Ho1 & Ho2 & Ho3 & Ho4).
  destruct Hm as (Hm & Hml & Hmr).
  rewrite dfs_eq. cbv zeta. cbn [entries]. rewrite filter_app. cbn [filter interval].
  assert (EL : (if leftReaches l qa then dfs qa qb l [] else []) =
               filter (fun e => overlaps qa qb (interval e)) (entries l)).
  { destruct (leftReaches l qa) eqn:E; [auto|].
    symmetry. apply filter_none. apply left_unreachable; assumption. }
  assert (ER : forall out, (if a i <=? qb then dfs qa qb r out else out) =
               out ++ filter (fun e => overlaps qa qb (interval e)) (entries r)).
  { intros out. destruct (Z.leb_spec (a i) qb) as [E|E].
    - rewrite dfs_out, IHr by assumption. reflexivity.
    - rewrite filter_none; [rewrite app_nil_r; reflexivity|].
      eapply right_unreachable; eassumption. }
  rewrite ER, EL.
  destruct (overlaps qa qb i); [rewrite <- app_assoc|]; reflexivity.
Qed.

(** The single-path descent decides whether some stored interval
    overlaps. *)
Lemma hasOverlapLoop_existsb s qa qb t :
  ordered (lexR s) t -> maxCached t ->
  hasOverlapLoop qa qb t =
  existsb (fun e => overlaps qa qb (interval e)) (entries t).
Proof.
  induction t as [|i v m h l IHl r IHr]; intros Ho Hm; [reflexivity|].
  simpl in Ho, Hm. destruct Ho as (Ho1 & Ho2 & Ho3 & Ho4).
  destruct Hm as (Hm & Hml & Hmr).
  cbn [hasOverlapLoop entries]. rewrite existsb_app. cbn [existsb interval].
  fold (overlaps qa qb i).
  destruct (overlaps qa qb i) eqn:Hov.
  - rewrite orb_true_r. reflexivity.
  - rewrite orb_false_l.
    destruct (leftReaches l qa) eqn:Hreach.
    + rewrite IHl by assumption.
      destruct (existsb (fun e => overlaps qa qb (interval e)) (entries l)) eqn:El;
        [reflexivity|].
      symmetry. simpl. apply existsb_none.
      (* the interval reaching the cached maximum does not overlap, so it
         starts after [qb], and so does everything to the right *)
      destruct l as [|li lv lm lh ll lr]; [discriminate|].
      destruct (@maxCached_attained (Node li lv lm lh ll lr) 0 Hml
                  ltac:(discriminate)) as (j & Hj & Hbj).
      simpl in Hbj, Hreach.
      unfold keys in Hj. apply in_map_iff in Hj. destruct Hj as (e & Eje & He).
      assert (Hnov : overlaps qa qb (interval e) = false).
      { destruct (overlaps qa qb (interval e)) eqn:E; [|reflexivity].
        assert (existsb (fun e => overlaps qa qb (interval e))
                  (entries (Node li lv lm lh ll lr)) = true)
          by (apply existsb_exists; eauto).
        congruence. }
      assert (Hja : a j <= a i).
      { rewrite All_Forall, Forall_forall in Ho1.
        apply (@lexR_a s). apply Ho1. unfold keys. apply in_map_iff. eauto. }
      subst j. unfold overlaps in Hnov.
      apply andb_false_iff in Hnov.
      eapply right_unreachable; [exact Ho2|].
      destruct Hnov as [Hnov|Hnov]; revert Hnov Hreach; zbool; intros; try lia;
        discriminate.
    + rewrite IHr by assumption.
      rewrite (@existsb_none _ _ (entries l)); [reflexivity|].
      apply left_unreachable; assumption.
Qed.

Lemma sorted_filter (A : Type) (R : A -> A -> Prop) (f : A -> bool) xs :
  StronglySorted R xs -> StronglySorted R (filter f xs).
Proof.
  induction 1 as [|x xs Hs IH Hf]; simpl; [constructor|].
  destruct (f x); [|assumption].
  constructor; [assumption|].
  rewrite Forall_forall in *. intros y Hy. apply filter_In in Hy. apply Hf, Hy.
Qed.

End Queries.

(** ** get *)

Section Lookup.

Variable V : Type.
Implicit Types t l r n : tree V.

(** The hand-written (a, then b) descent of [get] takes the branch that
    [compareTo] selects. *)
Lemma getLoop_node it i v m h l r :
  getLoop (a it) (b it) (Node i v m h l r) =
  if compareTo it i <? 0 then getLoop (a it) (b it) l
  else if compareTo it i >? 0 then getLoop (a it) (b it) r
  else Some v.
Proof.
  unfold compareTo. cbn [getLoop].
  destruct (Z.eqb_spec (a it) (a i)); cbn [negb]; zbool; try lia; reflexivity.
Qed.

Lemma getLoop_overwrite it val t :
  present it t = true -> getLoop (a it) (b it) (overwrite it val t) = Some val.
Proof.
  induction t as [|i v m h l IHl r IHr]; [discriminate|].
  cbn [present overwrite].
  destruct (compareTo it i <? 0) eqn:E1; [|destruct (compareTo it i >? 0) eqn:E2];
    intros Hp; rewrite getLoop_node, E1, ?E2; auto.
Qed.

Lemma getLoop_absent it t :
  ~ In it (keys t) -> getLoop (a it) (b it) t = None.
Proof.
  induction t as [|i v m h l IHl r IHr]; [reflexivity|].
  rewrite keys_node. intros Hn. rewrite getLoop_node.
  destruct (Z.ltb_spec (compareTo it i) 0).
  - apply IHl. intros H'. apply Hn. apply in_or_app. auto.
  - destruct (Z.gtb_spec (compareTo it i) 0).
    + apply IHr. intros H'. apply Hn. apply in_or_app. right. right. exact H'.
    + exfalso. apply Hn. apply in_or_app. right. left.
      symmetry. apply compareTo_eq. lia.
Qed.

Lemma present_In it t : present it t = true -> In it (keys t).
Proof.
  induction t as [|i v m h l IHl r IHr]; [discriminate|].
  cbn [present]. rewrite keys_node. intros Hp. apply in_or_app.
  destruct (Z.ltb_spec (compareTo it i) 0); [auto|].
  destruct (Z.gtb_spec (compareTo it i) 0); [right; right; auto|].
  right. left. symmetry. apply compareTo_eq. lia.
Qed.

(** In an ordered tree the descent meets every key that is stored. *)
Lemma In_present s it t :
  ordered (lexR s) t -> In it (keys t) -> present it t = true.
Proof.
  induction t as [|i v m h l IHl r IHr]; [contradiction|].
  simpl. intros (Ho1 & Ho2 & Ho3 & Ho4). rewrite keys_node. intros Hin.
  rewrite All_Forall, Forall_forall in Ho1, Ho2.
  apply in_app_or in Hin.
  destruct (Z.ltb_spec (compareTo it i) 0) as [Hc|Hc].
  - apply IHl; [assumption|].
    destruct Hin as [Hin|[Hin|Hin]]; [assumption| |].
    + subst. apply compareTo_lt in Hc. apply lexLt_irrefl in Hc. contradiction.
    + exfalso. apply Ho2 in Hin. apply compareTo_lt in Hc.
      unfold lexLt, lexR in *. destruct s; lia.
  - destruct (Z.gtb_spec (compareTo it i) 0) as [Hc'|Hc']; [|reflexivity].
    apply IHr; [assumption|].
    destruct Hin as [Hin|[Hin|Hin]]; [| |assumption].
    + exfalso. apply Ho1 in Hin.
      assert (Hg : compareTo it i > 0) by lia.
      apply compareTo_gt in Hg.
      unfold lexLt, lexR in *. destruct s; lia.
    + subst. assert (Hg : compareTo it it > 0) by lia.
      apply compareTo_gt in Hg. apply lexLt_irrefl in Hg. contradiction.
Qed.

(** [get] finds a key that is stored exactly once. *)
Lemma getLoop_found s it val t :
  ordered (lexR s) t ->
  In (mkEntry it val) (entries t) ->
  (forall e, In e (entries t) -> interval e = it -> value e = val) ->
  getLoop (a it) (b it) t = Some val.
Proof.
  induction t as [|i v m h l IHl r IHr]; [contradiction|].
  cbn [ordered entries]. intros (Ho1 & Ho2 & Ho3 & Ho4) Hin Huniq.
  rewrite getLoop_node.
  pose proof (entries_keys _ _ Ho1) as Hk1.
  pose proof (entries_keys _ _ Ho2) as Hk2. simpl in Hk1, Hk2.
  apply in_app_or in Hin.
  destruct (Z.ltb_spec (compareTo it i) 0) as [Hc|Hc].
  - apply IHl; [assumption | | intros e He; apply Huniq; apply in_or_app; auto].
    destruct Hin as [Hin|[Hin|Hin]]; [assumption| |].
    + inversion Hin; subst. apply compareTo_lt in Hc.
      apply lexLt_irrefl in Hc. contradiction.
    + exfalso. apply Hk2 in Hin. simpl in Hin. apply compareTo_lt in Hc.
      unfold lexLt, lexR in *. destruct s; lia.
  - destruct (Z.gtb_spec (compareTo it i) 0) as [Hc'|Hc'].
    + apply IHr; [assumption | |
        intros e He; apply Huniq; apply in_or_app; right; right; assumption].
      destruct Hin as [Hin|[Hin|Hin]]; [| |assumption].
      * exfalso. apply Hk1 in Hin. simpl in Hin.
        assert (Hg : compareTo it i > 0) by lia.
        apply compareTo_gt in Hg.
        unfold lexLt, lexR in *. destruct s; lia.
      * inversion Hin; subst. assert (Hg : compareTo it it > 0) by lia.
        apply compareTo_gt in Hg. apply lexLt_irrefl in Hg. contradiction.
    + f_equal.
      assert (Hit : it = i) by (apply compareTo_eq; lia).
      apply (Huniq (mkEntry i v)); [|simpl; congruence].
      apply in_or_app. right. left. reflexivity.
Qed.

(** On a strictly ordered map whose intervals are well formed and pairwise
    disjoint, the fast path of [getAt] finds the interval containing the
    point. *)
Lemma getAtLoop_disjoint x t e :
  ordered lexLt t ->
  (forall e1, In e1 (entries t) -> a (interval e1) <= b (interval e1)) ->
  (forall e1 e2, In e1 (entries t) -> In e2 (entries t) ->
                 interval e1 <> interval e2 ->
                 b (interval e1) < a (interval e2) \/
                 b (interval e2) < a (interval e1)) ->
  In e (entries t) -> contains x (interval e) = true ->
  getAtLoop (Num x) t = Some (value e).
Proof.
  induction t as [|i v m h l IHl r IHr]; [contradiction|].
  cbn [ordered entries getAtLoop ltNum gtNum]. cbv zeta.
  intros (Ho1 & Ho2 & Ho3 & Ho4) Hval Hdis Hin Hc.
  pose proof (entries_keys _ _ Ho1) as Hk1.
  pose proof (entries_keys _ _ Ho2) as Hk2. simpl in Hk1, Hk2.
  assert (Hroot : In (mkEntry i v) (entries l ++ mkEntry i v :: entries r))
    by (apply in_or_app; right; left; reflexivity).
  pose proof (Hval _ Hroot) as Hvi. simpl in Hvi.
  unfold contains in Hc. apply andb_true_iff in Hc.
  destruct Hc as [Hc1 Hc2]. apply Z.leb_le in Hc1, Hc2.
  apply in_app_or in Hin. destruct Hin as [Hin|[Hin|Hin]].
  - pose proof (Hk1 _ Hin) as Hlt.
    assert (Hne : interval e <> i)
      by (intros E; rewrite E in Hlt; apply lexLt_irrefl in Hlt; exact Hlt).
    assert (HinT : In e (entries l ++ mkEntry i v :: entries r))
      by (apply in_or_app; auto).
    pose proof (Hval _ HinT) as Hve.
    destruct (Hdis e (mkEntry i v) HinT Hroot Hne) as [Hd|Hd]; simpl in Hd.
    + destruct (Z.ltb_spec x (a i)); [|lia].
      apply IHl; auto.
      * intros e1 He1. apply Hval. apply in_or_app. auto.
      * intros e1 e2 He1 He2. apply Hdis; apply in_or_app; auto.
      * unfold contains. apply andb_true_iff. split; apply Z.leb_le; lia.
    + unfold lexLt, lexR in Hlt. lia.
  - subst e. simpl in *.
    destruct (Z.ltb_spec x (a i)); [lia|].
    destruct (Z.gtb_spec x (b i)); [lia|]. reflexivity.
  - pose proof (Hk2 _ Hin) as Hlt.
    assert (Hne : interval e <> i)
      by (intros E; rewrite E in Hlt; apply lexLt_irrefl in Hlt; exact Hlt).
    assert (HinT : In e (entries l ++ mkEntry i v :: entries r))
      by (apply in_or_app; right; right; assumption).
    pose proof (Hval _ HinT) as Hve.
    destruct (Hdis e (mkEntry i v) HinT Hroot Hne) as [Hd|Hd]; simpl in Hd.
    + unfold lexLt, lexR in Hlt. lia.
    + destruct (Z.ltb_spec x (a i)); [lia|].
      destruct (Z.gtb_spec x (b i)); [|lia].
      apply IHr; auto.
      * intros e1 He1. apply Hval. apply in_or_app. right. right. exact He1.
      * intros e1 e2 He1 He2.
        apply Hdis; apply in_or_app; right; right; assumption.
      * unfold contains. apply andb_true_iff. split; apply Z.leb_le; lia.
Qed.

(** The fast path of [getAt] only ever answers with the value of an
    interval that contains the point. *)
Lemma getAtLoop_sound x t v :
  getAtLoop (Num x) t = Some v ->
  exists e, In e (entries t) /\ value e = v /\ contains x (interval e) = true.
Proof.
  induction t as [|i w m h l IHl r IHr]; [discriminate|].
  cbn [getAtLoop entries ltNum gtNum]. cbv zeta.
  destruct (Z.ltb_spec x (a i)) as [H1|H1].
  - intros H. destruct (IHl H) as (e & He & Hv & Hc).
    exists e. split; [apply in_or_app; auto | auto].
  - destruct (Z.gtb_spec x (b i)) as [H2|H2].
    + intros H. destruct (IHr H) as (e & He & Hv & Hc).
      exists e. split; [apply in_or_app; right; right; assumption | auto].
    + intros H. inversion H; subst.
      exists (mkEntry i v). split; [apply in_or_app; right; left; reflexivity|].
      split; [reflexivity|]. unfold contains. simpl. zbool; try lia; reflexivity.
Qed.

End Lookup.

(** ** forEach and toArray *)

Section Traversal.

Variable V : Type.
Implicit Types t l r : tree V.

Lemma pushLeft_pending t (st : list (tree V)) :
  pending (pushLeft t st) = entries t ++ pending st /\
  (Forall (fun u => u <> null) st -> Forall (fun u => u <> null) (pushLeft t st)) /\
  (t <> null -> pushLeft t st <> []).
Proof.
  revert st. induction t as [|i v m h l IHl r _]; intros st.
  - simpl. repeat split; auto; congruence.
  - cbn [pushLeft entries]. destruct (IHl (Node i v m h l r :: st)) as (E & HF & Hne).
    split; [|split].
    + rewrite E. cbn [pending flat_map]. rewrite <- app_assoc. reflexivity.
    + intros Hst. apply HF. constructor; [discriminate | exact Hst].
    + intros _. destruct l as [|li lv lm lh ll lr]; [simpl; discriminate|].
      apply Hne. discriminate.
Qed.

(** Given as many turns as there are entries left to deliver, and one
    more, the loop ends with all of them delivered in order. *)
Lemma forEachLoop_entries turns (st : list (tree V)) t res :
  Forall (fun u => u <> null) st ->
  (List.length (entries t ++ pending st) < turns)%nat ->
  forEachLoop turns st t res = Some (Ok (res ++ entries t ++ pending st)).
Proof.
  revert st t res. induction turns as [|turns IH]; intros st t res Hst Hlen;
    [inversion Hlen|].
  cbn [forEachLoop].
  destruct (pushLeft_pending t st) as (E & HF & Hne).
  specialize (HF Hst).
  assert (Hstep :
    match pushLeft t st with
    | Node i v _ _ _ r :: st' => forEachLoop turns st' r (res ++ [mkEntry i v])
    | _ => Some (Throw TypeError)
    end = Some (Ok (res ++ entries t ++ pending st)) \/
    (st = [] /\ t = null)).
  { destruct (pushLeft t st) as [|top st'] eqn:Ep.
    - right. destruct t; [|exfalso; apply Hne; [discriminate | reflexivity]].
      simpl in Ep. auto.
    - left. inversion HF as [|? ? Htop HF']; subst.
      destruct top as [|i v m h l r]; [congruence|].
      rewrite <- E. cbn [pending flat_map]. fold (pending st').
      rewrite IH; [rewrite <- app_assoc; reflexivity | exact HF' |].
      rewrite <- E in Hlen. cbn [pending flat_map] in Hlen.
      fold (pending st') in Hlen. simpl in Hlen. lia. }
  destruct Hstep as [Hstep|[-> ->]].
  - destruct st; [destruct t|]; try exact Hstep.
    simpl in Hstep. discriminate.
  - simpl. rewrite app_nil_r. reflexivity.
Qed.

(** [toArray] returns the in-order sequence of the stored entries. *)
Lemma toArray_entries turns (m : IntervalMap V) :
  (List.length (entries (root m)) < turns)%nat ->
  toArray turns m = Some (Ok (entries (root m))).
Proof.
  intros H. unfold toArray.
  rewrite forEachLoop_entries; [simpl; rewrite app_nil_r; reflexivity | constructor |].
  simpl. rewrite app_nil_r. exact H.
Qed.

End Traversal.

(** ** fromArray: sorting *)

Section Sorting.

Variable V : Type.
Variable vlt : V -> V -> bool.

Lemma comparePairs_le ms x y :
  comparePairs vlt ms x y <= 0 -> keyR false x y.
Proof.
  unfold comparePairs, keyR, lexR. cbv zeta.
  destruct (Z.eqb_spec (a (interval x)) (a (interval y))); cbn [negb]; [|lia].
  destruct (Z.eqb_spec (b (interval x)) (b (interval y))); cbn [negb]; lia.
Qed.

Lemma comparePairs_gt ms x y :
  0 < comparePairs vlt ms x y -> keyR false y x.
Proof.
  unfold comparePairs, keyR, lexR. cbv zeta.
  destruct (Z.eqb_spec (a (interval x)) (a (interval y))); cbn [negb]; [|lia].
  destruct (Z.eqb_spec (b (interval x)) (b (interval y))); cbn [negb]; lia.
Qed.

Lemma insertSorted_perm cmp (x : entry V) xs :
  Permutation (x :: xs) (insertSorted cmp x xs).
Proof.
  induction xs as [|y xs IH]; simpl; [reflexivity|].
  destruct (cmp x y <=? 0); [reflexivity|].
  rewrite perm_swap. constructor. exact IH.
Qed.

Lemma sort_perm cmp (xs : list (entry V)) : Permutation xs (sort cmp xs).
Proof.
  induction xs as [|x xs IH]; simpl; [constructor|].
  rewrite <- insertSorted_perm. constructor. exact IH.
Qed.

Lemma sort_length cmp (xs : list (entry V)) :
  List.length (sort cmp xs) = List.length xs.
Proof. symmetry. apply Permutation_length, sort_perm. Qed.

(** Insertion keeps a list sorted for any order that the comparator
    respects in both directions. *)
Lemma insertSorted_sorted cmp (R : entry V -> entry V -> Prop) x xs :
  (forall u v w, R u v -> R v w -> R u w) ->
  (forall u v, cmp u v <= 0 -> R u v) ->
  (forall u v, 0 < cmp u v -> R v u) ->
  StronglySorted R xs -> StronglySorted R (insertSorted cmp x xs).
Proof.
  intros Htr Hle Hgt. induction 1 as [|y xs Hs IH Hf]; simpl.
  - repeat constructor.
  - destruct (Z.leb_spec (cmp x y) 0) as [E|E].
    + constructor; [constructor; assumption|].
      constructor; [auto|].
      eapply Forall_impl; [|exact Hf]. intros z. apply Htr. auto.
    + constructor; [assumption|].
      eapply Permutation_Forall; [apply insertSorted_perm|].
      constructor; auto.
Qed.

Lemma sort_sorted cmp (R : entry V -> entry V -> Prop) xs :
  (forall u v w, R u v -> R v w -> R u w) ->
  (forall u v, cmp u v <= 0 -> R u v) ->
  (forall u v, 0 < cmp u v -> R v u) ->
  StronglySorted R (sort cmp xs).
Proof.
  intros Htr Hle Hgt. induction xs as [|x xs IH]; simpl; [constructor|].
  apply insertSorted_sorted; assumption.
Qed.

(** Whatever the values are, the sorted array ascends by [(a, b)]. *)
Lemma sort_keys_sorted ms xs :
  StronglySorted (keyR false) (sort (comparePairs vlt ms) xs).
Proof.
  apply sort_sorted.
  - intros u v w. apply lexR_trans.
  - apply comparePairs_le.
  - apply comparePairs_gt.
Qed.




End Sorting.

(** ** fromArray: coalescing *)

Section Coalescing.

Variable V : Type.
Variable veq : V -> V -> bool.

Lemma entry_eta (e : entry V) :
  mkEntry (mkInterval (a (interval e)) (b (interval e))) (value e) = e.
Proof. destruct e as [[x y] v]. reflexivity. Qed.

(** One turn of the loop is one step of the documented sweep. *)
Lemma mergeStep_cons cur before e :
  mergeStep veq (cur :: before) e =
  if merges veq cur e then extend cur e :: before
  else e :: cur :: before.
Proof.
  unfold mergeStep, merges, extend, cloneInterval. cbv zeta.
  destruct (veq (value cur) (value e) && (a (interval e) <=? b (interval cur))).
  - destruct (Z.gtb_spec (b (interval e)) (b (interval cur))) as [E|E].
    + rewrite Z.max_r by lia. reflexivity.
    + rewrite Z.max_l by lia. rewrite entry_eta. reflexivity.
  - rewrite entry_eta. reflexivity.
Qed.

Lemma fold_mergeStep rest cur before :
  rev (fold_left (mergeStep veq) rest (cur :: before)) =
  rev before ++ sweepFrom veq cur rest.
Proof.
  revert cur before. induction rest as [|e rest IH]; intros cur before.
  - reflexivity.
  - cbn [fold_left sweepFrom]. rewrite mergeStep_cons.
    destruct (merges veq cur e).
    + apply IH.
    + rewrite IH. simpl. rewrite <- app_assoc. reflexivity.
Qed.

(** The loop of the program computes the documented sweep. *)
Lemma coalesce_coalesceSpec arr : coalesce veq arr = coalesceSpec veq arr.
Proof.
  destruct arr as [|e rest]; [reflexivity|].
  unfold coalesce. cbn [fold_left coalesceSpec].
  unfold mergeStep at 2. unfold cloneInterval. rewrite entry_eta.
  apply (fold_mergeStep rest e []).
Qed.



Lemma extend_keyR s (c cur e : entry V) :
  keyR s c cur -> keyR s c (extend cur e).
Proof. unfold keyR, lexR, extend. simpl. destruct s; lia. Qed.

Lemma sweepFrom_Forall (P : entry V -> Prop) cur rest :
  (forall x e, P x -> P (extend x e)) ->
  Forall P (cur :: rest) -> Forall P (sweepFrom veq cur rest).
Proof.
  intros Hext. revert cur. induction rest as [|e rest IH]; intros cur HF.
  - exact HF.
  - inversion HF as [|? ? Hc HF']; subst. inversion HF'; subst.
    cbn [sweepFrom]. destruct (merges veq cur e).
    + apply IH. constructor; auto.
    + constructor; auto.
Qed.

Lemma sweepFrom_sorted s cur rest :
  StronglySorted (keyR s) (cur :: rest) ->
  StronglySorted (keyR s) (sweepFrom veq cur rest).
Proof.
  revert cur. induction rest as [|e rest IH]; intros cur Hs.
  - exact Hs.
  - inversion Hs as [|? ? Hs' Hf]; subst.
    inversion Hs' as [|? ? Hs'' Hf']; subst.
    inversion Hf as [|? ? Hce Hcr]; subst.
    cbn [sweepFrom]. destruct (merges veq cur e).
    + apply IH. constructor; [assumption|].
      rewrite Forall_forall in *. intros z Hz.
      specialize (Hcr z Hz). specialize (Hf' z Hz).
      unfold keyR, lexR, extend in *. simpl. destruct s; lia.
    + constructor; [apply IH; assumption|].
      apply sweepFrom_Forall; [intros; apply extend_keyR; assumption|].
      assumption.
Qed.

Lemma coalesce_sorted s arr :
  StronglySorted (keyR s) arr -> StronglySorted (keyR s) (coalesce veq arr).
Proof.
  rewrite coalesce_coalesceSpec. destruct arr; [trivial|].
  apply sweepFrom_sorted.
Qed.

Lemma sweepFrom_length cur rest :
  (1 <= List.length (sweepFrom veq cur rest) <= S (List.length rest))%nat.
Proof.
  revert cur. induction rest as [|e rest IH]; intros cur; simpl; [lia|].
  destruct (merges veq cur e).
  - specialize (IH (extend cur e)). lia.
  - specialize (IH e). simpl. lia.
Qed.

Lemma coalesce_length arr :
  (List.length (coalesce veq arr) <= List.length arr)%nat /\
  (arr <> [] -> coalesce veq arr <> []).
Proof.
  rewrite coalesce_coalesceSpec. destruct arr as [|e rest]; simpl.
  - split; [lia | congruence].
  - pose proof (sweepFrom_length e rest). split; [lia|].
    intros _ E. rewrite E in H. simpl in H. lia.
Qed.

End Coalescing.

(** ** fromArray: the midpoint build *)

Lemma toInt32_small x : - 2 ^ 31 <= x < 2 ^ 31 -> toInt32 x = x.
Proof. intros H. unfold toInt32. rewrite Z.mod_small; lia. Qed.

Lemma sar_half x : 0 <= x < 2 ^ 31 -> sar x 1 = x / 2.
Proof.
  intros H. unfold sar. rewrite toInt32_small by lia.
  change (1 mod 32) with 1. rewrite Z.shiftr_div_pow2 by lia. reflexivity.
Qed.

(** [log2_up (n + 1)] is the number of binary digits of [n]. *)
Lemma bits_half n : 1 <= n -> Z.log2_up (n + 1) = 1 + Z.log2_up (n / 2 + 1).
Proof.
  intros Hn. destruct (Z.eq_dec n 1) as [->|Hne]; [reflexivity|].
  assert (H2 : 1 <= n / 2) by (Z.div_mod_to_equations; lia).
  rewrite (Z.log2_up_eqn (n + 1)) by lia.
  rewrite (Z.log2_up_eqn (n / 2 + 1)) by lia.
  replace (Z.pred (n + 1)) with n by lia.
  replace (Z.pred (n / 2 + 1)) with (n / 2) by lia.
  destruct (Z.eq_dec (n mod 2) 0) as [E|E].
  - replace n with (2 * (n / 2)) at 1 by (Z.div_mod_to_equations; lia).
    rewrite Z.log2_double by lia. lia.
  - replace n with (2 * (n / 2) + 1) at 1 by (Z.div_mod_to_equations; lia).
    rewrite Z.log2_succ_double by lia. lia.
Qed.

Lemma bits_near x y :
  1 <= x -> x <= y <= x + 1 -> Z.log2_up x <= Z.log2_up y <= Z.log2_up x + 1.
Proof.
  intros Hx Hy. split; [apply Z.log2_up_le_mono; lia|].
  destruct (Z.eq_dec y x) as [->|Hne]; [lia|].
  replace y with (Z.succ x) by lia.
  destruct (Z.log2_up_succ_or x); lia.
Qed.

Section Building.

Variable V : Type.
Implicit Types t l r : tree V.

Lemma slice_split (arr : list (entry V)) (lo n1 n2 : nat) x :
  nth_error arr (lo + n1) = Some x ->
  slice arr lo (n1 + S n2) = slice arr lo n1 ++ x :: slice arr (S (lo + n1)) n2.
Proof.
  unfold slice. revert arr. induction lo as [|lo IHlo]; intros arr.
  - simpl. revert arr. induction n1 as [|n1 IHn]; intros arr H.
    + destruct arr; simpl in H; [discriminate|]. inversion H; subst. reflexivity.
    + destruct arr as [|y arr]; simpl in H; [discriminate|].
      simpl. f_equal. apply IHn. exact H.
  - intros H. destruct arr as [|y arr]; [discriminate|].
    simpl in H |- *. apply IHlo. exact H.
Qed.

Lemma slice_all (arr : list (entry V)) : slice arr 0 (List.length arr) = arr.
Proof. unfold slice. simpl. apply firstn_all. Qed.

(** [build(lo, hi)] on an index range of the array: it returns, the tree
    holds [arr[lo .. hi]] in order, its caches are right, it is balanced,
    and its height is that of a perfectly balanced tree. *)
Lemma build_spec depth (arr : list (entry V)) lo hi :
  0 <= lo -> lo <= hi + 1 -> hi < Z.of_nat (List.length arr) ->
  Z.of_nat (List.length arr) <= 2 ^ 30 ->
  hi - lo + 1 < Z.of_nat depth ->
  exists t,
    build depth arr lo hi = Ok t /\
    avl t /\
    entries t = slice arr (Z.to_nat lo) (Z.to_nat (hi - lo + 1)) /\
    height t = Z.log2_up (hi - lo + 2).
Proof.
  revert lo hi. induction depth as [|depth IH]; intros lo hi Hlo Hle Hhi Hfit Hd.
  - simpl in Hd. lia.
  - cbn [build].
    destruct (Z.gtb_spec lo hi) as [Hgt|Hgt].
    + exists null. replace (hi - lo + 1) with 0 by lia.
      replace (hi - lo + 2) with 1 by lia.
      repeat split.
    + rewrite sar_half by lia.
      set (mid := (lo + hi) / 2).
      assert (Hmid : lo <= mid <= hi) by (subst mid; Z.div_mod_to_equations; lia).
      unfold at_index. destruct (Z.ltb_spec mid 0) as [Hneg|_]; [lia|].
      destruct (nth_error arr (Z.to_nat mid)) as [pr|] eqn:Hnth;
        [|apply nth_error_None in Hnth; lia].
      destruct (IH lo (mid - 1)) as (l & Hbl & Hl & Hel & Hhl); try lia.
      destruct (IH (mid + 1) hi) as (r & Hbr & Hr & Her & Hhr); try lia.
      rewrite Hbl, Hbr. cbn [bind].
      eexists. split; [reflexivity|].
      assert (Hnr : hi - mid = (hi - lo + 1) / 2)
        by (subst mid; Z.div_mod_to_equations; lia).
      pose proof (@bits_half (hi - lo + 1) ltac:(lia)) as Hbits.
      pose proof (@bits_near (mid - 1 - lo + 2) (hi - (mid + 1) + 2) ltac:(lia)
                    ltac:(subst mid; Z.div_mod_to_equations; lia)) as Hnear.
      replace (hi - lo + 1 + 1) with (hi - lo + 2) in Hbits by lia.
      replace ((hi - lo + 1) / 2 + 1) with (hi - (mid + 1) + 2) in Hbits by lia.
      split; [|split].
      * cbn [avl height]. fold (height l) (height r).
        repeat split; auto; try (zbool; lia).
      * cbn [entries]. rewrite Hel, Her.
        replace (Z.to_nat (hi - lo + 1))
          with (Z.to_nat (mid - lo) + S (Z.to_nat (hi - mid)))%nat by lia.
        rewrite (@slice_split arr (Z.to_nat lo) (Z.to_nat (mid - lo))
                   (Z.to_nat (hi - mid)) pr).
        -- replace (Z.to_nat (mid - 1 - lo + 1)) with (Z.to_nat (mid - lo)) by lia.
           replace (S (Z.to_nat lo + Z.to_nat (mid - lo))) with (Z.to_nat (mid + 1))
             by lia.
           replace (Z.to_nat (hi - (mid + 1) + 1)) with (Z.to_nat (hi - mid)) by lia.
           destruct pr; reflexivity.
        -- replace (Z.to_nat lo + Z.to_nat (mid - lo))%nat with (Z.to_nat mid) by lia.
           exact Hnth.
      * cbn [height]. fold (height l) (height r). zbool; lia.
Qed.

End Building.

(** ** fromArray as a whole, and the invariants of every operation *)

Section Operations.

Variable V : Type.
Variable veq : V -> V -> bool.
Variable vlt : V -> V -> bool.
Implicit Types t l r : tree V.
Implicit Types m : IntervalMap V.

Lemma prepared_length ms (pairs : list (entry V)) :
  (List.length (prepared veq vlt ms pairs) <= List.length pairs)%nat /\
  (pairs <> [] -> prepared veq vlt ms pairs <> []).
Proof.
  unfold prepared. cbv zeta.
  assert (Hne : pairs <> [] -> sort (comparePairs vlt ms) pairs <> []).
  { intros Hp E. apply Hp. apply length_zero_iff_nil.
    rewrite <- (sort_length (comparePairs vlt ms)), E. reflexivity. }
  destruct ms.
  - destruct (coalesce_length veq (sort (comparePairs vlt true) pairs)) as [H1 H2].
    rewrite sort_length in H1. split; auto.
  - rewrite sort_length. split; auto.
Qed.

Lemma fromArray_unfold ms (pairs : list (entry V)) :
  pairs <> [] ->
  fromArray veq vlt (Some pairs) ms =
  bind (build (stackDepth (prepared veq vlt ms pairs)) (prepared veq vlt ms pairs)
          0 (Z.of_nat (List.length (prepared veq vlt ms pairs)) - 1))
       (fun n => Ok (mkMap n (Z.of_nat (List.length (prepared veq vlt ms pairs))))).
Proof. destruct pairs; [congruence|]. reflexivity. Qed.

(** [fromArray] on a non-empty array. *)
Lemma fromArray_spec ms (pairs : list (entry V)) :
  pairs <> [] -> arrayFits pairs ->
  exists t,
    fromArray veq vlt (Some pairs) ms =
      Ok (mkMap t (Z.of_nat (List.length (prepared veq vlt ms pairs)))) /\
    avl t /\
    entries t = prepared veq vlt ms pairs /\
    height t = Z.log2_up (Z.of_nat (List.length (prepared veq vlt ms pairs)) + 1).
Proof.
  intros Hne Hfit. rewrite fromArray_unfold by assumption.
  destruct (prepared_length ms pairs) as [Hlen Hne'].
  set (arr := prepared veq vlt ms pairs) in *.
  unfold arrayFits in Hfit.
  destruct (@build_spec V (stackDepth arr) arr 0 (Z.of_nat (List.length arr) - 1))
    as (t & Hb & Hav & Hen & Hh); try (unfold stackDepth; lia).
  exists t. rewrite Hb. cbn [bind]. split; [reflexivity|]. split; [assumption|].
  split.
  - rewrite Hen. simpl Z.to_nat.
    replace (Z.to_nat (Z.of_nat (List.length arr) - 1 - 0 + 1))
      with (List.length arr) by lia.
    apply slice_all.
  - rewrite Hh. f_equal. lia.
Qed.

Lemma sorted_keys s (xs : list (entry V)) :
  StronglySorted (keyR s) xs -> StronglySorted (lexR s) (map (@interval V) xs).
Proof.
  induction 1 as [|x xs Hs IH Hf]; simpl; constructor; [assumption|].
  rewrite Forall_map. exact Hf.
Qed.

Lemma sorted_strict (xs : list (entry V)) :
  StronglySorted (keyR false) xs -> NoDup (map (@interval V) xs) ->
  StronglySorted (keyR true) xs.
Proof.
  induction 1 as [|x xs Hs IH Hf]; simpl; intros Hnd; constructor.
  - apply IH. inversion Hnd; assumption.
  - inversion Hnd as [|? ? Hnin Hnd']; subst.
    rewrite Forall_forall in *. intros y Hy. specialize (Hf y Hy).
    unfold keyR in *. fold lexLe in Hf. apply lexLe_cases in Hf.
    destruct Hf as [Hf|Hf]; [exact Hf|].
    exfalso. apply Hnin. rewrite Hf. apply in_map. exact Hy.
Qed.

(** The prepared array ascends by key, strictly so when the input keys are
    pairwise distinct. *)
Lemma prepared_sorted ms (pairs : list (entry V)) :
  StronglySorted (keyR false) (prepared veq vlt ms pairs) /\
  (NoDup (map (@interval V) pairs) ->
   StronglySorted (keyR true) (prepared veq vlt ms pairs)).
Proof.
  assert (Hw : StronglySorted (keyR false) (sort (comparePairs vlt ms) pairs))
    by apply sort_keys_sorted.
  assert (Hs : NoDup (map (@interval V) pairs) ->
               StronglySorted (keyR true) (sort (comparePairs vlt ms) pairs)).
  { intros Hnd. apply sorted_strict; [assumption|].
    eapply Permutation_NoDup; [|exact Hnd].
    apply Permutation_map, sort_perm. }
  unfold prepared. cbv zeta. destruct ms; split; auto.
  - apply coalesce_sorted. assumption.
  - intros Hnd. apply coalesce_sorted. auto.
Qed.

Lemma invariants_intro s t sz :
  ordered (lexR s) t -> avl t -> sz = count t -> invariants s (mkMap t sz).
Proof.
  intros Ho Hav Hsz. apply avl_iff in Hav. destruct Hav.
  unfold invariants, sizeOk. simpl. auto.
Qed.

Lemma invariants_avl s m : invariants s m -> avl (root m).
Proof. intros (_ & Hb & Ha & _). apply avl_iff. auto. Qed.

Lemma invariants_weaken m : invariants true m -> invariants false m.
Proof.
  intros (Ho & Hb & Ha & Hs). repeat split; auto.
  apply ordered_weaken. exact Ho.
Qed.

Lemma fromArray_invariants ms (pairs : list (entry V)) :
  arrayFits pairs ->
  exists m, fromArray veq vlt (Some pairs) ms = Ok m /\
            invariants false m /\
            (NoDup (map (@interval V) pairs) -> invariants true m).
Proof.
  intros Hfit. destruct pairs as [|p pairs].
  - exists newMap. split; [reflexivity|].
    split; [|intros _]; repeat split; simpl; auto.
  - destruct (@fromArray_spec ms (p :: pairs) ltac:(discriminate) Hfit)
      as (t & Hf & Hav & Hen & Hh).
    eexists. split; [exact Hf|].
    destruct (prepared_sorted ms (p :: pairs)) as [Hw Hs].
    split; [|intros Hnd]; apply invariants_intro; auto.
    + apply ordered_sorted; [apply lexR_trans|].
      unfold keys. rewrite Hen. apply sorted_keys. exact Hw.
    + unfold count. rewrite Hen. reflexivity.
    + apply ordered_sorted; [apply lexR_trans|].
      unfold keys. rewrite Hen. apply sorted_keys. auto.
    + unfold count. rewrite Hen. reflexivity.
Qed.

Lemma set_invariants s m it val :
  invariants s m ->
  exists m', set m (VInterval it) val = Returns tt m' /\ invariants s m' /\
             size m' = (if present it (root m) then size m else size m + 1).
Proof.
  intros Hinv. pose proof (invariants_avl Hinv) as Hav.
  destruct Hinv as (Ho & _ & _ & Hsz).
  destruct (@ins_spec V it val (root m) (size m) Hav)
    as (t' & Hins & Hav' & _ & _ & _).
  unfold set. rewrite Hins.
  eexists. split; [reflexivity|]. split; [|reflexivity].
  apply invariants_intro; auto.
  - eapply ins_ordered; [exact Hav | exact Hins | exact Ho].
  - pose proof (ins_count _ _ _ _ Hav Hins) as Hc.
    unfold sizeOk in Hsz. lia.
Qed.

Lemma delete_invariants s m it :
  invariants s m ->
  exists m', delete m (VInterval it) = Returns (present it (root m)) m' /\
             invariants s m' /\
             size m' = (if present it (root m) then size m - 1 else size m).
Proof.
  intros Hinv. pose proof (invariants_avl Hinv) as Hav.
  destruct Hinv as (Ho & _ & _ & Hsz).
  destruct (@del_spec V it (root m) false Hav)
    as (t' & Hdel & Hav' & _ & _ & _).
  unfold delete. rewrite Hdel.
  replace (if present it (root m) then true else false) with (present it (root m))
    by (destruct (present it (root m)); reflexivity).
  eexists. split; [reflexivity|]. split; [|reflexivity].
  apply invariants_intro; auto.
  - eapply del_ordered; [apply lexR_trans | exact Hav | exact Hdel | exact Ho].
  - pose proof (del_count _ _ _ Hav Hdel) as Hc.
    unfold sizeOk in Hsz. destruct (present it (root m)); lia.
Qed.

Lemma cpy_id t : cpy t = t.
Proof.
  induction t as [|[x y] v m h l IHl r IHr]; simpl; [reflexivity|].
  rewrite IHl, IHr. reflexivity.
Qed.

Lemma clone_id m : clone m = m.
Proof. destruct m. unfold clone. simpl. rewrite cpy_id. reflexivity. Qed.

Lemma clear_invariants s m : invariants s (clear m).
Proof. repeat split; simpl; auto. Qed.

(** Every map a program can hold satisfies the invariants, with the order
    of invariant 1 read as "less or equal". *)
Lemma reachable_invariants m : reachable veq vlt m -> invariants false m.
Proof.
  induction 1 as [|pairs ms m Hfit Hf|m it val m' _ IH Hset
                  |m it removed m' _ IH Hdel|m _ _|m _ IH].
  - repeat split; simpl; auto.
  - destruct (fromArray_invariants ms Hfit) as (m2 & E & Hinv & _).
    congruence.
  - destruct it as [it| | | |]; try (inversion Hset; subst; assumption).
    destruct (set_invariants it val IH) as (m2 & E & Hinv & _). congruence.
  - destruct it as [it| | | |]; try (inversion Hdel; subst; assumption).
    destruct (delete_invariants it IH) as (m2 & E & Hinv & _). congruence.
  - apply clear_invariants.
  - rewrite clone_id. assumption.
Qed.

End Operations.

(** ** The documented properties *)

(** C10: [fromArray] called with a [null] / [undefined] pairs argument or
    with an empty array returns a fresh empty map (null root, size 0); it
    raises nothing, and the result is the same whatever [mergeSame] is. *)
Theorem fromArray_empty_input (V : Type) (veq vlt : V -> V -> bool)
    (mergeSame : bool) :
  fromArray veq vlt None mergeSame = Ok newMap /\
  fromArray veq vlt (Some []) mergeSame = Ok newMap /\
  root (@newMap V) = null /\ size (@newMap V) = 0.
Proof. repeat split. Qed.

(** C9: each of [set], [get], [delete], [hasOverlap] and [getOverlapping]
    throws its [Error] when the argument is not an [Interval], whatever the
    state of the map, and leaves root and size as they were; a key that is
    not stored (an interval that nothing overlaps) is answered by [null],
    [false] or the empty array, not by an exception. *)
Theorem guards_reject_and_missing_is_normal (V : Type) (m : IntervalMap V)
    (x : jsvalue) (Hx : instanceofInterval x = false) :
  (forall val, set m x val = Rejects "IntervalMap.set expects Interval" m) /\
  get m x = Rejects "IntervalMap.get expects Interval" m /\
  delete m x = Rejects "IntervalMap.delete expects Interval" m /\
  hasOverlap m x = Rejects "IntervalMap.hasOverlap expects Interval" m /\
  getOverlapping m x = Rejects "IntervalMap.getOverlapping expects Interval" m /\
  (forall s, invariants s m ->
     (forall it, ~ In it (keys (root m)) ->
        get m (VInterval it) = Returns None m /\
        delete m (VInterval it) = Returns false m) /\
     (forall q,
        (forall e, In e (entries (root m)) ->
                   overlaps (a q) (b q) (interval e) = false) ->
        hasOverlap m (VInterval q) = Returns false m /\
        getOverlapping m (VInterval q) = Returns [] m)).
Proof.
  destruct x as [it| | | |]; try discriminate;
    (repeat (split; [reflexivity || (intros; reflexivity)|]));
    intros s Hinv; pose proof (invariants_avl Hinv) as Hav;
    destruct Hinv as (Ho & _ & Ha & Hsz);
    apply augmented_maxCached in Ha;
    (split; [intros k Hk | intros q Hq]).
  all: try (split; [unfold get; rewrite getLoop_absent by assumption; reflexivity|];
            assert (Hp : present k (root m) = false)
              by (destruct (present k (root m)) eqn:E; [|reflexivity];
                  apply present_In in E; contradiction);
            destruct (@del_spec V k (root m) false Hav) as (t' & Hd & _ & _ & Hsame & _);
            unfold delete; rewrite Hd, Hp, (Hsame Hp); destruct m; reflexivity).
  all: unfold hasOverlap, getOverlapping;
    rewrite (@hasOverlapLoop_existsb V s (a q) (b q) (root m) Ho Ha),
      (@dfs_filter V s (a q) (b q) (root m) Ho Ha);
    rewrite existsb_none, filter_none by assumption; split; reflexivity.
Qed.

(** C2: on a tree that satisfies the order and subtree-maximum invariants,
    [hasOverlap(Q)] is true exactly when [getOverlapping(Q)] is non-empty,
    and exactly when some stored interval [a, b] has [a <= qb] and
    [qa <= b]. *)
Theorem hasOverlap_decides_existence (V : Type) (s : bool) (m : IntervalMap V)
    (q : Interval) :
  ordered (lexR s) (root m) -> maxCached (root m) ->
  exists found out,
    hasOverlap m (VInterval q) = Returns found m /\
    getOverlapping m (VInterval q) = Returns out m /\
    (found = true <-> out <> []) /\
    (found = true <->
     exists e, In e (entries (root m)) /\
               a (interval e) <= b q /\ a q <= b (interval e)).
Proof.
  intros Ho Hm. unfold hasOverlap, getOverlapping.
  eexists. eexists. split; [reflexivity|]. split; [reflexivity|].
  rewrite (@hasOverlapLoop_existsb V s (a q) (b q) (root m) Ho Hm),
    (@dfs_filter V s (a q) (b q) (root m) Ho Hm).
  split.
  - rewrite existsb_exists. split.
    + intros (e & He & Hov) E.
      assert (Hin : In e (filter (fun e => overlaps (a q) (b q) (interval e))
                            (entries (root m))))
        by (apply filter_In; auto).
      rewrite E in Hin. contradiction.
    + intros Hne.
      destruct (filter (fun e => overlaps (a q) (b q) (interval e))
                  (entries (root m))) as [|e es] eqn:E; [congruence|].
      assert (Hin : In e (e :: es)) by (left; reflexivity).
      rewrite <- E in Hin. apply filter_In in Hin. exists e. exact Hin.
  - rewrite existsb_exists. unfold overlaps.
    split; intros (e & He & Hov); exists e; (split; [assumption|]).
    + apply andb_true_iff in Hov. destruct Hov as [H1 H2].
      apply Z.leb_le in H1, H2. auto.
    + apply andb_true_iff. split; apply Z.leb_le; tauto.
Qed.

(** C4: on a tree that satisfies the invariants, [getOverlapping] returns
    exactly the stored entries whose interval [a, b] has [a <= qb] and
    [qa <= b], in their in-order sequence, ascending by [(a, b)]; the two
    pruning tests lose none of them. *)
Theorem getOverlapping_exact (V : Type) (s : bool) (m : IntervalMap V)
    (q : Interval) :
  ordered (lexR s) (root m) -> maxCached (root m) ->
  exists out,
    getOverlapping m (VInterval q) = Returns out m /\
    out = filter (fun e => overlaps (a q) (b q) (interval e))
            (entries (root m)) /\
    (forall e, In e out <->
               In e (entries (root m)) /\
               a (interval e) <= b q /\ a q <= b (interval e)) /\
    StronglySorted (lexR s) (map (@interval V) out).
Proof.
  intros Ho Hm. unfold getOverlapping.
  eexists. split; [reflexivity|].
  rewrite (@dfs_filter V s (a q) (b q) (root m) Ho Hm).
  split; [reflexivity|]. split.
  - intros e. rewrite filter_In. unfold overlaps.
    rewrite andb_true_iff, !Z.leb_le. tauto.
  - apply sorted_keys. apply sorted_filter.
    apply (@ordered_sorted V (lexR s) (root m) (@lexR_trans s)) in Ho.
    unfold keys in Ho. clear Hm.
    induction (entries (root m)) as [|e es IH]; [constructor|].
    simpl in Ho. inversion Ho as [|? ? Hs Hf]; subst.
    constructor; [auto|]. rewrite Forall_map in Hf. exact Hf.
Qed.

(** C3: the fast path of [getAt] on the map built by
    [set([5,6],"A"); set([0,10],"B")], which satisfies all four invariants:
    the point 8 lies in the stored interval [0,10], [getAt(8, true)] finds
    that entry, and [getAt(8)] answers [null]. *)
Theorem getAt_fast_path_misses_containing_interval :
  exists m1 m2 : IntervalMap string,
    set newMap (VInterval (mkInterval 5 6)) "A"%string = Returns tt m1 /\
    set m1 (VInterval (mkInterval 0 10)) "B"%string = Returns tt m2 /\
    invariants true m2 /\
    getAt m2 (Num 8) true = Every [mkEntry (mkInterval 0 10) "B"%string] /\
    getAt m2 (Num 8) false = Single None.
Proof.
  eexists. eexists. split; [reflexivity|]. split; [reflexivity|].
  split; [|split; reflexivity].
  unfold invariants, sizeOk, lexR. simpl. repeat split; auto; lia.
Qed.

Section MatchingNode.

Variable V : Type.
Implicit Types t l r : tree V.

Lemma compareTo_refl k : compareTo k k = 0.
Proof. apply compareTo_eq. reflexivity. Qed.

Lemma avl_rebalance_same i v m h l r :
  avl (Node i v m h l r) -> rebalance (Node i v m h l r) = Ok (Node i v m h l r).
Proof.
  simpl. intros (_ & _ & _ & _ & Hb).
  destruct (Z.gtb_spec (height l - height r) 1); [lia|].
  destruct (Z.ltb_spec (height l - height r) (-1)); [lia|]. reflexivity.
Qed.

(** What [del] does at the node that holds the key: with at most one
    child the child takes the node's place; with two children the node
    receives the first entry of its right subtree, and [delMin] removes
    that entry from the right subtree. *)
Lemma del_at_match k v m h l r rm :
  avl (Node k v m h l r) ->
  (l = null -> del k (Node k v m h l r) rm = Ok (r, true)) /\
  (r = null -> del k (Node k v m h l r) rm = Ok (l, true)) /\
  (l <> null -> r <> null ->
   exists si sv r' t',
     entries r = mkEntry si sv :: entries r' /\
     delMin r = Ok r' /\
     del k (Node k v m h l r) rm = Ok (t', true) /\
     entries t' = entries l ++ mkEntry si sv :: entries r').
Proof.
  intros Hav. pose proof Hav as Hav0.
  simpl in Hav. destruct Hav as (Hl & Hr & Hh & Hm & Hb).
  cbn [del]. rewrite compareTo_refl. cbn [Z.ltb Z.gtb Z.compare].
  split; [|split].
  - intros ->. destruct r as [|ri rv rm' rh rl rr]; [reflexivity|].
    destruct (avl_fixup_same Hr) as (n1 & Hu & Hre).
    rewrite Hu. cbn [bind]. rewrite Hre. reflexivity.
  - intros ->. destruct l as [|li lv lm lh ll lr]; [reflexivity|].
    destruct (avl_fixup_same Hl) as (n1 & Hu & Hre).
    rewrite Hu. cbn [bind]. rewrite Hre. reflexivity.
  - intros Hnl Hnr.
    destruct l as [|li lv lm lh ll lr]; [congruence|].
    destruct r as [|ri rv rm' rh rl rr]; [congruence|].
    destruct (@delMin_spec V (Node ri rv rm' rh rl rr) Hr Hnr)
      as (si & sv & sm & sh & sl & sr & r' & Hmin & Hdel & Hr' & Hhr & Hen).
    assert (Hd : -2 <= height (Node li lv lm lh ll lr) - height r' <= 2) by lia.
    destruct (@fixup_spec V si sv m h (Node li lv lm lh ll lr) r' Hl Hr' Hd)
      as (n1 & n' & Hu & Hre & Hn' & Hen' & _).
    exists si, sv, r', n'.
    split; [exact Hen|]. split; [exact Hdel|].
    rewrite Hmin, Hdel. cbn [bind]. rewrite Hu. cbn [bind]. rewrite Hre.
    split; [reflexivity | exact Hen'].
Qed.

Lemma overwrite_entries k val t :
  present k t = true ->
  exists pre old post,
    entries t = pre ++ mkEntry k old :: post /\
    entries (overwrite k val t) = pre ++ mkEntry k val :: post.
Proof.
  induction t as [|i v m h l IHl r IHr]; [discriminate|].
  cbn [present overwrite].
  destruct (Z.ltb_spec (compareTo k i) 0) as [Hc|Hc].
  - intros Hp. destruct (IHl Hp) as (pre & old & post & E1 & E2).
    exists pre, old, (post ++ mkEntry i v :: entries r).
    cbn [entries]. rewrite E1, E2, <- !app_assoc. auto.
  - destruct (Z.gtb_spec (compareTo k i) 0) as [Hc'|Hc'].
    + intros Hp. destruct (IHr Hp) as (pre & old & post & E1 & E2).
      exists (entries l ++ mkEntry i v :: pre), old, post.
      cbn [entries]. rewrite E1, E2, <- !app_assoc. auto.
    + intros _. assert (E : k = i) by (apply compareTo_eq; lia). subst i.
      exists (entries l), v, (entries r). auto.
Qed.

End MatchingNode.

(** C7: on a map that satisfies the invariants, [delete] of a key that is
    not stored returns [false] and leaves the map exactly as it was;
    [delete] of a stored key returns [true], takes exactly one entry with
    that key out of the in-order sequence and lowers [size] by one.  At the
    node holding the key, a node with at most one child is replaced by that
    child, and a node with two children receives the in-order successor's
    interval and value while [delMin] removes the successor's own slot. *)
Theorem delete_removes_exactly (V : Type) (s : bool) (m : IntervalMap V)
    (k : Interval) :
  invariants s m ->
  exists removed m',
    delete m (VInterval k) = Returns removed m' /\
    (~ In k (keys (root m)) -> removed = false /\ m' = m) /\
    (In k (keys (root m)) ->
     removed = true /\ size m' = size m - 1 /\
     exists pre e post,
       entries (root m) = pre ++ e :: post /\ interval e = k /\
       entries (root m') = pre ++ post) /\
    (forall (v : V) (mm h : Z) (l r : tree V) (rm : bool),
       avl (Node k v mm h l r) ->
       (l = null -> del k (Node k v mm h l r) rm = Ok (r, true)) /\
       (r = null -> del k (Node k v mm h l r) rm = Ok (l, true)) /\
       (l <> null -> r <> null ->
        exists (si : Interval) (sv : V) (r' t' : tree V),
          entries r = mkEntry si sv :: entries r' /\
          delMin r = Ok r' /\
          del k (Node k v mm h l r) rm = Ok (t', true) /\
          entries t' = entries l ++ mkEntry si sv :: entries r')).
Proof.
  intros Hinv. pose proof (invariants_avl Hinv) as Hav.
  destruct Hinv as (Ho & _ & _ & Hsz).
  destruct (@del_spec V k (root m) false Hav)
    as (t' & Hdel & Hav' & _ & Habs & Hpres).
  unfold delete. rewrite Hdel.
  eexists. eexists. split; [reflexivity|].
  split; [|split].
  - intros Hnin.
    assert (Hp : present k (root m) = false).
    { destruct (present k (root m)) eqn:E; [|reflexivity].
      apply present_In in E. contradiction. }
    rewrite Hp. split; [reflexivity|].
    rewrite (Habs Hp). destruct m; reflexivity.
  - intros Hin.
    pose proof (@In_present V s k (root m) Ho Hin) as Hp.
    rewrite Hp. split; [reflexivity|]. split; [reflexivity|].
    exact (Hpres Hp).
  - intros v mm h l r rm Hn. apply del_at_match. exact Hn.
Qed.

(** C8: for every map the program can hold, [get(k)] right after
    [set(k, v)] returns [v].  When [k] was stored already, [size] is
    unchanged and the tree is the old one with the value of the first node
    met on the descent overwritten: same shape, same keys, one value
    replaced.  When it was not, [size] grows by one.  The (a, then b)
    descent of [get] reaches the node that the [compareTo] descent of [set]
    wrote. *)
Theorem set_then_get (V : Type) (veq vlt : V -> V -> bool)
    (m : IntervalMap V) (k : Interval) (v : V) :
  reachable veq vlt m ->
  exists m',
    set m (VInterval k) v = Returns tt m' /\
    get m' (VInterval k) = Returns (Some v) m' /\
    (In k (keys (root m)) ->
     size m' = size m /\
     root m' = overwrite k v (root m) /\
     shape (root m') = shape (root m) /\
     exists pre old post,
       entries (root m) = pre ++ mkEntry k old :: post /\
       entries (root m') = pre ++ mkEntry k v :: post) /\
    (~ In k (keys (root m)) -> size m' = size m + 1).
Proof.
  intros Hreach. pose proof (reachable_invariants Hreach) as Hinv.
  pose proof (invariants_avl Hinv) as Hav.
  destruct Hinv as (Ho & _ & _ & Hsz).
  destruct (@ins_spec V k v (root m) (size m) Hav)
    as (t' & Hins & Hav' & _ & Hpres & Habs).
  pose proof (@ins_ordered V false k v (root m) (size m) _ _ Hav Hins Ho) as Ho'.
  unfold set. rewrite Hins.
  eexists. split; [reflexivity|].
  cbn [get root size].
  destruct (present k (root m)) eqn:Hp.
  - specialize (Hpres eq_refl). subst t'.
    split; [rewrite getLoop_overwrite by assumption; reflexivity|].
    split.
    + intros _. split; [reflexivity|]. split; [reflexivity|].
      split; [apply overwrite_shape | apply overwrite_entries; assumption].
    + intros Hnin. apply present_In in Hp. contradiction.
  - destruct (Habs eq_refl) as (pre & post & E1 & E2).
    assert (Hnin : ~ In k (keys (root m))).
    { intros Hin. rewrite (@In_present V false k (root m) Ho Hin) in Hp.
      discriminate. }
    split.
    + rewrite (@getLoop_found V false k v t' Ho'); [reflexivity| |].
      * rewrite E2. apply in_or_app. right. left. reflexivity.
      * intros e He Hk. rewrite E2 in He. apply in_app_or in He.
        destruct He as [He|[He|He]].
        -- exfalso. apply Hnin. unfold keys. rewrite E1, map_app.
           apply in_or_app. left. rewrite <- Hk. apply in_map. exact He.
        -- subst e. reflexivity.
        -- exfalso. apply Hnin. unfold keys. rewrite E1, map_app.
           apply in_or_app. right. rewrite <- Hk. apply in_map. exact He.
    + split; [intros Hin; contradiction | intros _; reflexivity].
Qed.



(** C6: for a non-empty array of [n <= 2^30] entries the midpoint build
    returns a tree that holds the array in order, whose height is
    [ceil(log2(n + 1))] (cached and real), whose height and subtree-maximum
    caches are right at every node, and which is balanced, so that
    [rebalance] leaves it alone; the map [fromArray] makes of it has
    [size = n]. *)
Theorem build_perfectly_balanced (V : Type) (arr : list (entry V)) :
  arr <> [] -> arrayFits arr ->
  exists t,
    build (stackDepth arr) arr 0 (Z.of_nat (List.length arr) - 1) = Ok t /\
    height t = Z.log2_up (Z.of_nat (List.length arr) + 1) /\
    realHeight t = Z.log2_up (Z.of_nat (List.length arr) + 1) /\
    augmented t /\ balanced t /\
    rebalance t = Ok t /\
    entries t = arr /\
    count t = Z.of_nat (List.length arr) /\
    (forall (veq vlt : V -> V -> bool) (mergeSame : bool) (pairs : list (entry V)),
       pairs <> [] -> prepared veq vlt mergeSame pairs = arr ->
       exists m, fromArray veq vlt (Some pairs) mergeSame = Ok m /\
                 root m = t /\ size m = Z.of_nat (List.length arr)).
Proof.
  intros Hne Hfit. unfold arrayFits in Hfit.
  destruct (@build_spec V (stackDepth arr) arr 0 (Z.of_nat (List.length arr) - 1))
    as (t & Hb & Hav & Hen & Hh); try (unfold stackDepth; lia).
  assert (Hen' : entries t = arr).
  { rewrite Hen. simpl Z.to_nat.
    replace (Z.to_nat (Z.of_nat (List.length arr) - 1 - 0 + 1))
      with (List.length arr) by lia.
    apply slice_all. }
  assert (Hh' : height t = Z.log2_up (Z.of_nat (List.length arr) + 1))
    by (rewrite Hh; f_equal; lia).
  exists t. split; [exact Hb|]. split; [exact Hh'|].
  split; [rewrite <- avl_realHeight by assumption; exact Hh'|].
  pose proof (proj1 (avl_iff t) Hav) as [Hbal Haug].
  split; [exact Haug|]. split; [exact Hbal|].
  split.
  - destruct t as [|i v m h l r].
    + simpl in Hen'. congruence.
    + apply avl_rebalance_same. exact Hav.
  - split; [exact Hen'|]. split; [unfold count; rewrite Hen'; reflexivity|].
    intros veq vlt ms pairs Hp Hprep.
    rewrite fromArray_unfold by assumption. rewrite Hprep, Hb. cbn [bind].
    eexists. split; [reflexivity|]. split; reflexivity.
Qed.




(** C1 (as the program has it): the constructor gives a map with the four
    invariants; [set], [delete], [clear] and [clone] on a map that has them
    return with a map that has them, and a rejected argument leaves them in
    place; [fromArray], on an array of at most 2^30 pairs, returns a map
    that is balanced, with exact caches and an exact size, and ordered with
    "less or equal" for "less" -- strictly ordered when the input intervals
    are pairwise distinct.  The same holds throughout with the order of
    invariant 1 read as "less or equal". *)
Theorem invariants_after_every_operation (V : Type) (veq vlt : V -> V -> bool)
    (s : bool) (m : IntervalMap V) :
  invariants s m ->
  invariants true (@newMap V) /\
  (forall x val,
     match set m x val with
     | Returns _ m' | Rejects _ m' => invariants s m'
     | Faults _ => False
     end) /\
  (forall x,
     match delete m x with
     | Returns _ m' | Rejects _ m' => invariants s m'
     | Faults _ => False
     end) /\
  invariants s (clear m) /\
  invariants s (clone m) /\
  (forall mergeSame,
     fromArray veq vlt None mergeSame = Ok newMap) /\
  (forall pairs mergeSame,
     arrayFits pairs ->
     exists m', fromArray veq vlt (Some pairs) mergeSame = Ok m' /\
                invariants false m' /\
                (NoDup (map (@interval V) pairs) -> invariants true m')).
Proof.
  intros Hinv.
  split; [repeat split; simpl; auto|].
  split.
  { intros x val. destruct x as [it| | | |]; try exact Hinv.
    destruct (set_invariants it val Hinv) as (m' & E & Hinv' & _).
    rewrite E. exact Hinv'. }
  split.
  { intros x. destruct x as [it| | | |]; try exact Hinv.
    destruct (delete_invariants it Hinv) as (m' & E & Hinv' & _).
    rewrite E. exact Hinv'. }
  split; [apply clear_invariants|].
  split; [rewrite clone_id; exact Hinv|].
  split; [reflexivity|].
  intros pairs ms Hfit. apply fromArray_invariants. exact Hfit.
Qed.

(** C1 as worded fails for [fromArray]: two pairs with the same interval
    are both kept, and the tree built from them is not strictly ordered. *)
Lemma fromArray_keeps_duplicate_keys :
  exists m : IntervalMap string,
    fromArray String.eqb String.ltb
      (Some [mkEntry (mkInterval 0 1) "A"%string;
             mkEntry (mkInterval 0 1) "B"%string]) false = Ok m /\
    ~ bstOrder (root m) /\ ~ invariants true m.
Proof.
  eexists. split; [reflexivity|].
  assert (H : ~ bstOrder (root (mkMap
                (Node (mkInterval 0 1) "A"%string 1 2 null
                   (Node (mkInterval 0 1) "B"%string 1 1 null null)) 2))).
  { unfold bstOrder, lexLt, lexR. simpl. intros (_ & (H & _) & _). lia. }
  split; [exact H|]. intros (Ho & _). apply H. exact Ho.
Qed.

(** ** The test suite, run on the embedding *)

Module Suite.

Import Scenarios.
Local Open Scope string_scope.
Local Open Scope list_scope.
Local Open Scope Z_scope.

(** inserts and gets exact interval values; replaces on duplicate *)
Example suite_set_get :
  get m1 (I 1 5) = Returns (Some "A") m1 /\
  (let m := after (set m1 (I 1 5) "A2") in
   get m (I 1 5) = Returns (Some "A2") m /\
   get m (I 1 4) = Returns None m /\ size m = 1).
Proof. repeat split. Qed.

(** hasOverlap respects closed intervals (touching counts) *)
Example suite_hasOverlap :
  let m := setAll [(10, 20, "X")] in
  hasOverlap m (I 15 18) = Returns true m /\
  hasOverlap m (I 5 10) = Returns true m /\
  hasOverlap m (I 20 25) = Returns true m /\
  hasOverlap m (I 21 25) = Returns false m.
Proof. repeat split. Qed.

(** getOverlapping returns all overlaps, sorted by (start, end) *)
Example suite_getOverlapping :
  let m := setAll [(0, 3, "A"); (3, 5, "B"); (6, 10, "C")] in
  values (getOverlapping m (I 3 3)) = ["A"; "B"] /\
  values (getOverlapping m (I 1 7)) = ["A"; "B"; "C"] /\
  getOverlapping m (I 11 12) = Returns [] m.
Proof. repeat split. Qed.

(** getAt fast path, and getAt with getAll *)
Example suite_getAt :
  let m := setAll [(0, 10, "A"); (20, 30, "B")] in
  getAt m (Num 5) false = Single (Some "A") /\
  getAt m (Num 25) false = Single (Some "B") /\
  getAt m (Num (-1)) false = Single None /\
  (let m' := after (set m (I 5 15) "C") in
   getAt m' (Num 7) false = Single (Some "C") /\
   getAt m' (Num 7) true = Every [E 0 10 "A"; E 5 15 "C"]).
Proof. repeat split. Qed.

(** delete handles leaf, one-child and two-children cases *)
Example suite_delete :
  delete m5 (I 0 1) = Returns false m5 /\
  exists ma mb mc,
    delete m5 (I 2 3) = Returns true ma /\
    get ma (I 2 3) = Returns None ma /\
    delete ma (I 5 8) = Returns true mb /\
    get mb (I 5 8) = Returns None mb /\
    delete mb (I 10 20) = Returns true mc /\
    get mc (I 10 20) = Returns None mc /\
    hasOverlap mc (I 25 26) = Returns true mc /\
    hasOverlap mc (I 40 50) = Returns false mc /\
    size mc = 2.
Proof.
  split; [reflexivity|].
  eexists. eexists. eexists.
  split; [reflexivity|]. split; [reflexivity|]. split; [reflexivity|].
  split; [reflexivity|]. split; [reflexivity|]. repeat split.
Qed.

(** toArray and forEach produce sorted-by-(start, end) results *)
Example suite_toArray :
  toArray 5 (setAll [(10, 20, "A"); (0, 5, "B"); (7, 9, "C"); (7, 8, "D")]) =
  Some (Ok [E 0 5 "B"; E 7 8 "D"; E 7 9 "C"; E 10 20 "A"]).
Proof. reflexivity. Qed.

(** clear resets size and empties queries *)
Example suite_clear :
  let m := setAll [(1, 2, "x"); (3, 4, "y")] in
  getSize m = 2 /\ isEmpty m = false /\
  getSize (clear m) = 0 /\ isEmpty (clear m) = true /\
  getOverlapping (clear m) (I 0 10) = Returns [] (clear m).
Proof. repeat split. Qed.

(** fromArray(mergeSame = false) keeps the exact intervals *)
Example suite_fromArray_plain :
  exists m,
    fromArray String.eqb String.ltb (Some abc) false = Ok m /\
    getSize m = 3 /\
    values (getOverlapping m (I 4 4)) = ["A"; "B"] /\
    get m (I 0 5) = Returns (Some "A") m /\
    get m (I 3 6) = Returns (Some "B") m.
Proof. eexists. split; [reflexivity|]. repeat split. Qed.

(** fromArray(mergeSame = true) coalesces equal-value touching or
    overlapping intervals: X -> [0,5], Z stays [4,6], Y -> [6,9] *)
Example suite_fromArray_merge :
  exists m,
    fromArray Z.eqb Z.ltb (Some xy) true = Ok m /\
    toArray 4 m = Some (Ok [mkEntry (mkInterval 0 5) 1;
                            mkEntry (mkInterval 4 6) 3;
                            mkEntry (mkInterval 6 9) 2]).
Proof. eexists. split; reflexivity. Qed.

End Suite.

(** ** The properties at work on the maps of the test suite *)

Module Instances.

Import Scenarios.
Local Open Scope string_scope.
Local Open Scope list_scope.
Local Open Scope Z_scope.

Lemma m5_invariants : invariants true m5.
Proof.
  unfold invariants, sizeOk, lexR. simpl. repeat split; auto; lia.
Qed.

Lemma guards_reject_instance :
  instanceofInterval (VPlain 1 5) = false /\
  get m5 (VPlain 1 5) = Rejects "IntervalMap.get expects Interval" m5 /\
  delete m5 (I 0 1) = Returns false m5.
Proof.
  split; [reflexivity|].
  destruct (@guards_reject_and_missing_is_normal string m5 (VPlain 1 5) eq_refl)
    as (_ & Hget & _ & _ & _ & Hmiss).
  split; [exact Hget|].
  destruct (Hmiss true m5_invariants) as [Hkey _].
  apply (Hkey (mkInterval 0 1)).
  simpl. intros H. repeat (destruct H as [H|H]; [discriminate|]). exact H.
Defined.

Lemma hasOverlap_decides_existence_instance :
  ordered (lexR true) (root m5) /\ maxCached (root m5) /\
  exists found out,
    hasOverlap m5 (I 25 26) = Returns found m5 /\
    getOverlapping m5 (I 25 26) = Returns out m5 /\
    (found = true <-> out <> []).
Proof.
  assert (Ho : ordered (lexR true) (root m5)) by apply m5_invariants.
  assert (Hm : maxCached (root m5))
    by (apply augmented_maxCached; apply m5_invariants).
  split; [exact Ho|]. split; [exact Hm|].
  destruct (@hasOverlap_decides_existence string true m5 (mkInterval 25 26) Ho Hm)
    as (found & out & H1 & H2 & H3 & _).
  exists found, out. auto.
Defined.

Lemma getOverlapping_exact_instance :
  ordered (lexR true) (root m5) /\ maxCached (root m5) /\
  exists out,
    getOverlapping m5 (I 1 12) = Returns out m5 /\
    StronglySorted (lexR true) (map (@interval string) out).
Proof.
  assert (Ho : ordered (lexR true) (root m5)) by apply m5_invariants.
  assert (Hm : maxCached (root m5))
    by (apply augmented_maxCached; apply m5_invariants).
  split; [exact Ho|]. split; [exact Hm|].
  destruct (@getOverlapping_exact string true m5 (mkInterval 1 12) Ho Hm)
    as (out & H1 & _ & _ & H4).
  exists out. auto.
Defined.

Lemma delete_removes_exactly_instance :
  invariants true m5 /\
  exists removed m',
    delete m5 (I 2 3) = Returns removed m' /\
    (In (mkInterval 2 3) (keys (root m5)) ->
     removed = true /\ size m' = size m5 - 1 /\
     exists pre e post,
       entries (root m5) = pre ++ e :: post /\ interval e = mkInterval 2 3 /\
       entries (root m') = pre ++ post).
Proof.
  split; [exact m5_invariants|].
  destruct (@delete_removes_exactly string true m5 (mkInterval 2 3) m5_invariants)
    as (removed & m' & H1 & _ & H3 & _).
  exists removed, m'. auto.
Defined.

Lemma set_then_get_instance :
  reachable String.eqb String.ltb m1 /\
  exists m',
    set m1 (I 1 5) "A2" = Returns tt m' /\
    get m' (I 1 5) = Returns (Some "A2") m' /\
    (In (mkInterval 1 5) (keys (root m1)) -> size m' = size m1).
Proof.
  assert (Hr : reachable String.eqb String.ltb m1).
  { apply reach_set with (m := newMap) (it := I 1 5) (val := "A");
      [apply reach_new | reflexivity]. }
  split; [exact Hr|].
  destruct (@set_then_get string String.eqb String.ltb m1 (mkInterval 1 5) "A2" Hr)
    as (m' & H1 & H2 & H3 & _).
  exists m'. split; [exact H1|]. split; [exact H2|].
  intros Hin. apply (H3 Hin).
Defined.

Lemma build_perfectly_balanced_instance :
  abc <> [] /\ arrayFits abc /\
  exists t,
    build (stackDepth abc) abc 0 (Z.of_nat (List.length abc) - 1) = Ok t /\
    height t = Z.log2_up (Z.of_nat (List.length abc) + 1) /\
    count t = Z.of_nat (List.length abc).
Proof.
  assert (Hne : abc <> []) by discriminate.
  assert (Hfit : arrayFits abc) by (unfold arrayFits; simpl; lia).
  split; [exact Hne|]. split; [exact Hfit|].
  destruct (@build_perfectly_balanced string abc Hne Hfit)
    as (t & H1 & H2 & _ & _ & _ & _ & _ & H8 & _).
  exists t. auto.
Defined.



Lemma invariants_after_every_operation_instance :
  invariants true m5 /\
  invariants true (clone m5) /\
  (forall x val,
     match set m5 x val with
     | Returns _ m' | Rejects _ m' => invariants true m'
     | Faults _ => False
     end).
Proof.
  split; [exact m5_invariants|].
  destruct (@invariants_after_every_operation string String.eqb String.ltb
              true m5 m5_invariants)
    as (_ & Hset & _ & _ & Hclone & _).
  split; [exact Hclone | exact Hset].
Defined.

End Instances.

(** ** Further properties of the operations *)

(** *** Exact lookup *)

Section LookupFacts.

Variable V : Type.
Implicit Types t l r : tree V.

Lemma sorted_strict_NoDup (xs : list Interval) :
  StronglySorted lexLt xs -> NoDup xs.
Proof.
  induction 1 as [|x xs Hs IH Hf]; constructor; [|assumption].
  intros Hin. rewrite Forall_forall in Hf.
  apply (lexLt_irrefl (Hf x Hin)).
Qed.

Lemma NoDup_keys_unique (xs : list (entry V)) e1 e2 :
  NoDup (map (@interval V) xs) -> In e1 xs -> In e2 xs ->
  interval e1 = interval e2 -> e1 = e2.
Proof.
  induction xs as [|x xs IH]; [contradiction|].
  simpl. intros Hnd [H1|H1] [H2|H2] Hk; inversion Hnd as [|? ? Hnin Hnd']; subst.
  - reflexivity.
  - exfalso. apply Hnin. rewrite Hk. apply in_map. exact H2.
  - exfalso. apply Hnin. rewrite <- Hk. apply in_map. exact H1.
  - apply IH; assumption.
Qed.

Lemma ordered_NoDup t : ordered lexLt t -> NoDup (keys t).
Proof.
  intros Ho. apply sorted_strict_NoDup.
  apply (@ordered_sorted V lexLt t (@lexR_trans true)). exact Ho.
Qed.

(** Whatever [get] answers is stored under the key asked for. *)
Lemma getLoop_In k v t :
  getLoop (a k) (b k) t = Some v -> In (mkEntry k v) (entries t).
Proof.
  induction t as [|i w m h l IHl r IHr]; [discriminate|].
  rewrite getLoop_node. cbn [entries]. intros H. apply in_or_app.
  destruct (Z.ltb_spec (compareTo k i) 0); [left; auto|].
  destruct (Z.gtb_spec (compareTo k i) 0); [right; right; auto|].
  right. left. inversion H; subst.
  assert (E : k = i) by (apply compareTo_eq; lia). subst. reflexivity.
Qed.

(** On a strictly ordered tree [get] is the lookup in the in-order
    sequence. *)
Lemma getLoop_iff k v t :
  ordered lexLt t ->
  (getLoop (a k) (b k) t = Some v <-> In (mkEntry k v) (entries t)).
Proof.
  intros Ho. split; [apply getLoop_In|].
  intros Hin. apply (@getLoop_found V true k v t Ho Hin).
  intros e He Hk.
  assert (E : e = mkEntry k v).
  { apply (@NoDup_keys_unique (entries t)); auto. apply ordered_NoDup. exact Ho. }
  subst e. reflexivity.
Qed.

(** Two strictly ordered trees that store the same values under [k] give
    [get(k)] the same answer. *)
Lemma getLoop_ext k t1 t2 :
  ordered lexLt t1 -> ordered lexLt t2 ->
  (forall v, In (mkEntry k v) (entries t1) <-> In (mkEntry k v) (entries t2)) ->
  getLoop (a k) (b k) t1 = getLoop (a k) (b k) t2.
Proof.
  intros H1 H2 Hsame.
  destruct (getLoop (a k) (b k) t1) as [v|] eqn:E1.
  - symmetry. apply getLoop_iff; [assumption|]. apply Hsame.
    apply getLoop_iff; assumption.
  - destruct (getLoop (a k) (b k) t2) as [v|] eqn:E2; [|reflexivity].
    apply getLoop_iff in E2; [|assumption]. apply Hsame in E2.
    apply getLoop_iff in E2; [|assumption]. congruence.
Qed.

Lemma In_middle_other (A : Type) (pre post : list A) (x y : A) :
  y <> x -> (In y (pre ++ x :: post) <-> In y (pre ++ post)).
Proof.
  intros Hne. rewrite !in_app_iff. simpl. split.
  - intros [H|[H|H]]; auto. congruence.
  - intros [H|H]; auto.
Qed.

(** A key that occurs once splits a list in one way only. *)
Lemma split_unique (xs ys xs' ys' : list (entry V)) x y k :
  xs ++ x :: ys = xs' ++ y :: ys' ->
  interval x = k -> interval y = k ->
  ~ In k (map (@interval V) (xs ++ ys)) ->
  xs = xs' /\ ys = ys' /\ x = y.
Proof.
  revert xs'. induction xs as [|z xs IH]; intros xs' E Hx Hy Hnin.
  - destruct xs' as [|z' xs']; simpl in E; injection E as E1 E2.
    + subst. auto.
    + exfalso. apply Hnin. simpl. rewrite E2, <- Hy. apply in_map.
      apply in_or_app. right. left. reflexivity.
  - destruct xs' as [|z' xs']; simpl in E; injection E as E1 E2.
    + exfalso. apply Hnin. left. rewrite E1. exact Hy.
    + destruct (IH xs' E2 Hx Hy) as (F1 & F2 & F3).
      * intros Hin. apply Hnin. right. exact Hin.
      * subst. auto.
Qed.

End LookupFacts.

(** X1: on a map whose tree is strictly ordered, [get(k)] returns the
    value stored under [k], and [null] exactly when [k] is not stored. *)
Theorem get_is_lookup (V : Type) (m : IntervalMap V) (k : Interval) :
  bstOrder (root m) ->
  exists res,
    get m (VInterval k) = Returns res m /\
    (forall v, res = Some v <-> In (mkEntry k v) (entries (root m))) /\
    (res = None <-> ~ In k (keys (root m))).
Proof.
  intros Ho. unfold get. eexists. split; [reflexivity|]. split.
  - intros v. apply getLoop_iff. exact Ho.
  - split.
    + intros Hnone Hin. unfold keys in Hin. apply in_map_iff in Hin.
      destruct Hin as (e & Hk & He).
      assert (Hget : getLoop (a k) (b k) (root m) = Some (value e)).
      { apply getLoop_iff; [exact Ho|]. destruct e as [i v]. simpl in *.
        subst i. exact He. }
      congruence.
    + apply getLoop_absent.
Qed.

(** X2: [set(k, v)] on a map with the invariants changes no other key:
    [get(k')] for [k' <> k] answers after the call what it answered
    before. *)
Theorem set_leaves_other_keys (V : Type) (m : IntervalMap V)
    (k k' : Interval) (v : V) :
  invariants true m -> k' <> k ->
  exists m' res,
    set m (VInterval k) v = Returns tt m' /\
    get m (VInterval k') = Returns res m /\
    get m' (VInterval k') = Returns res m'.
Proof.
  intros Hinv Hne. pose proof (invariants_avl Hinv) as Hav.
  destruct Hinv as (Ho & _).
  destruct (@ins_spec V k v (root m) (size m) Hav)
    as (t' & Hins & _ & _ & Hpres & Habs).
  pose proof (@ins_ordered V true k v (root m) (size m) _ _ Hav Hins Ho) as Ho'.
  unfold set, get. rewrite Hins.
  eexists. eexists. split; [reflexivity|]. split; [reflexivity|].
  cbn [root]. f_equal. symmetry.
  apply getLoop_ext; [exact Ho | exact Ho' |].
  intros w.
  assert (Hd : forall u, mkEntry k' w <> mkEntry k u)
    by (intros u E; inversion E; contradiction).
  destruct (present k (root m)) eqn:Hp.
  - rewrite (Hpres eq_refl).
    destruct (@overwrite_entries V k v (root m) Hp) as (pre & old & post & E1 & E2).
    rewrite E1, E2, !In_middle_other by apply Hd. reflexivity.
  - destruct (Habs eq_refl) as (pre & post & E1 & E2).
    rewrite E1, E2, In_middle_other by apply Hd. reflexivity.
Qed.

(** X3: on a map with the invariants, after [delete(k)] the key is gone:
    [get(k)] returns [null], a second [delete(k)] returns [false] and
    changes nothing, and every other key keeps its value. *)
Theorem delete_then_get (V : Type) (m : IntervalMap V) (k : Interval) :
  invariants true m ->
  exists removed m',
    delete m (VInterval k) = Returns removed m' /\
    get m' (VInterval k) = Returns None m' /\
    delete m' (VInterval k) = Returns false m' /\
    ~ In k (keys (root m')) /\
    (forall k', k' <> k ->
       exists res, get m (VInterval k') = Returns res m /\
                   get m' (VInterval k') = Returns res m').
Proof.
  intros Hinv. pose proof (invariants_avl Hinv) as Hav.
  destruct Hinv as (Ho & _).
  destruct (@del_spec V k (root m) false Hav)
    as (t' & Hdel & Hav' & _ & Habs & Hpres).
  pose proof (@del_ordered V lexLt k (root m) false _ _ (@lexR_trans true)
                Hav Hdel Ho) as Ho'.
  unfold delete at 1. unfold get. rewrite Hdel.
  eexists. eexists. split; [reflexivity|]. cbn [root].
  assert (Hgone : ~ In k (keys t')).
  { destruct (present k (root m)) eqn:Hp.
    - destruct (Hpres eq_refl) as (pre & e & post & E1 & Ek & E2).
      pose proof (ordered_NoDup _ Ho) as Hnd. unfold keys in *.
      rewrite E1, map_app in Hnd. simpl in Hnd. rewrite Ek in Hnd.
      apply NoDup_remove_2 in Hnd. rewrite E2, map_app. exact Hnd.
    - rewrite (Habs eq_refl). intros Hin.
      rewrite (@In_present V true k (root m) Ho Hin) in Hp. discriminate. }
  split; [rewrite getLoop_absent by exact Hgone; reflexivity|].
  split.
  { assert (Hp' : present k t' = false).
    { destruct (present k t') eqn:E; [|reflexivity].
      apply present_In in E. contradiction. }
    destruct (@del_spec V k t' false Hav') as (t2 & Hd2 & _ & _ & Hsame & _).
    unfold delete. cbn [root size]. rewrite Hd2, Hp', (Hsame Hp'). reflexivity. }
  split; [exact Hgone|].
  intros k' Hne. eexists. split; [reflexivity|]. f_equal. symmetry.
  apply getLoop_ext; [exact Ho | exact Ho' |].
  intros w. destruct (present k (root m)) eqn:Hp.
  - destruct (Hpres eq_refl) as (pre & e & post & E1 & Ek & E2).
    rewrite E1, E2. apply In_middle_other.
    intros E. subst e. simpl in Ek. contradiction.
  - rewrite (Habs eq_refl). reflexivity.
Qed.

(** X4: on a map with the invariants, [set(k, v)] of a key that is not
    stored, followed by [delete(k)], gives back the stored entries and the
    size; [delete] answers [true]. *)
Theorem set_then_delete_restores (V : Type) (s : bool) (m : IntervalMap V)
    (k : Interval) (v : V) :
  invariants s m -> ~ In k (keys (root m)) ->
  exists m1 m2,
    set m (VInterval k) v = Returns tt m1 /\
    delete m1 (VInterval k) = Returns true m2 /\
    entries (root m2) = entries (root m) /\
    size m2 = size m /\
    invariants s m2.
Proof.
  intros Hinv Hnin. pose proof (invariants_avl Hinv) as Hav.
  assert (Hp : present k (root m) = false).
  { destruct (present k (root m)) eqn:E; [|reflexivity].
    apply present_In in E. contradiction. }
  destruct (set_invariants k v Hinv) as (m1 & Hset & Hinv1 & Hsz1).
  destruct (@ins_spec V k v (root m) (size m) Hav)
    as (t1 & Hins & _ & _ & _ & Habs).
  assert (Hroot1 : root m1 = t1).
  { unfold set in Hset. rewrite Hins in Hset. inversion Hset. reflexivity. }
  destruct (Habs Hp) as (pre & post & E1 & E2).
  pose proof (invariants_avl Hinv1) as Hav1.
  assert (Hin1 : In k (keys (root m1))).
  { rewrite Hroot1. unfold keys. rewrite E2, map_app.
    apply in_or_app. right. left. reflexivity. }
  assert (Hp1 : present k (root m1) = true).
  { destruct Hinv1 as (Ho1 & _). apply (@In_present V s k (root m1) Ho1 Hin1). }
  destruct (delete_invariants k Hinv1) as (m2 & Hdel & Hinv2 & Hsz2).
  destruct (@del_spec V k (root m1) false Hav1)
    as (t2 & Hd & _ & _ & _ & Hpres).
  assert (Hroot2 : root m2 = t2).
  { unfold delete in Hdel. rewrite Hd in Hdel. inversion Hdel. reflexivity. }
  destruct (Hpres Hp1) as (pre' & e & post' & F1 & Fk & F2).
  exists m1, m2. rewrite Hp1 in Hdel.
  split; [exact Hset|]. split; [exact Hdel|].
  split.
  - rewrite Hroot2, F2, E1.
    rewrite Hroot1, E2 in F1.
    destruct (@split_unique V pre post pre' post' (mkEntry k v) e k F1
                eq_refl Fk) as (G1 & G2 & _).
    + unfold keys in Hnin. rewrite E1 in Hnin. exact Hnin.
    + subst. reflexivity.
  - split; [|exact Hinv2].
    rewrite Hsz2, Hp1, Hsz1, Hp. lia.
Qed.

(** *** Point queries and traversal *)

Section PointFacts.

Variable V : Type.
Implicit Types t l r : tree V.

Lemma leftReachesAt_Num l x : leftReachesAt l (Num x) = leftReaches l x.
Proof. destruct l; reflexivity. Qed.

Lemma dfsAt_eq x ni v m h l r (out : list (entry V)) :
  dfsAt (Num x) (Node ni v m h l r) out =
  let out1 := if leftReaches l x then dfsAt (Num x) l out else out in
  let out2 := if contains x ni then out1 ++ [mkEntry ni v] else out1 in
  if a ni <=? x then dfsAt (Num x) r out2 else out2.
Proof.
  unfold contains. cbn [dfsAt leqNum leNum]. rewrite leftReachesAt_Num.
  destruct r; simpl; destruct (a ni <=? x); reflexivity.
Qed.

(** The traversal of [getAt(x, true)] is that of [getOverlapping] for the
    query [[x, x]]. *)
Lemma dfsAt_dfs x t (out : list (entry V)) :
  dfsAt (Num x) t out = dfs x x t out.
Proof.
  revert out. induction t as [|i v m h l IHl r IHr]; intros out; [reflexivity|].
  rewrite dfsAt_eq, dfs_eq. cbv zeta.
  unfold contains, overlaps. rewrite !IHl, !IHr. reflexivity.
Qed.

(** With [NaN] no test of the traversal succeeds: nothing is visited below
    the root and nothing is pushed. *)
Lemma dfsAt_NaN t (out : list (entry V)) : dfsAt NaN t out = out.
Proof.
  destruct t as [|i v m h l r]; [reflexivity|].
  cbn [dfsAt leqNum leNum andb].
  destruct l, r; reflexivity.
Qed.

(** With [NaN] neither test of the descent succeeds: the loop stops at the
    root. *)
Lemma getAtLoop_NaN t :
  getAtLoop NaN t =
  match t with null => None | Node _ v _ _ _ _ => Some v end.
Proof. destruct t; reflexivity. Qed.

Lemma entries_nil t : entries t = [] -> t = null.
Proof.
  destruct t as [|i v m h l r]; [reflexivity|].
  simpl. intros E. destruct (entries l); discriminate.
Qed.

End PointFacts.

(** X5: on a map with the order and subtree-maximum invariants,
    [getAt(x, true)] returns exactly the stored entries whose interval
    contains [x], in their in-order sequence; it is what
    [getOverlapping([x, x])] returns. *)
Theorem getAt_all_exact (V : Type) (s : bool) (m : IntervalMap V) (x : Z) :
  ordered (lexR s) (root m) -> maxCached (root m) ->
  exists out,
    getAt m (Num x) true = Every out /\
    out = filter (fun e => contains x (interval e)) (entries (root m)) /\
    (forall e, In e out <->
               In e (entries (root m)) /\
               a (interval e) <= x <= b (interval e)) /\
    StronglySorted (lexR s) (map (@interval V) out) /\
    getOverlapping m (VInterval (mkInterval x x)) = Returns out m.
Proof.
  intros Ho Hm. unfold getAt, getOverlapping. cbn [a b].
  rewrite dfsAt_dfs, (@dfs_filter V s x x (root m) Ho Hm).
  eexists. split; [reflexivity|]. split; [reflexivity|].
  split; [|split; [|reflexivity]].
  - intros e. rewrite filter_In. unfold overlaps.
    rewrite andb_true_iff, !Z.leb_le. tauto.
  - apply sorted_keys. apply sorted_filter.
    apply (@ordered_sorted V (lexR s) (root m) (@lexR_trans s)) in Ho.
    unfold keys in Ho.
    induction (entries (root m)) as [|e es IH]; [constructor|].
    simpl in Ho. inversion Ho as [|? ? Hs Hf]; subst.
    constructor; [auto|]. rewrite Forall_map in Hf. exact Hf.
Qed.

(** X6: for a number [x] other than [NaN], whatever the shape of the
    tree, a value that the fast path [getAt(x)] returns is the value of a
    stored interval that contains [x]; on a map with the order and
    subtree-maximum invariants that entry is among those [getAt(x, true)]
    returns.  For [NaN] (or a missing argument) no comparison of the descent
    succeeds: the fast path returns the value at the root, [null] on an
    empty map, although [getAt(NaN, true)] returns the empty array. *)
Theorem getAt_fast_path_sound (V : Type) (s : bool) (m : IntervalMap V) :
  (forall (x : Z) (v : V),
     getAt m (Num x) false = Single (Some v) ->
     exists e,
       In e (entries (root m)) /\ value e = v /\
       a (interval e) <= x <= b (interval e) /\
       (ordered (lexR s) (root m) -> maxCached (root m) ->
        exists out, getAt m (Num x) true = Every out /\ In e out)) /\
  getAt m NaN false =
    Single (match root m with null => None | Node _ v _ _ _ _ => Some v end) /\
  getAt m NaN true = Every [].
Proof.
  unfold getAt. split; [|split].
  - intros x v H. inversion H as [Hloop].
    destruct (getAtLoop_sound _ _ Hloop) as (e & He & Hv & Hc).
    exists e. split; [exact He|]. split; [exact Hv|].
    unfold contains in Hc. pose proof Hc as Hc'.
    apply andb_true_iff in Hc'. rewrite !Z.leb_le in Hc'.
    split; [lia|].
    intros Ho Hm. rewrite dfsAt_dfs, (@dfs_filter V s x x (root m) Ho Hm).
    eexists. split; [reflexivity|]. apply filter_In. split; [exact He|exact Hc].
  - rewrite getAtLoop_NaN. reflexivity.
  - rewrite dfsAt_NaN. reflexivity.
Qed.

(** X7: for a number [x] other than [NaN], on a strictly ordered map whose
    stored intervals have [a <= b] and are pairwise disjoint, the fast path
    [getAt(x)] returns the value of the interval that contains [x], and
    [null] when no stored interval contains [x]. *)
Theorem getAt_fast_path_on_disjoint (V : Type) (m : IntervalMap V) (x : Z) :
  bstOrder (root m) ->
  (forall e, In e (entries (root m)) -> a (interval e) <= b (interval e)) ->
  (forall e1 e2, In e1 (entries (root m)) -> In e2 (entries (root m)) ->
                 interval e1 <> interval e2 ->
                 b (interval e1) < a (interval e2) \/
                 b (interval e2) < a (interval e1)) ->
  (forall e, In e (entries (root m)) ->
             a (interval e) <= x <= b (interval e) ->
             getAt m (Num x) false = Single (Some (value e))) /\
  ((forall e, In e (entries (root m)) ->
              ~ a (interval e) <= x <= b (interval e)) ->
   getAt m (Num x) false = Single None).
Proof.
  intros Ho Hval Hdis. unfold getAt. split.
  - intros e He Hc. f_equal.
    apply (@getAtLoop_disjoint V x (root m) e Ho Hval Hdis He).
    unfold contains. apply andb_true_iff. rewrite !Z.leb_le. lia.
  - intros Hnone. f_equal.
    destruct (getAtLoop (Num x) (root m)) as [v|] eqn:E; [|reflexivity].
    destruct (getAtLoop_sound _ _ E) as (e & He & _ & Hc).
    exfalso. apply (Hnone e He).
    unfold contains in Hc. apply andb_true_iff in Hc.
    rewrite !Z.leb_le in Hc. lia.
Qed.

(** X8: on a map with the invariants, [toArray] (the [forEach] loop with
    its explicit stack) ends within [size + 1] turns and returns [size]
    entries ascending by [(a, b)]: the stored entries in order. *)
Theorem toArray_in_order (V : Type) (s : bool) (m : IntervalMap V) :
  invariants s m ->
  exists out,
    toArray (S (Z.to_nat (size m))) m = Some (Ok out) /\
    out = entries (root m) /\
    Z.of_nat (List.length out) = size m /\
    StronglySorted (lexR s) (map (@interval V) out).
Proof.
  intros (Ho & _ & _ & Hsz). unfold sizeOk, count in Hsz.
  exists (entries (root m)).
  split; [apply toArray_entries; lia|]. split; [reflexivity|].
  split; [lia|].
  apply (@ordered_sorted V (lexR s) (root m) (@lexR_trans s)) in Ho. exact Ho.
Qed.

(** X9: when [size] counts the nodes, [isEmpty] is true exactly when the
    map has no root node, and then [toArray] is empty. *)
Theorem isEmpty_iff_no_root (V : Type) (m : IntervalMap V) :
  sizeOk m ->
  (isEmpty m = true <-> root m = null) /\
  (isEmpty m = true -> toArray 1 m = Some (Ok [])).
Proof.
  unfold sizeOk, count, isEmpty. intros Hsz.
  assert (H : (size m =? 0) = true <-> root m = null).
  { rewrite Z.eqb_eq. split.
    - intros E. apply entries_nil. apply length_zero_iff_nil. lia.
    - intros E. rewrite Hsz, E. reflexivity. }
  split; [exact H|].
  intros E. apply H in E. unfold toArray. rewrite E. reflexivity.
Qed.

(** *** The balance helpers *)

Section BalanceFacts.

Variable V : Type.
Implicit Types t l r x y : tree V.

Lemma update_exact i v m0 h0 m h l r :
  h = Z.max (height l) (height r) + 1 ->
  m = Z.max (b i) (Z.max (subtreeMax l (b i)) (subtreeMax r (b i))) ->
  update (Node i v m0 h0 l r) = Ok (Node i v m h l r).
Proof.
  intros Hh Hm. unfold update. cbv zeta. rewrite raiseMax_max.
  f_equal. f_equal; [congruence|]. subst h. zbool; lia.
Qed.

Lemma rotL_entries x y : rotL x = Ok y -> entries y = entries x.
Proof.
  destruct x as [|xi xv xm xh xl [|yi yv ym yh T2 yr]]; try discriminate.
  simpl. intros H. inversion H; subst. app_norm.
Qed.

Lemma rotR_entries x y : rotR x = Ok y -> entries y = entries x.
Proof.
  destruct x as [|yi yv ym yh [|xi xv xm xh xl T2] yr]; try discriminate.
  simpl. intros H. inversion H; subst. app_norm.
Qed.

Lemma rotL_rotR x y : augmented x -> rotL x = Ok y -> rotR y = Ok x.
Proof.
  destruct x as [|xi xv xm xh xl [|yi yv ym yh T2 yr]]; try discriminate.
  intros (Hxh & Hxm & _ & (Hyh & Hym & _ & _)) H.
  simpl in H. inversion H; subst y. clear H.
  unfold rotR. rewrite (@update_exact yi yv _ _ _ _ T2 yr Hyh Hym). cbn [bind].
  apply update_exact; assumption.
Qed.

Lemma rotR_rotL x y : augmented x -> rotR x = Ok y -> rotL y = Ok x.
Proof.
  destruct x as [|yi yv ym yh [|xi xv xm xh xl T2] yr]; try discriminate.
  intros (Hyh & Hym & (Hxh & Hxm & _ & _) & _) H.
  simpl in H. inversion H; subst y. clear H.
  unfold rotL. rewrite (@update_exact xi xv _ _ _ _ xl T2 Hxh Hxm). cbn [bind].
  apply update_exact; assumption.
Qed.

(** A balanced tree of height [h] has at least [2 ^ (h / 2) - 1] nodes. *)
Lemma avl_height_log t : avl t -> 2 ^ (height t / 2) <= count t + 1.
Proof.
  induction t as [|i v m h l IHl r IHr]; intros Hav.
  - reflexivity.
  - pose proof Hav as (Hl & Hr & Hh & _ & Hb).
    specialize (IHl Hl). specialize (IHr Hr).
    pose proof (avl_height_nonneg _ Hl) as Hnl.
    pose proof (avl_height_nonneg _ Hr) as Hnr.
    rewrite count_node. cbn [height].
    assert (Hcl : 0 <= count l) by (unfold count; lia).
    assert (Hcr : 0 <= count r) by (unfold count; lia).
    destruct (Z.eq_dec h 1) as [->|Hne].
    + change (2 ^ (1 / 2)) with 1. lia.
    + assert (H2 : 2 <= h) by lia.
      assert (Ehalf : h / 2 = (h - 2) / 2 + 1)
        by (Z.div_mod_to_equations; lia).
      assert (Hq : 0 <= (h - 2) / 2) by (Z.div_mod_to_equations; lia).
      rewrite Ehalf, Z.pow_add_r by lia. change (2 ^ 1) with 2.
      assert (Pl : 2 ^ ((h - 2) / 2) <= 2 ^ (height l / 2)).
      { apply Z.pow_le_mono_r; [lia|]. apply Z.div_le_mono; lia. }
      assert (Pr : 2 ^ ((h - 2) / 2) <= 2 ^ (height r / 2)).
      { apply Z.pow_le_mono_r; [lia|]. apply Z.div_le_mono; lia. }
      lia.
Qed.

Lemma ins_stored k v t sz t' sz' :
  avl t -> ins k v t sz = Ok (t', sz') -> In (mkEntry k v) (entries t').
Proof.
  intros Hav Hins.
  destruct (@ins_spec V k v t sz Hav) as (t2 & E & _ & _ & Hp & Ha).
  rewrite Hins in E. inversion E; subst t2.
  destruct (present k t) eqn:Hpr.
  - rewrite (Hp eq_refl).
    destruct (@overwrite_entries V k v t Hpr) as (pre & old & post & _ & E2).
    rewrite E2. apply in_or_app. right. left. reflexivity.
  - destruct (Ha eq_refl) as (pre & post & _ & E2).
    rewrite E2. apply in_or_app. right. left. reflexivity.
Qed.

End BalanceFacts.

(** X10: [rebalance(update(n))] on a node whose subtrees are balanced with
    exact caches and whose heights differ by at most two returns, without
    raising, a balanced tree with exact caches that holds the same entries
    in the same order; its height is the larger child height or one more;
    when the heights differ by at most one no rotation happens. *)
Theorem rebalance_restores_balance (V : Type) (i : Interval) (v : V)
    (m h : Z) (l r : tree V) :
  balanced l -> augmented l -> balanced r -> augmented r ->
  -2 <= height l - height r <= 2 ->
  exists n1 n',
    update (Node i v m h l r) = Ok n1 /\
    rebalance n1 = Ok n' /\
    balanced n' /\ augmented n' /\
    entries n' = entries l ++ mkEntry i v :: entries r /\
    Z.max (height l) (height r) <= height n' <= Z.max (height l) (height r) + 1 /\
    (-1 <= height l - height r <= 1 -> n' = n1).
Proof.
  intros Hbl Hal Hbr Har Hd.
  assert (Hl : avl l) by (apply avl_iff; auto).
  assert (Hr : avl r) by (apply avl_iff; auto).
  destruct (@fixup_spec V i v m h l r Hl Hr Hd)
    as (n1 & n' & Hu & Hre & Hn' & Hen & Hhn & Hsame).
  exists n1, n'. apply avl_iff in Hn'. destruct Hn' as [Hb' Ha'].
  repeat (split; [assumption|]).
  intros Hb. rewrite (Hsame Hb).
  unfold update in Hu. cbv zeta in Hu. inversion Hu. f_equal. zbool; lia.
Qed.

(** X11: a rotation that succeeds keeps the in-order sequence, and on a
    tree with exact caches the opposite rotation undoes it; [rotL] raises
    exactly when there is no right child to lift. *)
Theorem rotations_preserve_and_invert (V : Type) (x y : tree V) :
  augmented x ->
  (rotL x = Ok y -> entries y = entries x /\ rotR y = Ok x) /\
  (rotR x = Ok y -> entries y = entries x /\ rotL y = Ok x) /\
  (rotL x = Throw TypeError <->
   x = null \/ exists i v m h l, x = Node i v m h l null).
Proof.
  intros Ha. split; [|split].
  - intros H. split; [apply rotL_entries | apply rotL_rotR]; assumption.
  - intros H. split; [apply rotR_entries | apply rotR_rotL]; assumption.
  - destruct x as [|xi xv xm xh xl [|yi yv ym yh T2 yr]]; simpl.
    + split; auto.
    + split; [intros _; right; eauto 10 | reflexivity].
    + split; [discriminate|]. intros [H|(i & v & m & h & l & H)]; discriminate.
Qed.

(** X12: on a map with the invariants the height of the tree, which bounds
    the depth of every recursive call, is logarithmic in the size:
    [2 ^ (height / 2) <= size + 1], so [height <= 2 * log2 (size + 1) + 1]. *)
Theorem height_is_logarithmic (V : Type) (s : bool) (m : IntervalMap V) :
  invariants s m ->
  realHeight (root m) = height (root m) /\
  2 ^ (height (root m) / 2) <= size m + 1 /\
  height (root m) <= 2 * Z.log2 (size m + 1) + 1.
Proof.
  intros Hinv. pose proof (invariants_avl Hinv) as Hav.
  destruct Hinv as (_ & _ & _ & Hsz). unfold sizeOk in Hsz.
  pose proof (avl_height_log _ Hav) as Hlog. rewrite <- Hsz in Hlog.
  split; [symmetry; apply avl_realHeight; exact Hav|].
  split; [exact Hlog|].
  assert (Hpos : 0 < size m + 1) by (rewrite Hsz; unfold count; lia).
  apply Z.log2_le_pow2 in Hlog; [|exact Hpos].
  Z.div_mod_to_equations. lia.
Qed.

(** X13: on a non-empty tree whose subtree maxima are cached exactly, the
    [m] field of the root is the largest right endpoint stored in the map:
    no stored interval ends after it and one ends at it. *)
Theorem root_max_is_largest_end (V : Type) (m : IntervalMap V) :
  maxCached (root m) -> root m <> null ->
  (forall e, In e (entries (root m)) ->
             b (interval e) <= subtreeMax (root m) 0) /\
  (exists e, In e (entries (root m)) /\
             b (interval e) = subtreeMax (root m) 0).
Proof.
  intros Hm Hnn. split.
  - intros e He.
    apply (entries_keys _ _ (@maxCached_bound V (root m) 0 Hm) e He).
  - destruct (@maxCached_attained V (root m) 0 Hm Hnn) as (j & Hj & Hbj).
    unfold keys in Hj. apply in_map_iff in Hj. destruct Hj as (e & Ej & He).
    exists e. split; [exact He|]. rewrite Ej. exact Hbj.
Qed.

(** X14: on a map with the invariants, after [set(k, v)] with [a <= b] the
    interval [k] is seen by the overlap queries: [hasOverlap(k)] is true and
    [getOverlapping(k)] lists the entry [(k, v)]. *)
Theorem set_then_overlap (V : Type) (s : bool) (m : IntervalMap V)
    (k : Interval) (v : V) :
  invariants s m -> a k <= b k ->
  exists m' out,
    set m (VInterval k) v = Returns tt m' /\
    hasOverlap m' (VInterval k) = Returns true m' /\
    getOverlapping m' (VInterval k) = Returns out m' /\
    In (mkEntry k v) out.
Proof.
  intros Hinv Hk. pose proof (invariants_avl Hinv) as Hav.
  destruct (set_invariants k v Hinv) as (m' & Hset & Hinv' & _).
  destruct (@ins_spec V k v (root m) (size m) Hav) as (t' & Hins & _).
  assert (Hroot : root m' = t').
  { unfold set in Hset. rewrite Hins in Hset. inversion Hset. reflexivity. }
  pose proof (ins_stored _ _ _ _ Hav Hins) as Hin. rewrite <- Hroot in Hin.
  destruct Hinv' as (Ho & _ & Ha & _). apply augmented_maxCached in Ha.
  assert (Hov : overlaps (a k) (b k) (interval (mkEntry k v)) = true).
  { unfold overlaps. simpl. apply andb_true_iff. rewrite !Z.leb_le. lia. }
  exists m'. eexists. split; [exact Hset|].
  unfold hasOverlap, getOverlapping.
  rewrite (@hasOverlapLoop_existsb V s (a k) (b k) (root m') Ho Ha),
    (@dfs_filter V s (a k) (b k) (root m') Ho Ha).
  split; [|split; [reflexivity|]].
  - f_equal. apply existsb_exists. exists (mkEntry k v). auto.
  - apply filter_In. auto.
Qed.

(** *** Sequences of calls and the bulk builder *)

Section SequenceFacts.

Variable V : Type.
Implicit Types t l r : tree V.
Implicit Types m : IntervalMap V.

Lemma sorted_entries s (xs : list (entry V)) :
  StronglySorted (lexR s) (map (@interval V) xs) -> StronglySorted (keyR s) xs.
Proof.
  induction xs as [|e es IH]; [constructor|].
  simpl. intros Hs. inversion Hs as [|? ? Hs' Hf]; subst.
  constructor; [auto|]. rewrite Forall_map in Hf. exact Hf.
Qed.

(** Two arrays with the same entries, both strictly ascending by key, are
    the same array. *)
Lemma sorted_perm_eq (xs ys : list (entry V)) :
  StronglySorted (keyR true) xs -> StronglySorted (keyR true) ys ->
  Permutation xs ys -> xs = ys.
Proof.
  revert ys. induction xs as [|x xs IH]; intros ys Hx Hy Hp.
  - apply Permutation_nil in Hp. congruence.
  - destruct ys as [|y ys].
    + apply Permutation_sym, Permutation_nil in Hp. discriminate.
    + inversion Hx as [|? ? Hx' Hfx]; subst.
      inversion Hy as [|? ? Hy' Hfy]; subst.
      rewrite Forall_forall in Hfx, Hfy.
      assert (E : x = y).
      { assert (Hxin : In x (y :: ys))
          by (eapply Permutation_in; [exact Hp | left; reflexivity]).
        assert (Hyin : In y (x :: xs))
          by (eapply Permutation_in;
              [apply Permutation_sym; exact Hp | left; reflexivity]).
        destruct Hxin as [E|Hxin]; [congruence|].
        destruct Hyin as [E|Hyin]; [congruence|].
        pose proof (Hfy x Hxin) as H1. pose proof (Hfx y Hyin) as H2.
        unfold keyR in H1, H2. exfalso.
        apply (@lexLt_irrefl (interval x)).
        apply (lexR_trans H2 H1). }
      subst y. f_equal. apply IH; auto.
      apply Permutation_cons_inv in Hp. exact Hp.
Qed.

(** [set] of a key that is not stored adds one entry. *)
Lemma set_absent_perm s m (e : entry V) :
  invariants s m -> ~ In (interval e) (keys (root m)) ->
  exists m', set m (VInterval (interval e)) (value e) = Returns tt m' /\
             invariants s m' /\
             Permutation (entries (root m')) (e :: entries (root m)).
Proof.
  intros Hinv Hnin. pose proof (invariants_avl Hinv) as Hav.
  assert (Hp : present (interval e) (root m) = false).
  { destruct (present (interval e) (root m)) eqn:E; [|reflexivity].
    apply present_In in E. contradiction. }
  destruct (set_invariants (interval e) (value e) Hinv) as (m1 & Hset & Hinv1 & _).
  destruct (@ins_spec V (interval e) (value e) (root m) (size m) Hav)
    as (t1 & Hins & _ & _ & _ & Habs).
  assert (Hroot1 : root m1 = t1).
  { unfold set in Hset. rewrite Hins in Hset. inversion Hset. reflexivity. }
  destruct (Habs Hp) as (pre & post & E1 & E2).
  exists m1. split; [exact Hset|]. split; [exact Hinv1|].
  rewrite Hroot1, E2, E1. destruct e as [i v]. simpl.
  apply Permutation_sym, Permutation_middle.
Qed.

Lemma setEach_spec s (pairs : list (entry V)) m :
  invariants s m ->
  NoDup (map (@interval V) pairs) ->
  (forall e, In e pairs -> ~ In (interval e) (keys (root m))) ->
  exists m', setEach m pairs = Returns tt m' /\
             invariants s m' /\
             Permutation (entries (root m')) (entries (root m) ++ pairs).
Proof.
  revert m. induction pairs as [|e rest IH]; intros m Hinv Hnd Hfresh.
  - exists m. simpl. rewrite app_nil_r. auto.
  - inversion Hnd as [|? ? Hnin Hnd']; subst.
    destruct (@set_absent_perm s m e Hinv) as (m1 & Hset & Hinv1 & Hperm).
    { apply Hfresh. left. reflexivity. }
    destruct (IH m1 Hinv1 Hnd') as (m' & Hrest & Hinv' & Hperm').
    { intros e' He' Hin. unfold keys in Hin.
      apply (Permutation_in _ (Permutation_map (@interval V) Hperm)) in Hin.
      simpl in Hin. destruct Hin as [E|Hin].
      - apply Hnin. rewrite E. apply in_map. exact He'.
      - apply (Hfresh e'); [right; exact He' | exact Hin]. }
    exists m'. cbn [setEach]. rewrite Hset.
    split; [exact Hrest|]. split; [exact Hinv'|].
    rewrite Hperm'. rewrite Hperm. simpl.
    apply Permutation_middle.
Qed.

Lemma deleteEach_spec s (ks : list Interval) m :
  invariants s m -> Permutation ks (keys (root m)) ->
  exists m', deleteEach m ks = Returns tt m' /\ root m' = null /\ size m' = 0.
Proof.
  revert m. induction ks as [|k ks IH]; intros m Hinv Hperm.
  - apply Permutation_nil in Hperm. unfold keys in Hperm.
    apply map_eq_nil in Hperm.
    exists m. split; [reflexivity|]. split; [apply entries_nil; exact Hperm|].
    destruct Hinv as (_ & _ & _ & Hsz). unfold sizeOk, count in Hsz.
    rewrite Hsz, Hperm. reflexivity.
  - pose proof (invariants_avl Hinv) as Hav.
    assert (Hin : In k (keys (root m)))
      by (eapply Permutation_in; [exact Hperm | left; reflexivity]).
    assert (Hp : present k (root m) = true).
    { destruct Hinv as (Ho & _). apply (@In_present V s k (root m) Ho Hin). }
    destruct (delete_invariants k Hinv) as (m1 & Hdel & Hinv1 & _).
    destruct (@del_spec V k (root m) false Hav) as (t1 & Hd & _ & _ & _ & Hpres).
    assert (Hroot1 : root m1 = t1).
    { unfold delete in Hdel. rewrite Hd in Hdel. inversion Hdel. reflexivity. }
    destruct (Hpres Hp) as (pre & e & post & E1 & Ek & E2).
    destruct (IH m1 Hinv1) as (m' & Hrest & Hnull & Hzero).
    { unfold keys in *. rewrite Hroot1, E2, map_app.
      rewrite E1, map_app in Hperm. simpl in Hperm. rewrite Ek in Hperm.
      apply Permutation_cons_app_inv in Hperm. exact Hperm. }
    exists m'. cbn [deleteEach]. rewrite Hdel. auto.
Qed.

End SequenceFacts.

Section CoalesceFacts.

Variable V : Type.
Variable veq : V -> V -> bool.

(** The first retained entry of a sweep carries the value and the start of
    the entry the sweep began with, and ends no earlier. *)
Lemma sweepFrom_head (cur : entry V) rest :
  exists r tl,
    sweepFrom veq cur rest = r :: tl /\
    value r = value cur /\
    a (interval r) = a (interval cur) /\
    b (interval cur) <= b (interval r).
Proof.
  revert cur. induction rest as [|e rest IH]; intros cur.
  - exists cur, []. repeat split. lia.
  - cbn [sweepFrom]. destruct (merges veq cur e).
    + destruct (IH (extend cur e)) as (r & tl & E & Hv & Ha & Hb).
      exists r, tl. unfold extend in Hv, Ha, Hb. simpl in Hv, Ha, Hb.
      repeat split; auto. lia.
    + exists cur, (sweepFrom veq e rest). repeat split. lia.
Qed.

Lemma merges_head (x y y' : entry V) :
  value y' = value y -> a (interval y') = a (interval y) ->
  merges veq x y' = merges veq x y.
Proof. unfold merges. intros -> ->. reflexivity. Qed.

Lemma sweepFrom_settled (cur : entry V) rest :
  settled veq (sweepFrom veq cur rest).
Proof.
  revert cur. induction rest as [|e rest IH]; intros cur.
  - exact I.
  - cbn [sweepFrom]. destruct (merges veq cur e) eqn:Hm; [apply IH|].
    destruct (sweepFrom_head e rest) as (r & tl & E & Hv & Ha & _).
    specialize (IH e). rewrite E in IH |- *.
    cbn [settled]. split; [|exact IH].
    rewrite (@merges_head cur e r Hv Ha). exact Hm.
Qed.

Lemma settled_fixed (x : entry V) rest :
  settled veq (x :: rest) -> sweepFrom veq x rest = x :: rest.
Proof.
  revert x. induction rest as [|y rest IH]; intros x Hs; [reflexivity|].
  cbn [settled] in Hs. destruct Hs as [Hm Hs].
  cbn [sweepFrom]. rewrite Hm. f_equal. apply IH. exact Hs.
Qed.

Lemma extend_sorted (cur e : entry V) rest :
  StronglySorted (keyR false) (cur :: e :: rest) ->
  StronglySorted (keyR false) (extend cur e :: rest).
Proof.
  intros Hs. inversion Hs as [|? ? Hs' Hf]; subst.
  inversion Hs' as [|? ? Hs'' Hf']; subst.
  inversion Hf as [|? ? Hce Hcr]; subst.
  constructor; [assumption|].
  rewrite Forall_forall in *. intros z Hz.
  specialize (Hcr z Hz). specialize (Hf' z Hz).
  unfold keyR, lexR, extend in *. simpl. lia.
Qed.

(** In a sweep over an ascending array every entry is accounted for by a
    retained entry. *)
Lemma sweepFrom_covers (cur : entry V) rest e :
  StronglySorted (keyR false) (cur :: rest) -> In e (cur :: rest) ->
  exists r, In r (sweepFrom veq cur rest) /\ covers veq r e.
Proof.
  revert cur. induction rest as [|e1 rest IH]; intros cur Hs Hin.
  - destruct Hin as [<-|[]]. exists cur. split; [left; reflexivity|].
    unfold covers. repeat split; auto; lia.
  - cbn [sweepFrom]. destruct (merges veq cur e1) eqn:Hm.
    + pose proof (extend_sorted Hs) as Hs'.
      destruct Hin as [<-|[<-|Hin]].
      * destruct (sweepFrom_head (extend cur e1) rest)
          as (r & tl & E & Hv & Ha & Hb).
        exists r. rewrite E. split; [left; reflexivity|].
        unfold extend in Hv, Ha, Hb. simpl in Hv, Ha, Hb.
        unfold covers. repeat split; auto; lia.
      * destruct (sweepFrom_head (extend cur e1) rest)
          as (r & tl & E & Hv & Ha & Hb).
        exists r. rewrite E. split; [left; reflexivity|].
        unfold extend in Hv, Ha, Hb. simpl in Hv, Ha, Hb.
        unfold merges in Hm. apply andb_true_iff in Hm. destruct Hm as [Hm1 Hm2].
        inversion Hs as [|? ? _ Hf]; subst. inversion Hf as [|? ? Hce _]; subst.
        unfold keyR in Hce. apply lexR_a in Hce.
        unfold covers. rewrite Hv. repeat split; auto; lia.
      * apply IH; [exact Hs' | right; exact Hin].
    + inversion Hs as [|? ? Hs1 Hf]; subst.
      destruct Hin as [<-|Hin].
      * exists cur. split; [left; reflexivity|].
        unfold covers. repeat split; auto; lia.
      * destruct (IH e1 Hs1 Hin) as (r & Hr & Hc).
        exists r. split; [right; exact Hr | exact Hc].
Qed.

End CoalesceFacts.

Lemma entry_eta_pair (V : Type) (e : entry V) :
  mkEntry (interval e) (value e) = e.
Proof. destruct e. reflexivity. Qed.

(** X15: [fromArray(pairs, false)] on pairs with pairwise distinct
    intervals (at most 2^30 of them) builds a map in which [get] of each
    input interval returns the value paired with it, and [get] of any other
    interval returns [null]. *)
Theorem fromArray_then_get (V : Type) (veq vlt : V -> V -> bool)
    (pairs : list (entry V)) :
  NoDup (map (@interval V) pairs) -> arrayFits pairs ->
  exists m,
    fromArray veq vlt (Some pairs) false = Ok m /\
    (forall e, In e pairs ->
       get m (VInterval (interval e)) = Returns (Some (value e)) m) /\
    (forall k, ~ In k (map (@interval V) pairs) ->
       get m (VInterval k) = Returns None m).
Proof.
  intros Hnd Hfit.
  destruct (@fromArray_invariants V veq vlt false pairs Hfit) as (m & Hf & _ & Hstrict).
  destruct (Hstrict Hnd) as (Ho & _).
  assert (Hen : Permutation pairs (entries (root m))).
  { destruct pairs as [|p pairs].
    - simpl in Hf. inversion Hf. constructor.
    - destruct (@fromArray_spec V veq vlt false (p :: pairs) ltac:(discriminate) Hfit)
        as (t & Hf' & _ & Hen & _).
      rewrite Hf in Hf'. inversion Hf'. cbn [root]. rewrite Hen.
      unfold prepared. cbv zeta. apply sort_perm. }
  exists m. split; [exact Hf|]. split.
  - intros e He. unfold get. f_equal.
    apply getLoop_iff; [exact Ho|].
    rewrite entry_eta_pair. eapply Permutation_in; [exact Hen | exact He].
  - intros k Hk. unfold get. f_equal. apply getLoop_absent.
    intros Hin. apply Hk. unfold keys in Hin.
    eapply Permutation_in; [|exact Hin].
    apply Permutation_sym, Permutation_map. exact Hen.
Qed.

(** X16: for pairs with pairwise distinct intervals, building the map with
    [fromArray(pairs, false)] and inserting the pairs one by one with [set]
    store the same entries in the same order and report the same size (the
    two trees may be shaped differently). *)
Theorem fromArray_agrees_with_setEach (V : Type) (veq vlt : V -> V -> bool)
    (pairs : list (entry V)) :
  NoDup (map (@interval V) pairs) -> arrayFits pairs ->
  exists m1 m2,
    setEach newMap pairs = Returns tt m1 /\
    fromArray veq vlt (Some pairs) false = Ok m2 /\
    entries (root m1) = entries (root m2) /\
    size m1 = size m2.
Proof.
  intros Hnd Hfit.
  destruct (@fromArray_invariants V veq vlt false pairs Hfit) as (m2 & Hf & _ & Hstrict).
  destruct (Hstrict Hnd) as (Ho2 & _ & _ & Hsz2).
  assert (Hen : Permutation pairs (entries (root m2))).
  { destruct pairs as [|p pairs].
    - simpl in Hf. inversion Hf. constructor.
    - destruct (@fromArray_spec V veq vlt false (p :: pairs) ltac:(discriminate) Hfit)
        as (t & Hf' & _ & Hen & _).
      rewrite Hf in Hf'. inversion Hf'. cbn [root]. rewrite Hen.
      unfold prepared. cbv zeta. apply sort_perm. }
  assert (Hnew : invariants true (@newMap V)) by (repeat split; simpl; auto).
  destruct (@setEach_spec V true pairs newMap Hnew Hnd) as (m1 & Hs & Hinv1 & Hperm).
  { intros e _ []. }
  destruct Hinv1 as (Ho1 & _ & _ & Hsz1).
  assert (E : entries (root m1) = entries (root m2)).
  { apply sorted_perm_eq.
    - apply sorted_entries.
      apply (@ordered_sorted V (lexR true) (root m1) (@lexR_trans true)). exact Ho1.
    - apply sorted_entries.
      apply (@ordered_sorted V (lexR true) (root m2) (@lexR_trans true)). exact Ho2.
    - rewrite Hperm. simpl. exact Hen. }
  exists m1, m2. split; [exact Hs|]. split; [exact Hf|]. split; [exact E|].
  unfold sizeOk, count in Hsz1, Hsz2. rewrite Hsz1, Hsz2, E. reflexivity.
Qed.

(** X17: on a map with the invariants, deleting every stored key, in any
    order, leaves the empty map: no root node and size 0. *)
Theorem deleteEach_empties (V : Type) (s : bool) (m : IntervalMap V)
    (ks : list Interval) :
  invariants s m -> Permutation ks (keys (root m)) ->
  exists m', deleteEach m ks = Returns tt m' /\ root m' = null /\ size m' = 0.
Proof. intros Hinv Hperm. apply (deleteEach_spec Hinv Hperm). Qed.

(** X18: the coalescing loop is idempotent, and in what it retains no
    entry would merge into the one before it. *)
Theorem coalesce_idempotent (V : Type) (veq : V -> V -> bool)
    (arr : list (entry V)) :
  coalesce veq (coalesce veq arr) = coalesce veq arr /\
  settled veq (coalesce veq arr).
Proof.
  rewrite !coalesce_coalesceSpec.
  destruct arr as [|e rest]; [split; [reflexivity | exact I]|].
  cbn [coalesceSpec].
  pose proof (sweepFrom_settled veq e rest) as Hs.
  destruct (sweepFrom veq e rest) as [|x tl] eqn:E; [split; [reflexivity|exact I]|].
  split; [|exact Hs]. cbn [coalesceSpec].
  apply settled_fixed. exact Hs.
Qed.

(** X19: [fromArray(pairs, true)] loses no coverage: for every input pair
    the map holds an entry that carries the value of the run the pair was
    merged into (the pair's own value, or one that [===] it) and whose
    interval spans the pair's interval. *)
Theorem fromArray_merge_covers_input (V : Type) (veq vlt : V -> V -> bool)
    (pairs : list (entry V)) :
  arrayFits pairs ->
  exists m,
    fromArray veq vlt (Some pairs) true = Ok m /\
    forall e, In e pairs ->
      exists r, In r (entries (root m)) /\ covers veq r e.
Proof.
  intros Hfit. destruct pairs as [|p pairs].
  - exists newMap. split; [reflexivity|]. intros e [].
  - destruct (@fromArray_spec V veq vlt true (p :: pairs) ltac:(discriminate) Hfit)
      as (t & Hf & _ & Hen & _).
    eexists. split; [exact Hf|]. cbn [root]. rewrite Hen.
    unfold prepared. cbv zeta. rewrite coalesce_coalesceSpec.
    intros e He.
    pose proof (sort_keys_sorted vlt true (p :: pairs)) as Hs.
    assert (Hin : In e (sort (comparePairs vlt true) (p :: pairs)))
      by (eapply Permutation_in; [apply sort_perm | exact He]).
    destruct (sort (comparePairs vlt true) (p :: pairs)) as [|x rest];
      [contradiction|].
    cbn [coalesceSpec]. apply sweepFrom_covers; assumption.
Qed.

(** X20: when the intervals are pairwise distinct, [fromArray] does not
    depend on the order of its input: two arrays with the same pairs give
    the same map, with or without [mergeSame]. *)
Theorem fromArray_order_independent (V : Type) (veq vlt : V -> V -> bool)
    (pairs pairs' : list (entry V)) (mergeSame : bool) :
  NoDup (map (@interval V) pairs) -> Permutation pairs pairs' ->
  fromArray veq vlt (Some pairs) mergeSame =
  fromArray veq vlt (Some pairs') mergeSame.
Proof.
  intros Hnd Hperm.
  assert (Hnd' : NoDup (map (@interval V) pairs'))
    by (eapply Permutation_NoDup; [apply Permutation_map; exact Hperm | exact Hnd]).
  assert (Hsort : sort (comparePairs vlt mergeSame) pairs =
                  sort (comparePairs vlt mergeSame) pairs').
  { apply sorted_perm_eq.
    - apply sorted_strict; [apply sort_keys_sorted|].
      eapply Permutation_NoDup; [apply Permutation_map, sort_perm | exact Hnd].
    - apply sorted_strict; [apply sort_keys_sorted|].
      eapply Permutation_NoDup; [apply Permutation_map, sort_perm | exact Hnd'].
    - rewrite <- !sort_perm. exact Hperm. }
  destruct pairs as [|p ps].
  - apply Permutation_nil in Hperm. subst. reflexivity.
  - destruct pairs' as [|p' ps'];
      [apply Permutation_sym, Permutation_nil in Hperm; discriminate|].
    rewrite !fromArray_unfold by discriminate.
    unfold prepared. cbv zeta. rewrite Hsort. reflexivity.
Qed.

(** *** More on set and delete *)

Section UpdateFacts.

Variable V : Type.
Implicit Types t l r : tree V.
Implicit Types m : IntervalMap V.

(** Overwriting a value with itself changes nothing. *)
Lemma overwrite_same k v t :
  getLoop (a k) (b k) t = Some v -> overwrite k v t = t /\ present k t = true.
Proof.
  induction t as [|i w mm h l IHl r IHr]; [discriminate|].
  rewrite getLoop_node. cbn [overwrite present].
  destruct (compareTo k i <? 0).
  - intros H. destruct (IHl H) as [E P]. rewrite E. auto.
  - destruct (compareTo k i >? 0).
    + intros H. destruct (IHr H) as [E P]. rewrite E. auto.
    + intros H. inversion H. auto.
Qed.

(** The entries after [set(k, v)] on a strictly ordered map: the new
    entry, and every old entry under another key. *)
Lemma set_membership m k v m' :
  invariants true m -> set m (VInterval k) v = Returns tt m' ->
  forall e, In e (entries (root m')) <->
            e = mkEntry k v \/ (interval e <> k /\ In e (entries (root m))).
Proof.
  intros Hinv Hset. pose proof (invariants_avl Hinv) as Hav.
  destruct Hinv as (Ho & _).
  destruct (@ins_spec V k v (root m) (size m) Hav)
    as (t' & Hins & _ & _ & Hpres & Habs).
  unfold set in Hset. rewrite Hins in Hset. inversion Hset; subst m'.
  cbn [root]. clear Hset.
  pose proof (ordered_NoDup _ Ho) as Hnd. unfold keys in Hnd.
  intros e. destruct (present k (root m)) eqn:Hp.
  - rewrite (Hpres eq_refl).
    destruct (@overwrite_entries V k v (root m) Hp) as (pre & old & post & E1 & E2).
    rewrite E1 in Hnd |- *. rewrite E2. rewrite map_app in Hnd. simpl in Hnd.
    apply NoDup_remove_2 in Hnd. rewrite <- map_app in Hnd.
    rewrite !in_app_iff. simpl.
    split.
    + intros [H|[H|H]]; [right|left; auto|right];
        (split; [intros E; apply Hnd; rewrite <- E | auto]).
      * rewrite map_app. apply in_or_app. left. apply in_map. exact H.
      * rewrite map_app. apply in_or_app. right. apply in_map. exact H.
    + intros [H|[Hne [H|[H|H]]]]; auto.
      subst e. simpl in Hne. contradiction.
  - destruct (Habs eq_refl) as (pre & post & E1 & E2).
    assert (Hnin : ~ In k (map (@interval V) (entries (root m)))).
    { intros Hin. rewrite (@In_present V true k (root m) Ho Hin) in Hp.
      discriminate. }
    rewrite E2. rewrite E1 in Hnin |- *.
    rewrite !in_app_iff. simpl.
    split.
    + intros [H|[H|H]]; [right|left; auto|right];
        (split; [intros E; apply Hnin; rewrite <- E | auto]).
      * apply in_map. apply in_or_app. left. exact H.
      * apply in_map. apply in_or_app. right. exact H.
    + intros [H|[Hne [H|H]]]; auto.
Qed.

(** Two strictly ordered trees with the same entries list them alike. *)
Lemma same_members_same_entries t1 t2 :
  ordered lexLt t1 -> ordered lexLt t2 ->
  (forall e, In e (entries t1) <-> In e (entries t2)) ->
  entries t1 = entries t2.
Proof.
  intros H1 H2 Hsame.
  apply sorted_perm_eq.
  - apply sorted_entries.
    apply (@ordered_sorted V (lexR true) t1 (@lexR_trans true)). exact H1.
  - apply sorted_entries.
    apply (@ordered_sorted V (lexR true) t2 (@lexR_trans true)). exact H2.
  - apply NoDup_Permutation; [| |exact Hsame].
    + apply (NoDup_map_inv (@interval V)). apply ordered_NoDup. exact H1.
    + apply (NoDup_map_inv (@interval V)). apply ordered_NoDup. exact H2.
Qed.

End UpdateFacts.

(** X21: on a non-empty balanced tree with exact caches, [minNode] is the
    node of the first in-order entry, and [delMin] returns, without
    raising, a balanced tree with exact caches that holds the remaining
    entries in order; the height drops by at most one. *)
Theorem delMin_removes_first (V : Type) (t : tree V) :
  balanced t -> augmented t -> t <> null ->
  exists si sv sm sh sl sr t',
    minNode t = Node si sv sm sh sl sr /\
    sl = null /\
    delMin t = Ok t' /\
    entries t = mkEntry si sv :: entries t' /\
    balanced t' /\ augmented t' /\
    height t - 1 <= height t' <= height t.
Proof.
  intros Hb Ha Hnn.
  assert (Hav : avl t) by (apply avl_iff; auto).
  destruct (@delMin_spec V t Hav Hnn)
    as (si & sv & sm & sh & sl & sr & t' & Hmin & Hdel & Hav' & Hh & Hen).
  apply avl_iff in Hav'. destruct Hav' as [Hb' Ha'].
  exists si, sv, sm, sh, sl, sr, t'.
  split; [exact Hmin|]. split; [|auto 10].
  clear - Hmin. induction t as [|i v m h l IHl r _]; [discriminate|].
  cbn [minNode] in Hmin. destruct l as [|li lv lm lh ll lr].
  - inversion Hmin. reflexivity.
  - apply IHl. exact Hmin.
Qed.

(** X22: on a map with the invariants, [set] leaves the height of the tree
    as it is or raises it by one, and [delete] leaves it as it is or lowers
    it by one. *)
Theorem height_changes_by_at_most_one (V : Type) (s : bool)
    (m : IntervalMap V) (k : Interval) (v : V) :
  invariants s m ->
  (exists m', set m (VInterval k) v = Returns tt m' /\
              height (root m) <= height (root m') <= height (root m) + 1) /\
  (exists removed m', delete m (VInterval k) = Returns removed m' /\
              height (root m) - 1 <= height (root m') <= height (root m)).
Proof.
  intros Hinv. pose proof (invariants_avl Hinv) as Hav. split.
  - destruct (@ins_spec V k v (root m) (size m) Hav) as (t' & Hins & _ & Hh & _).
    unfold set. rewrite Hins. eexists. split; [reflexivity | exact Hh].
  - destruct (@del_spec V k (root m) false Hav) as (t' & Hdel & _ & Hh & _).
    unfold delete. rewrite Hdel. eexists. eexists.
    split; [reflexivity | exact Hh].
Qed.

(** X23: [fromArray(pairs, true)] never holds more entries than it was
    given pairs, and holds at least one when given any. *)
Theorem fromArray_merge_size (V : Type) (veq vlt : V -> V -> bool)
    (pairs : list (entry V)) :
  arrayFits pairs ->
  exists m,
    fromArray veq vlt (Some pairs) true = Ok m /\
    size m <= Z.of_nat (List.length pairs) /\
    (pairs <> [] -> 1 <= size m).
Proof.
  intros Hfit. destruct pairs as [|p pairs].
  - exists newMap. split; [reflexivity|]. split; [simpl; lia | congruence].
  - destruct (@fromArray_spec V veq vlt true (p :: pairs) ltac:(discriminate) Hfit)
      as (t & Hf & _ & _ & _).
    destruct (prepared_length veq vlt true (p :: pairs)) as [Hle Hne].
    eexists. split; [exact Hf|]. cbn [size]. split; [lia|].
    intros H. specialize (Hne H).
    destruct (prepared veq vlt true (p :: pairs)); [congruence | simpl; lia].
Qed.

(** X24: on a map with the invariants, a second [set(k, v)] with the same
    key and value changes nothing at all. *)
Theorem set_twice_is_set_once (V : Type) (s : bool) (m : IntervalMap V)
    (k : Interval) (v : V) :
  invariants s m ->
  exists m', set m (VInterval k) v = Returns tt m' /\
             set m' (VInterval k) v = Returns tt m'.
Proof.
  intros Hinv. pose proof (invariants_avl Hinv) as Hav.
  destruct (set_invariants k v Hinv) as (m' & Hset & Hinv' & _).
  exists m'. split; [exact Hset|].
  pose proof (invariants_avl Hinv') as Hav'.
  assert (Hget : getLoop (a k) (b k) (root m') = Some v).
  { destruct Hinv as (Ho & _).
    destruct (@ins_spec V k v (root m) (size m) Hav)
      as (t' & Hins & _ & _ & Hpres & Habs).
    pose proof (@ins_ordered V s k v (root m) (size m) _ _ Hav Hins Ho) as Ho'.
    unfold set in Hset. rewrite Hins in Hset. inversion Hset; subst m'.
    cbn [root]. destruct (present k (root m)) eqn:Hp.
    - rewrite (Hpres eq_refl). apply getLoop_overwrite. exact Hp.
    - destruct (Habs eq_refl) as (pre & post & E1 & E2).
      assert (Hnin : ~ In k (keys (root m))).
      { intros Hin. rewrite (@In_present V s k (root m) Ho Hin) in Hp.
        discriminate. }
      apply (@getLoop_found V s k v t' Ho').
      + rewrite E2. apply in_or_app. right. left. reflexivity.
      + intros e He Hk. rewrite E2 in He. apply in_app_or in He.
        destruct He as [He|[He|He]].
        * exfalso. apply Hnin. unfold keys. rewrite E1, map_app.
          apply in_or_app. left. rewrite <- Hk. apply in_map. exact He.
        * subst e. reflexivity.
        * exfalso. apply Hnin. unfold keys. rewrite E1, map_app.
          apply in_or_app. right. rewrite <- Hk. apply in_map. exact He. }
  destruct (overwrite_same _ _ Hget) as [Esame Hp'].
  destruct (@ins_spec V k v (root m') (size m') Hav')
    as (t2 & Hins2 & _ & _ & Hpres2 & _).
  unfold set. rewrite Hins2, Hp', (Hpres2 Hp'), Esame.
  destruct m'. reflexivity.
Qed.

(** X25: on a map with the invariants, two [set] calls with different keys
    commute: either order stores the same entries, in the same order, with
    the same size. *)
Theorem set_commutes (V : Type) (m : IntervalMap V)
    (k1 k2 : Interval) (v1 v2 : V) :
  invariants true m -> k1 <> k2 ->
  exists ma mab mb mba,
    set m (VInterval k1) v1 = Returns tt ma /\
    set ma (VInterval k2) v2 = Returns tt mab /\
    set m (VInterval k2) v2 = Returns tt mb /\
    set mb (VInterval k1) v1 = Returns tt mba /\
    entries (root mab) = entries (root mba) /\
    size mab = size mba.
Proof.
  intros Hinv Hne.
  destruct (set_invariants k1 v1 Hinv) as (ma & Ha & Hinva & _).
  destruct (set_invariants k2 v2 Hinva) as (mab & Hab & Hinvab & _).
  destruct (set_invariants k2 v2 Hinv) as (mb & Hb & Hinvb & _).
  destruct (set_invariants k1 v1 Hinvb) as (mba & Hba & Hinvba & _).
  exists ma, mab, mb, mba.
  repeat (split; [assumption|]).
  assert (E : entries (root mab) = entries (root mba)).
  { apply same_members_same_entries;
      [apply Hinvab | apply Hinvba |].
    intros e.
    rewrite (@set_membership V ma k2 v2 mab Hinva Hab),
      (@set_membership V m k1 v1 ma Hinv Ha),
      (@set_membership V mb k1 v1 mba Hinvb Hba),
      (@set_membership V m k2 v2 mb Hinv Hb).
    split.
    - intros [->|[H2 [->|[H1 H]]]]; simpl in *; auto;
        try (right; split; [simpl; congruence | auto]).
    - intros [->|[H1 [->|[H2 H]]]]; simpl in *; auto;
        try (right; split; [simpl; congruence | auto]). }
  split; [exact E|].
  destruct Hinvab as (_ & _ & _ & S1). destruct Hinvba as (_ & _ & _ & S2).
  unfold sizeOk, count in S1, S2. rewrite S1, S2, E. reflexivity.
Qed.

(** ** The further properties at work on the maps of the test suite *)

Module MoreInstances.

Import Scenarios.
Local Open Scope string_scope.
Local Open Scope list_scope.
Local Open Scope Z_scope.

Ltac distinct_keys :=
  simpl; repeat constructor; simpl; intuition discriminate.

Lemma m5_inv : invariants true m5.
Proof. unfold invariants, sizeOk, lexR. simpl. repeat split; auto; lia. Qed.

Lemma m5_avl : balanced (root m5) /\ augmented (root m5).
Proof. destruct m5_inv as (_ & Hb & Ha & _). auto. Qed.

Lemma get_is_lookup_instance :
  bstOrder (root m5) /\
  exists res, get m5 (I 12 18) = Returns res m5 /\
              (res = Some "B" <-> In (E 12 18 "B") (entries (root m5))).
Proof.
  assert (Ho : bstOrder (root m5)) by apply m5_inv.
  split; [exact Ho|].
  destruct (@get_is_lookup string m5 (mkInterval 12 18) Ho) as (res & H1 & H2 & _).
  exists res. split; [exact H1 | apply H2].
Defined.

Lemma set_leaves_other_keys_instance :
  invariants true m5 /\ mkInterval 5 8 <> mkInterval 2 3 /\
  exists m' res,
    set m5 (I 2 3) "new" = Returns tt m' /\
    get m5 (I 5 8) = Returns res m5 /\ get m' (I 5 8) = Returns res m'.
Proof.
  assert (Hne : mkInterval 5 8 <> mkInterval 2 3) by discriminate.
  split; [exact m5_inv|]. split; [exact Hne|].
  exact (@set_leaves_other_keys string m5 (mkInterval 2 3) (mkInterval 5 8)
           "new" m5_inv Hne).
Defined.

Lemma delete_then_get_instance :
  invariants true m5 /\
  exists removed m',
    delete m5 (I 10 20) = Returns removed m' /\
    get m' (I 10 20) = Returns None m' /\
    delete m' (I 10 20) = Returns false m'.
Proof.
  split; [exact m5_inv|].
  destruct (@delete_then_get string m5 (mkInterval 10 20) m5_inv)
    as (removed & m' & H1 & H2 & H3 & _).
  exists removed, m'. auto.
Defined.

Lemma set_then_delete_restores_instance :
  invariants true m5 /\ ~ In (mkInterval 6 7) (keys (root m5)) /\
  exists ma mb,
    set m5 (I 6 7) "T" = Returns tt ma /\
    delete ma (I 6 7) = Returns true mb /\
    entries (root mb) = entries (root m5) /\ size mb = size m5.
Proof.
  assert (Hnin : ~ In (mkInterval 6 7) (keys (root m5)))
    by (simpl; intuition discriminate).
  split; [exact m5_inv|]. split; [exact Hnin|].
  destruct (@set_then_delete_restores string true m5 (mkInterval 6 7) "T"
              m5_inv Hnin) as (ma & mb & H1 & H2 & H3 & H4 & _).
  exists ma, mb. auto.
Defined.

Lemma getAt_all_exact_instance :
  ordered (lexR true) (root m5) /\ maxCached (root m5) /\
  exists out,
    getAt m5 (Num 15) true = Every out /\
    getOverlapping m5 (I 15 15) = Returns out m5.
Proof.
  assert (Ho : ordered (lexR true) (root m5)) by apply m5_inv.
  assert (Hm : maxCached (root m5))
    by (apply augmented_maxCached; apply m5_inv).
  split; [exact Ho|]. split; [exact Hm|].
  destruct (@getAt_all_exact string true m5 15 Ho Hm)
    as (out & H1 & _ & _ & _ & H5).
  exists out. auto.
Defined.

Lemma getAt_fast_path_sound_instance :
  getAt m5 (Num 15) false = Single (Some "B") /\
  (exists e, In e (entries (root m5)) /\ value e = "B" /\
             a (interval e) <= 15 <= b (interval e)) /\
  getAt m5 NaN false = Single (Some "L") /\
  getAt m5 NaN true = Every [].
Proof.
  assert (H : getAt m5 (Num 15) false = Single (Some "B")) by reflexivity.
  split; [exact H|].
  destruct (@getAt_fast_path_sound string true m5) as (Hsound & Hnan & Hall).
  split; [|split; [exact Hnan | exact Hall]].
  destruct (Hsound 15 "B" H) as (e & H1 & H2 & H3 & _).
  exists e. auto.
Defined.

Lemma getAt_fast_path_on_disjoint_instance :
  bstOrder (root ab) /\
  (forall e, In e (entries (root ab)) -> a (interval e) <= b (interval e)) /\
  (forall e1 e2, In e1 (entries (root ab)) -> In e2 (entries (root ab)) ->
                 interval e1 <> interval e2 ->
                 b (interval e1) < a (interval e2) \/
                 b (interval e2) < a (interval e1)) /\
  getAt ab (Num 25) false = Single (Some "B").
Proof.
  assert (Ho : bstOrder (root ab))
    by (unfold bstOrder, lexLt, lexR; simpl; repeat split; auto; lia).
  assert (Hv : forall e, In e (entries (root ab)) ->
                         a (interval e) <= b (interval e))
    by (simpl; intros e [<-|[<-|[]]]; simpl; lia).
  assert (Hd : forall e1 e2, In e1 (entries (root ab)) ->
                 In e2 (entries (root ab)) -> interval e1 <> interval e2 ->
                 b (interval e1) < a (interval e2) \/
                 b (interval e2) < a (interval e1)).
  { simpl. intros e1 e2 [<-|[<-|[]]] [<-|[<-|[]]] Hne; simpl in *;
      try lia; exfalso; apply Hne; reflexivity. }
  split; [exact Ho|]. split; [exact Hv|]. split; [exact Hd|].
  destruct (@getAt_fast_path_on_disjoint string ab 25 Ho Hv Hd) as [Hin _].
  apply (Hin (E 20 30 "B")); simpl; [auto | lia].
Defined.

Lemma toArray_in_order_instance :
  invariants true m5 /\
  exists out,
    toArray (S (Z.to_nat (size m5))) m5 = Some (Ok out) /\
    Z.of_nat (List.length out) = size m5 /\
    StronglySorted (lexR true) (map (@interval string) out).
Proof.
  split; [exact m5_inv|].
  destruct (@toArray_in_order string true m5 m5_inv) as (out & H1 & _ & H3 & H4).
  exists out. auto.
Defined.

Lemma isEmpty_iff_no_root_instance :
  sizeOk m5 /\ (isEmpty m5 = true <-> root m5 = null).
Proof.
  assert (Hs : sizeOk m5) by apply m5_inv.
  split; [exact Hs|]. apply (@isEmpty_iff_no_root string m5 Hs).
Defined.

Lemma right5_avl : balanced right5 /\ augmented right5.
Proof. simpl. repeat split; auto; lia. Qed.

Lemma rebalance_restores_balance_instance :
  balanced (@null string) /\ augmented (@null string) /\
  balanced right5 /\ augmented right5 /\
  -2 <= height (@null string) - height right5 <= 2 /\
  exists n1 n',
    update (Node (mkInterval 5 8) "L" 0 0 null right5) = Ok n1 /\
    rebalance n1 = Ok n' /\ balanced n' /\ augmented n' /\
    entries n' = E 5 8 "L" :: entries right5.
Proof.
  assert (Hd : -2 <= height (@null string) - height right5 <= 2)
    by (simpl; lia).
  split; [exact Logic.I|]. split; [exact Logic.I|].
  split; [apply right5_avl|]. split; [apply right5_avl|]. split; [exact Hd|].
  destruct (@rebalance_restores_balance string (mkInterval 5 8) "L" 0 0
              null right5 Logic.I Logic.I (proj1 right5_avl) (proj2 right5_avl) Hd)
    as (n1 & n' & H1 & H2 & H3 & H4 & H5 & _).
  exists n1, n'. auto.
Defined.

Lemma rotations_preserve_and_invert_instance :
  augmented right5 /\
  exists y, rotL right5 = Ok y /\ entries y = entries right5 /\
            rotR y = Ok right5.
Proof.
  split; [apply right5_avl|].
  eexists. split; [reflexivity|].
  apply (@rotations_preserve_and_invert string right5 _ (proj2 right5_avl)).
  reflexivity.
Defined.

Lemma height_is_logarithmic_instance :
  invariants true m5 /\
  2 ^ (height (root m5) / 2) <= size m5 + 1 /\
  height (root m5) <= 2 * Z.log2 (size m5 + 1) + 1.
Proof.
  split; [exact m5_inv|].
  apply (@height_is_logarithmic string true m5 m5_inv).
Defined.

Lemma root_max_is_largest_end_instance :
  maxCached (root m5) /\ root m5 <> null /\
  exists e, In e (entries (root m5)) /\
            b (interval e) = subtreeMax (root m5) 0.
Proof.
  assert (Hm : maxCached (root m5))
    by (apply augmented_maxCached; apply m5_inv).
  assert (Hn : root m5 <> null) by discriminate.
  split; [exact Hm|]. split; [exact Hn|].
  apply (@root_max_is_largest_end string m5 Hm Hn).
Defined.

Lemma set_then_overlap_instance :
  invariants true m5 /\ a (mkInterval 40 50) <= b (mkInterval 40 50) /\
  exists m' out,
    set m5 (I 40 50) "N" = Returns tt m' /\
    hasOverlap m' (I 40 50) = Returns true m' /\
    getOverlapping m' (I 40 50) = Returns out m' /\
    In (E 40 50 "N") out.
Proof.
  assert (Hk : a (mkInterval 40 50) <= b (mkInterval 40 50)) by (simpl; lia).
  split; [exact m5_inv|]. split; [exact Hk|].
  exact (@set_then_overlap string true m5 (mkInterval 40 50) "N" m5_inv Hk).
Defined.

Lemma abc_distinct : NoDup (map (@interval string) abc).
Proof. distinct_keys. Qed.

Lemma abc_fits : arrayFits abc.
Proof. unfold arrayFits. simpl. lia. Qed.

Lemma fromArray_then_get_instance :
  NoDup (map (@interval string) abc) /\ arrayFits abc /\
  exists m,
    fromArray String.eqb String.ltb (Some abc) false = Ok m /\
    get m (I 3 6) = Returns (Some "B") m.
Proof.
  split; [exact abc_distinct|]. split; [exact abc_fits|].
  destruct (@fromArray_then_get string String.eqb String.ltb abc
              abc_distinct abc_fits) as (m & H1 & H2 & _).
  exists m. split; [exact H1|].
  apply (H2 (E 3 6 "B")). simpl. auto.
Defined.

Lemma fromArray_agrees_with_setEach_instance :
  NoDup (map (@interval string) abc) /\ arrayFits abc /\
  exists ma mb,
    setEach newMap abc = Returns tt ma /\
    fromArray String.eqb String.ltb (Some abc) false = Ok mb /\
    entries (root ma) = entries (root mb) /\ size ma = size mb.
Proof.
  split; [exact abc_distinct|]. split; [exact abc_fits|].
  exact (@fromArray_agrees_with_setEach string String.eqb String.ltb abc
           abc_distinct abc_fits).
Defined.

Lemma deleteEach_empties_instance :
  invariants true m5 /\
  Permutation (rev (keys (root m5))) (keys (root m5)) /\
  exists m', deleteEach m5 (rev (keys (root m5))) = Returns tt m' /\
             root m' = null /\ size m' = 0.
Proof.
  assert (Hp : Permutation (rev (keys (root m5))) (keys (root m5)))
    by (apply Permutation_sym, Permutation_rev).
  split; [exact m5_inv|]. split; [exact Hp|].
  exact (@deleteEach_empties string true m5 (rev (keys (root m5))) m5_inv Hp).
Defined.

Lemma xy_fits : arrayFits xy.
Proof. unfold arrayFits. simpl. lia. Qed.

Lemma fromArray_merge_covers_input_instance :
  arrayFits xy /\
  exists m,
    fromArray Z.eqb Z.ltb (Some xy) true = Ok m /\
    exists r, In r (entries (root m)) /\
              covers Z.eqb r (mkEntry (mkInterval 2 5) 1).
Proof.
  split; [exact xy_fits|].
  destruct (@fromArray_merge_covers_input Z Z.eqb Z.ltb xy xy_fits)
    as (m & H1 & H2).
  exists m. split; [exact H1|]. apply H2. simpl. auto.
Defined.

Lemma fromArray_order_independent_instance :
  NoDup (map (@interval string) abc) /\ Permutation abc (rev abc) /\
  fromArray String.eqb String.ltb (Some abc) true =
  fromArray String.eqb String.ltb (Some (rev abc)) true.
Proof.
  assert (Hp : Permutation abc (rev abc)) by apply Permutation_rev.
  split; [exact abc_distinct|]. split; [exact Hp|].
  exact (@fromArray_order_independent string String.eqb String.ltb abc
           (rev abc) true abc_distinct Hp).
Defined.

Lemma delMin_removes_first_instance :
  balanced (root m5) /\ augmented (root m5) /\ root m5 <> null /\
  exists si sv t',
    delMin (root m5) = Ok t' /\
    entries (root m5) = mkEntry si sv :: entries t' /\
    balanced t' /\ augmented t'.
Proof.
  assert (Hn : root m5 <> null) by discriminate.
  split; [apply m5_avl|]. split; [apply m5_avl|]. split; [exact Hn|].
  destruct (@delMin_removes_first string (root m5) (proj1 m5_avl)
              (proj2 m5_avl) Hn)
    as (si & sv & sm & sh & sl & sr & t' & _ & _ & H3 & H4 & H5 & H6 & _).
  exists si, sv, t'. auto.
Defined.

Lemma height_changes_by_at_most_one_instance :
  invariants true m5 /\
  exists m', set m5 (I 40 50) "N" = Returns tt m' /\
             height (root m5) <= height (root m') <= height (root m5) + 1.
Proof.
  split; [exact m5_inv|].
  apply (@height_changes_by_at_most_one string true m5 (mkInterval 40 50) "N"
           m5_inv).
Defined.

Lemma fromArray_merge_size_instance :
  arrayFits xy /\
  exists m, fromArray Z.eqb Z.ltb (Some xy) true = Ok m /\
            size m <= Z.of_nat (List.length xy).
Proof.
  split; [exact xy_fits|].
  destruct (@fromArray_merge_size Z Z.eqb Z.ltb xy xy_fits) as (m & H1 & H2 & _).
  exists m. auto.
Defined.

Lemma set_twice_is_set_once_instance :
  invariants true m5 /\
  exists m', set m5 (I 40 50) "N" = Returns tt m' /\
             set m' (I 40 50) "N" = Returns tt m'.
Proof.
  split; [exact m5_inv|].
  exact (@set_twice_is_set_once string true m5 (mkInterval 40 50) "N" m5_inv).
Defined.

Lemma set_commutes_instance :
  invariants true m5 /\ mkInterval 40 50 <> mkInterval 0 1 /\
  exists ma mab mb mba,
    set m5 (I 40 50) "N" = Returns tt ma /\
    set ma (I 0 1) "O" = Returns tt mab /\
    set m5 (I 0 1) "O" = Returns tt mb /\
    set mb (I 40 50) "N" = Returns tt mba /\
    entries (root mab) = entries (root mba) /\
    size mab = size mba.
Proof.
  assert (Hne : mkInterval 40 50 <> mkInterval 0 1) by discriminate.
  split; [exact m5_inv|]. split; [exact Hne|].
  exact (@set_commutes string m5 (mkInterval 40 50) (mkInterval 0 1) "N" "O"
           m5_inv Hne).
Defined.

End MoreInstances.
